(** * coherence-js-client: session, event dispatcher and filter model

    A shallow embedding of the TypeScript and JavaScript sources:

    - [Filters]: the filter classes and the [Filters] factory;
    - [NamedCacheClient]: the promise callbacks of the legacy JavaScript
      client;
    - [Session]: [Options], [TlsOptions] and [Session] of session.ts;
    - [Events]: [MapEventsManager] and its [ListenerGroup] classes.

    JavaScript objects that are shared and mutated (the options of a
    session, the listener groups of a dispatcher) live in a store and are
    referred to by address.  What a component does that others can see
    (stream writes, emitted events, listener calls) is recorded in a
    trace, oldest first.  Asynchronous functions are run to completion:
    an [await] on a request completes when the server acknowledges it,
    and a continuation that was queued earlier runs before it.

    The definitions come first; the properties follow them. *)

From Stdlib Require Import ZArith String Ascii List Bool Lia.
From stdpp Require Import base option list gmap strings pretty fin_maps.

Set Warnings "-register-all".
Local Open Scope string_scope.
Local Open Scope list_scope.

(** ** JavaScript values *)

(** The values that travel as keys, filter arguments and decoded
    payloads.  A [Set] is kept as the sequence of its elements in
    insertion order, which is what [Array.from] yields. *)
Inductive JsValue : Type :=
| JNull
| JBool (b : bool)
| JNum (n : Z)
| JStr (s : string)
| JArr (xs : list JsValue)
| JSet (xs : list JsValue).

(** A call either returns normally or throws. *)
Inductive Completion (A : Type) : Type :=
| Normal (a : A)
| Throw (message : string).
Arguments Normal {A} a.
Arguments Throw {A} message.

(** ** Insertion-ordered maps

    A JavaScript [Map] iterates in insertion order; [set] on a key that
    is present keeps its position. *)
Module JsMap.
Section Defs.
Context {K V : Type} `{EqDecision K}.

Definition t := list (K * V).

Definition empty : t := [].

Fixpoint get (k : K) (m : t) : option V :=
  match m with
  | [] => None
  | (k', v) :: m' => if decide (k' = k) then Some v else get k m'
  end.

Fixpoint set (k : K) (v : V) (m : t) : t :=
  match m with
  | [] => [(k, v)]
  | (k', v') :: m' =>
      if decide (k' = k) then (k', v) :: m' else (k', v') :: set k v m'
  end.

Fixpoint delete (k : K) (m : t) : t :=
  match m with
  | [] => []
  | (k', v) :: m' =>
      if decide (k' = k) then delete k m' else (k', v) :: delete k m'
  end.

Definition size (m : t) : nat := length m.

Definition keys (m : t) : list K := map fst m.

(** Keys are unique in every map built from [empty] by [set] and
    [delete]. *)
Definition wf (m : t) : Prop := NoDup (keys m).

#[global] Instance wf_dec (m : t) : Decision (wf m).
Proof. unfold wf. apply _. Defined.

End Defs.
Arguments t : clear implicits.
End JsMap.

(** ** Filters (filters.ts) *)
Module Filters.

(** Modelled from the spec: the extractor classes come from
    ./extractors, which is not among the sources; section 4.2 names the
    identity, the universal (by attribute name) and the chained (by
    dot-separated path) extractor. *)
Inductive ValueExtractor : Type :=
| IdentityExtractor
| UniversalExtractor (name : string)
| ChainedExtractor (path : string).

(** The argument type [extractor.ValueExtractor<T, E> | string]. *)
Inductive ExtractorOrMethod : Type :=
| AnExtractor (e : ValueExtractor)
| AMethod (name : string).

(** A filter object: its ['@class'] tag and the own properties that its
    constructors assign, in assignment order. *)
Inductive Filter : Type :=
| PlainObject (clz : string)
| ComparisonObject (clz : string) (extractor : ValueExtractor) (value : JsValue)
| ArrayObject (clz : string) (filters : list Filter)
| BetweenObject (clz : string) (filters : list Filter) (from to : JsValue)
| NotObject (clz : string) (filter : Filter)
| MapEventObject (clz : string) (mask : Z + Filter) (filter : option Filter).

(** [this['@class']]. *)
Definition at_class (f : Filter) : string :=
  match f with
  | PlainObject c | ComparisonObject c _ _
  | ArrayObject c _ | BetweenObject c _ _ _ | NotObject c _
  | MapEventObject c _ _ => c
  end.

(** [this['@class'] = clz]. *)
Definition set_class (clz : string) (f : Filter) : Filter :=
  match f with
  | PlainObject _ => PlainObject clz
  | ComparisonObject _ e v => ComparisonObject clz e v
  | ArrayObject _ fs => ArrayObject clz fs
  | BetweenObject _ fs a b => BetweenObject clz fs a b
  | NotObject _ g => NotObject clz g
  | MapEventObject _ m g => MapEventObject clz m g
  end.

(** [this.filters] of an array filter. *)
Definition filters_of (f : Filter) : list Filter :=
  match f with
  | ArrayObject _ fs | BetweenObject _ fs _ _ => fs
  | _ => []
  end.

(** [this.from = from; this.to = to] on an array filter. *)
Definition set_from_to (from to : JsValue) (f : Filter) : Filter :=
  match f with
  | ArrayObject c fs | BetweenObject c fs _ _ => BetweenObject c fs from to
  | _ => f
  end.

Definition filterName (name : string) : string := "filter." +:+ name.

(** [ExtractorFilter]'s constructor: an extractor is kept, a method name
    without ['.'] becomes a universal extractor, one with ['.'] a chained
    extractor. *)
Definition to_extractor (extractorOrMethod : ExtractorOrMethod) : ValueExtractor :=
  match extractorOrMethod with
  | AnExtractor e => e
  | AMethod name =>
      match String.index 0 "." name with
      | None => UniversalExtractor name
      | Some _ => ChainedExtractor name
      end
  end.

(** [ComparisonFilter]'s constructor: a [Set] value is stored as the
    array of its elements. *)
Definition ComparisonFilter (typeName : string)
    (extractorOrMethod : ExtractorOrMethod) (value : JsValue) : Filter :=
  ComparisonObject typeName (to_extractor extractorOrMethod)
    (match value with JSet xs => JArr xs | _ => value end).

Definition EqualsFilter x value := ComparisonFilter (filterName "EqualsFilter") x value.
Definition NotEqualsFilter x value := ComparisonFilter (filterName "NotEqualsFilter") x value.
Definition GreaterEqualsFilter x value := ComparisonFilter (filterName "GreaterEqualsFilter") x value.
Definition GreaterFilter x value := ComparisonFilter (filterName "GreaterFilter") x value.
Definition LessEqualsFilter x value := ComparisonFilter (filterName "LessEqualsFilter") x value.
Definition LessFilter x value := ComparisonFilter (filterName "LessFilter") x value.
Definition ContainsFilter x value := ComparisonFilter (filterName "ContainsFilter") x value.
Definition InFilter x setValues := ComparisonFilter (filterName "InFilter") x setValues.

Definition IsNullFilter x := set_class (filterName "IsNullFilter") (EqualsFilter x JNull).
Definition IsNotNullFilter x := set_class (filterName "IsNotNullFilter") (NotEqualsFilter x JNull).

Definition ArrayFilter (clz : string) (filters : list Filter) : Filter :=
  ArrayObject clz filters.
Definition AnyFilter filters := ArrayFilter (filterName "AnyFilter") filters.
Definition AllFilter filters := ArrayFilter (filterName "AllFilter") filters.
Definition AndFilter (left right : Filter) : Filter :=
  set_class (filterName "AndFilter") (AllFilter [left; right]).
Definition OrFilter (left right : Filter) : Filter :=
  set_class (filterName "OrFilter") (AnyFilter [left; right]).
Definition XorFilter (left right : Filter) : Filter :=
  ArrayFilter (filterName "XorFilter") [left; right].
Definition NotFilter (filter : Filter) : Filter := NotObject (filterName "NotFilter") filter.

(** The singletons [AlwaysFilter.INSTANCE], [NeverFilter.INSTANCE] and
    [PresentFilter.INSTANCE]. *)
Definition AlwaysFilter_INSTANCE : Filter := PlainObject (filterName "AlwaysFilter").
Definition NeverFilter_INSTANCE : Filter := PlainObject (filterName "NeverFilter").
Definition PresentFilter_INSTANCE : Filter := PlainObject (filterName "PresentFilter").

(** [BetweenFilter]'s constructor: the [AndFilter] of the two bound
    filters, re-tagged, with the bounds kept in [from] and [to].  Both
    flags default to [false] here. *)
Definition BetweenFilter (extractorOrMethod : ExtractorOrMethod) (from to : JsValue)
    (includeLowerBound includeUpperBound : option bool) : Filter :=
  let includeLowerBound := default false includeLowerBound in
  let includeUpperBound := default false includeUpperBound in
  let this :=
    AndFilter
      (if includeLowerBound then GreaterEqualsFilter extractorOrMethod from
       else GreaterFilter extractorOrMethod from)
      (if includeUpperBound then LessEqualsFilter extractorOrMethod to
       else LessFilter extractorOrMethod to) in
  let this := set_class (filterName "BetweenFilter") this in
  set_from_to from to this.

(** [MapEventFilter]: the event masks and the constructor. *)
Definition E_INSERTED : Z := 1.
Definition E_UPDATED : Z := 2.
Definition E_DELETED : Z := 4.
Definition E_UPDATED_ENTERED : Z := 8.
Definition E_UPDATED_LEFT : Z := 16.
Definition E_UPDATED_WITHIN : Z := 32.
Definition E_ALL : Z := Z.lor (Z.lor E_INSERTED E_UPDATED) E_DELETED.
Definition E_KEYSET : Z :=
  Z.lor (Z.lor (Z.lor E_INSERTED E_DELETED) E_UPDATED_ENTERED) E_UPDATED_LEFT.

Definition MapEventFilter (maskOrFilter : Z + Filter) (filter : option Filter) : Filter :=
  match filter with
  | Some f => MapEventObject (filterName "MapEventFilter") maskOrFilter (Some f)
  | None =>
      match maskOrFilter with
      | inr f => MapEventObject (filterName "MapEventFilter") (inl E_KEYSET) (Some f)
      | inl mask => MapEventObject (filterName "MapEventFilter") (inl mask) None
      end
  end.

(** The factory class [Filters]. *)
Definition all (filters : list Filter) : Filter := AllFilter filters.
Definition always : Filter := AlwaysFilter_INSTANCE.
Definition any (filters : list Filter) : Filter := AnyFilter filters.

(** [Filters.between]: both flags default to [true] here. *)
Definition between (extractorOrMethod : ExtractorOrMethod) (from to : JsValue)
    (includeLowerBound includeUpperBound : option bool) : Filter :=
  let includeLowerBound := default true includeLowerBound in
  let includeUpperBound := default true includeUpperBound in
  BetweenFilter extractorOrMethod from to (Some includeLowerBound) (Some includeUpperBound).

Definition equal x value := EqualsFilter x value.
Definition greater x value := GreaterFilter x value.
Definition greaterEqual x value := GreaterEqualsFilter x value.
Definition less x value := LessFilter x value.
Definition lessEqual x value := LessEqualsFilter x value.
Definition never : Filter := NeverFilter_INSTANCE.
Definition not (ff : Filter) : Filter := NotFilter ff.
Definition present : Filter := PresentFilter_INSTANCE.

(** *** More of the filters *)

(** The filters on a [Set] of values and on a pattern. *)
Definition ContainsAllFilter x setValues :=
  ComparisonFilter (filterName "ContainsAllFilter") x setValues.
Definition ContainsAnyFilter x setValues :=
  ComparisonFilter (filterName "ContainsAnyFilter") x setValues.
Definition RegexFilter x (regex : string) :=
  ComparisonFilter (filterName "RegexFilter") x (JStr regex).

(** [LikeFilter]: the comparison filter on the pattern, with the two
    properties its constructor adds.  Strings are sequences of code
    units. *)
Record LikeObject : Type := mkLike {
  like_filter : Filter;
  escapeChar : string;
  ignoreCase : bool
}.

Definition LikeFilter (extractorOrMethod : ExtractorOrMethod) (pattern : string)
    (escapeChar : option string) (ignoreCase : option bool) : LikeObject :=
  let escapeChar := default "0" escapeChar in
  let ignoreCase := default false ignoreCase in
  mkLike (ComparisonFilter (filterName "LikeFilter") extractorOrMethod (JStr pattern))
    (if (String.length escapeChar =? 1)%nat then escapeChar else "0")
    (ignoreCase || false).

(** [this.value] and [this.extractor] of a comparison filter. *)
Definition value_of (f : Filter) : option JsValue :=
  match f with
  | ComparisonObject _ _ v => Some v
  | _ => None
  end.

Definition extractor_of (f : Filter) : option ValueExtractor :=
  match f with
  | ComparisonObject _ e _ => Some e
  | _ => None
  end.

(** The rest of the factory class [Filters]; [in_] is [Filters.in]. *)
Definition arrayContains x value := ContainsFilter x value.
Definition arrayContainsAll x values := ContainsAllFilter x values.
Definition arrayContainsAny x values := ContainsAnyFilter x values.
Definition contains x value := ContainsFilter x value.
Definition containsAll x values := ContainsAllFilter x values.
Definition containsAny x values := ContainsAnyFilter x values.
Definition event (ff : Filter) (mask : option Z) : Filter :=
  MapEventFilter (inl (default E_KEYSET mask)) (Some ff).
Definition in_ x values := InFilter x values.
Definition isNotNull x := IsNotNullFilter x.
Definition isNull x := IsNullFilter x.
Definition like x pattern (escape : option string) (ignoreCase : option bool) :=
  LikeFilter x pattern escape ignoreCase.
Definition notEqual x value := NotEqualsFilter x value.
Definition regex x r := RegexFilter x r.

(** The comparison filters the factory builds from an extractor or
    method name and one value. *)
Definition comparison_factories : list (ExtractorOrMethod -> JsValue -> Filter) :=
  [arrayContains; arrayContainsAll; arrayContainsAny; contains; containsAll;
   containsAny; equal; greater; greaterEqual; in_; less; lessEqual; notEqual].

(** Whether a method name has a ['.'] in it. *)
Definition has_dot (name : string) : bool :=
  existsb (Ascii.eqb ".") (list_ascii_of_string name).

End Filters.

(** ** The extractor processor (extractor_processor.ts) *)
Module Processors.
Import Filters.

(** An [ExtractorProcessor]: the type name its constructor hands to the
    base class, and its extractor. *)
Record ExtractorProcessor : Type := mkExtractorProcessor {
  typeName : string;
  extractor : ValueExtractor
}.

(** [new ExtractorProcessor(methodName)]; an absent and an empty method
    name are both falsy. *)
Definition new_ExtractorProcessor (methodName : option string) : ExtractorProcessor :=
  mkExtractorProcessor "ExtractorProcessor"
    (match methodName with
     | None => IdentityExtractor
     | Some name =>
         if String.eqb name "" then IdentityExtractor
         else match String.index 0 "." name with
              | None => UniversalExtractor name
              | Some _ => ChainedExtractor name
              end
     end).

End Processors.

(** ** The legacy client (named_cache_client.js) *)
Module NamedCacheClient.

(** A reply of the service to a unary call: [(err, response)], where the
    response carries [value], absent or a byte buffer. *)
Record Reply : Type := mkReply {
  err : option string;
  value : option (list Byte.byte)
}.

(** A call of one of the two functions a promise executor receives. *)
Inductive Settle : Type :=
| resolve (v : JsValue)
| reject (e : string).

(** The state a promise is left in by the calls made on it: the first
    call settles it, later ones are ignored. *)
Inductive PromiseState : Type :=
| Pending
| Fulfilled (v : JsValue)
| Rejected (e : string).

Definition settled (calls : list Settle) : PromiseState :=
  match calls with
  | [] => Pending
  | resolve v :: _ => Fulfilled v
  | reject e :: _ => Rejected e
  end.

Section Client.
(** [JSON.parse(Buffer.from(bytes))]; [None] when it throws. *)
Variable JSON_parse : list Byte.byte -> option JsValue.

(** The callback shared by [get], [put], [putIfAbsent], [remove] and
    [replace]: the calls it makes on the promise, in order.  When
    [JSON.parse] throws the exception leaves the callback before any
    call is made. *)
Definition value_callback (r : Reply) : list Settle :=
  match err r with
  | Some e => [reject e]
  | None =>
      match value r with
      | Some bytes =>
          if (0 <? length bytes)%nat then
            match JSON_parse bytes with
            | Some v => [resolve v; resolve JNull]
            | None => []
            end
          else [resolve JNull]
      | None => [resolve JNull]
      end
  end.

(** The service client: what the server replies to each request. *)
Record Service : Type := mkService {
  client_get : string -> JsValue -> Reply;
  client_put : string -> JsValue -> JsValue -> option Z -> Reply
}.

Record Client : Type := mkClient {
  cacheName : string;
  client : Service
}.

Definition get (self : Client) (key : JsValue) : list Settle :=
  value_callback (client_get (client self) (cacheName self) key).

Definition put (self : Client) (key value : JsValue) (ttl : option Z) : list Settle :=
  value_callback (client_put (client self) (cacheName self) key value ttl).

End Client.

(** A service that answers every [get] and [put] without error and with
    the given payload, and a parser that accepts every payload. *)
Definition answering (payload : option (list Byte.byte)) : Client :=
  mkClient "c" (mkService (fun _ _ => mkReply None payload)
                          (fun _ _ _ _ => mkReply None payload)).

Definition parse_one (bytes : list Byte.byte) : option JsValue := Some (JNum 1).

(** *** All the methods of the client *)

(** The calls of the client, with their arguments. *)
Inductive Method : Type :=
| clear
| containsEntry (key value : JsValue)
| containsKey (key : JsValue)
| containsValue (key value : JsValue)
| isEmpty
| get_ (key : JsValue)
| put_ (key value : JsValue) (ttl : option Z)
| putIfAbsent (key value : JsValue) (ttl : option Z)
| remove (key : JsValue)
| removeMapping (key value : JsValue)
| replace (key : JsValue)
| replaceMapping (key value newValue : JsValue)
| size.

(** What the service hands to the callback of a call: the error, if
    any, the byte buffer of a response that carries a serialized value,
    and the boolean or number of a response that carries a scalar. *)
Record Response : Type := mkResponse {
  r_err : option string;
  r_bytes : option (list Byte.byte);
  r_scalar : JsValue
}.

(** A call on the promise of a method: [resolve(v)], [reject(e)], or
    the [resolve()] of [clear]. *)
Inductive Call : Type :=
| settle (s : Settle)
| resolve_undefined.

(** The methods whose callback decodes a serialized value. *)
Definition decodes (m : Method) : bool :=
  match m with
  | get_ _ | put_ _ _ _ | putIfAbsent _ _ _ | remove _ | replace _ => true
  | _ => false
  end.

(** The calls that the callback of a method makes on its promise, in
    order, when the service answers with the given response. *)
Definition callback (JSON_parse : list Byte.byte -> option JsValue)
    (m : Method) (response : Response) : list Call :=
  match m with
  | clear =>
      match r_err response with
      | Some e => [settle (reject e)]
      | None => [resolve_undefined]
      end
  | containsEntry _ _ | containsKey _ | containsValue _ _ | isEmpty
  | removeMapping _ _ | replaceMapping _ _ _ | size =>
      match r_err response with
      | Some e => [settle (reject e)]
      | None => [settle (resolve (r_scalar response))]
      end
  | get_ _ | put_ _ _ _ | putIfAbsent _ _ _ | remove _ | replace _ =>
      map settle (value_callback JSON_parse (mkReply (r_err response) (r_bytes response)))
  end.

(** A method called on a client whose service answers each call of a
    cache with a response. *)
Definition invoke (JSON_parse : list Byte.byte -> option JsValue)
    (service : string -> Method -> Response) (cacheName : string) (m : Method)
    : list Call :=
  callback JSON_parse m (service cacheName m).

(** The first call on a promise decides it. *)
Inductive Outcome : Type :=
| StaysPending
| FulfilledWith (v : option JsValue)
| RejectedWith (e : string).

Definition outcome (calls : list Call) : Outcome :=
  match calls with
  | [] => StaysPending
  | settle (resolve v) :: _ => FulfilledWith (Some v)
  | resolve_undefined :: _ => FulfilledWith None
  | settle (reject e) :: _ => RejectedWith e
  end.

End NamedCacheClient.

(** ** Session configuration and sessions (session.ts) *)
Module Session.

(** A request timeout is a JavaScript number: a finite number of
    milliseconds (whole ones here), [Number.POSITIVE_INFINITY],
    [Number.NEGATIVE_INFINITY] or [NaN]. *)
Inductive Timeout : Type :=
| Millis (n : Z)
| POSITIVE_INFINITY
| NEGATIVE_INFINITY
| NaN.

(** [timeout <= 0] on numbers: every comparison with [NaN] is false. *)
Definition le_zero (timeout : Timeout) : bool :=
  match timeout with
  | Millis n => (n <=? 0)%Z
  | POSITIVE_INFINITY => false
  | NEGATIVE_INFINITY => true
  | NaN => false
  end.

(** The function stored in [_callOptions]: the one the constructor
    installs, which reads the timeout of its own [Options], or one set
    by the application. *)
Inductive CallOptionsFn : Type :=
| DeadlineFromTimeout
| Custom (id : nat).

Abbreviation PathLike := string (only parsing).

Record TlsOptions : Type := mkTlsOptions {
  tls_locked : bool;
  _enabled : bool;
  _caCertPath : option PathLike;
  _clientCertPath : option PathLike;
  _clientKeyPath : option PathLike
}.

Record Options : Type := mkOptions {
  _address : string;
  _requestTimeoutInMillis : Timeout;
  _format : string;
  _callOptions : CallOptionsFn;
  locked : bool;
  _tls : TlsOptions
}.

Definition DEFAULT_ADDRESS : string := "localhost:1408".
Definition DEFAULT_REQUEST_TIMEOUT : Z := 60000.
Definition DEFAULT_FORMAT : string := "json".

(** [new TlsOptions()] and [new Options()]. *)
Definition new_TlsOptions : TlsOptions :=
  mkTlsOptions false false None None None.

Definition new_Options : Options :=
  mkOptions DEFAULT_ADDRESS (Millis DEFAULT_REQUEST_TIMEOUT) DEFAULT_FORMAT
    DeadlineFromTimeout false new_TlsOptions.

(** [ADDRESS_REGEXP = RegExp('\\S+:\\d{1,5}$')], searched anywhere in the
    string: some [':'] is preceded by a character that is not white space
    and followed by one to five digits that end the string.  Characters
    are 8-bit code units; the white space of [\s] in that range is
    9 to 13, 32 and 160. *)
Definition is_space (c : ascii) : bool :=
  let n := nat_of_ascii c in
  ((9 <=? n) && (n <=? 13) || (n =? 32) || (n =? 160))%nat.

Definition is_digit (c : ascii) : bool :=
  let n := nat_of_ascii c in ((48 <=? n) && (n <=? 57))%nat.

Fixpoint all_digits (s : string) : bool :=
  match s with
  | EmptyString => true
  | String c rest => is_digit c && all_digits rest
  end.

Definition port_suffix (s : string) : bool :=
  all_digits s && (1 <=? String.length s)%nat && (String.length s <=? 5)%nat.

Fixpoint regexp_scan (prev : option ascii) (s : string) : bool :=
  match s with
  | EmptyString => false
  | String c rest =>
      match prev with
      | Some p => negb (is_space p) && Ascii.eqb c ":" && port_suffix rest
      | None => false
      end
      || regexp_scan (Some c) rest
  end.

Definition ADDRESS_REGEXP_test (address : string) : bool :=
  regexp_scan None address.

(** *** The setters of [Options] and [TlsOptions] *)

Definition set_address (address : string) (this : Options) : Completion Options :=
  if locked this then Normal this
  else if negb (ADDRESS_REGEXP_test address) then
    Throw ("Expected address format is '<hostname>:<port>'.  Configured: " +:+ address)
  else Normal (mkOptions address (_requestTimeoutInMillis this) (_format this)
                 (_callOptions this) (locked this) (_tls this)).

Definition set_requestTimeoutInMillis (timeout : Timeout) (this : Options) : Options :=
  if locked this then this
  else
    let timeout := if le_zero timeout then POSITIVE_INFINITY else timeout in
    mkOptions (_address this) timeout (_format this)
      (_callOptions this) (locked this) (_tls this).

Definition set_callOptions (callOptions : CallOptionsFn) (this : Options) : Options :=
  if locked this then this
  else mkOptions (_address this) (_requestTimeoutInMillis this) (_format this)
         callOptions (locked this) (_tls this).

Definition set_enabled (value : bool) (this : TlsOptions) : TlsOptions :=
  if tls_locked this then this
  else mkTlsOptions (tls_locked this) value (_caCertPath this)
         (_clientCertPath this) (_clientKeyPath this).

Definition set_caCertPath (value : option PathLike) (this : TlsOptions) : TlsOptions :=
  if tls_locked this then this
  else mkTlsOptions (tls_locked this) (_enabled this) value
         (_clientCertPath this) (_clientKeyPath this).

Definition set_clientCertPath (value : option PathLike) (this : TlsOptions) : TlsOptions :=
  if tls_locked this then this
  else mkTlsOptions (tls_locked this) (_enabled this) (_caCertPath this)
         value (_clientKeyPath this).

Definition set_clientKeyPath (value : option PathLike) (this : TlsOptions) : TlsOptions :=
  if tls_locked this then this
  else mkTlsOptions (tls_locked this) (_enabled this) (_caCertPath this)
         (_clientCertPath this) value.

Definition tls_lock (this : TlsOptions) : TlsOptions :=
  mkTlsOptions true (_enabled this) (_caCertPath this)
    (_clientCertPath this) (_clientKeyPath this).

(** [Options.lock()]: sets the flag, then locks the TLS options. *)
Definition lock (this : Options) : Options :=
  mkOptions (_address this) (_requestTimeoutInMillis this) (_format this)
    (_callOptions this) true (tls_lock (_tls this)).

(** A mutation of the [TlsOptions] object reached through
    [options.tls]. *)
Definition with_tls (f : TlsOptions -> TlsOptions) (this : Options) : Options :=
  mkOptions (_address this) (_requestTimeoutInMillis this) (_format this)
    (_callOptions this) (locked this) (f (_tls this)).

(** Every mutation the setters offer. *)
Inductive Mutation : Type :=
| SetAddress (address : string)
| SetRequestTimeoutInMillis (timeout : Timeout)
| SetCallOptions (callOptions : CallOptionsFn)
| SetTlsEnabled (value : bool)
| SetCaCertPath (value : option PathLike)
| SetClientCertPath (value : option PathLike)
| SetClientKeyPath (value : option PathLike).

Definition mutate (m : Mutation) (this : Options) : Completion Options :=
  match m with
  | SetAddress a => set_address a this
  | SetRequestTimeoutInMillis t => Normal (set_requestTimeoutInMillis t this)
  | SetCallOptions c => Normal (set_callOptions c this)
  | SetTlsEnabled v => Normal (with_tls (set_enabled v) this)
  | SetCaCertPath v => Normal (with_tls (set_caCertPath v) this)
  | SetClientCertPath v => Normal (with_tls (set_clientCertPath v) this)
  | SetClientKeyPath v => Normal (with_tls (set_clientKeyPath v) this)
  end.

(** *** The store of [Options] objects

    A session keeps a reference to the [Options] it was given, so the
    objects live in a store.  Address [0] holds the static
    [Session.DEFAULT_OPTIONS]. *)
Abbreviation OptionsRef := nat (only parsing).
Definition DEFAULT_OPTIONS : OptionsRef := 0%nat.

Definition initial_store : gmap nat Options := {[ DEFAULT_OPTIONS := new_Options ]}.

(** A mutation through a reference; a throwing setter leaves the store
    as it was. *)
Definition mutate_at (ref : OptionsRef) (m : Mutation)
    (store : gmap nat Options) : gmap nat Options :=
  match store !! ref with
  | Some o =>
      match mutate m o with
      | Normal o' => <[ref := o']> store
      | Throw _ => store
      end
  | None => store
  end.

(** *** Sessions *)

(** A cache handed out by the session: its identity, its name and the
    format of its serializer. *)
Record NamedCacheClient : Type := mkNamedCacheClient {
  nc_id : nat;
  nc_name : string;
  nc_format : string
}.

#[global] Instance NamedCacheClient_eq_dec : EqDecision NamedCacheClient.
Proof. solve_decision. Defined.

Inductive ChannelCredentials : Type :=
| Insecure
| Ssl (caCert clientKey clientCert : string).

(** Events the session emits, and what else it does that the outside
    can see. *)
Inductive Action : Type :=
| Emit_RELEASED (cacheName format : string)
| Emit_DESTROYED (cacheName : string)
| Emit_CLOSED
| CacheRelease (cache : nat)
| ChannelClose.

#[global] Instance Action_eq_dec : EqDecision Action.
Proof. solve_decision. Defined.

Record Session : Type := mkSession {
  markedForClose : bool;
  _closed : bool;
  caches : JsMap.t string NamedCacheClient;
  _sessionOptions : OptionsRef;
  _channelCredentials : ChannelCredentials;
  channel_target : string;
  sessionClosedPromise : bool;
  next_cache : nat;
  trace : list Action
}.

Definition set_caches (c : JsMap.t string NamedCacheClient) (s : Session) : Session :=
  mkSession (markedForClose s) (_closed s) c (_sessionOptions s)
    (_channelCredentials s) (channel_target s) (sessionClosedPromise s)
    (next_cache s) (trace s).

Definition perform (a : Action) (s : Session) : Session :=
  mkSession (markedForClose s) (_closed s) (caches s) (_sessionOptions s)
    (_channelCredentials s) (channel_target s) (sessionClosedPromise s)
    (next_cache s) (trace s ++ [a]).

(** The listener the constructor installs for [RELEASED], [DESTROYED]
    and [CLOSED]. *)
Definition closed_listener (s : Session) : Session :=
  if markedForClose s && (JsMap.size (caches s) =? 0)%nat then
    mkSession (markedForClose s) true (caches s) (_sessionOptions s)
      (_channelCredentials s) (channel_target s) true
      (next_cache s) (trace s)
  else s.

(** [self.emit(...)]: the emission, then the listener. *)
Definition emit (a : Action) (s : Session) : Session :=
  closed_listener (perform a s).

Section WithEnvironment.
(** The files a path resolves to ([readFileSync]; [None] when it
    throws) and the formats the serializer registry knows. *)
Variable readFileSync : PathLike -> option string.
Variable registered : string -> bool.

Definition readFile (certType : string) (nameOrURL : option PathLike) : Completion string :=
  match nameOrURL with
  | None => Throw ("When TLS is enabled, " +:+ certType +:+ " cannot be undefined or null")
  | Some path =>
      if String.eqb path "" then
        Throw ("When TLS is enabled, " +:+ certType +:+ " cannot be undefined or null")
      else match readFileSync path with
           | Some data => Normal data
           | None => Throw ("ENOENT: " +:+ path)
           end
  end.

(** [new Session(sessionOptions)]. *)
Definition new_Session (sessionOptions : option OptionsRef)
    (store : gmap nat Options) : Completion Session :=
  let ref := default DEFAULT_OPTIONS sessionOptions in
  match store !! ref with
  | None => Throw "no such object"
  | Some options =>
      let credentials :=
        if _enabled (_tls options) then
          match readFile "caCert" (_caCertPath (_tls options)) with
          | Throw e => Throw e
          | Normal ca =>
              match readFile "clientKey" (_clientKeyPath (_tls options)) with
              | Throw e => Throw e
              | Normal key =>
                  match readFile "clientCert" (_clientCertPath (_tls options)) with
                  | Throw e => Throw e
                  | Normal cert => Normal (Ssl ca key cert)
                  end
              end
          end
        else Normal Insecure in
      match credentials with
      | Throw e => Throw e
      | Normal cred =>
          Normal (mkSession false false JsMap.empty ref cred (_address options)
                    false 0 [])
      end
  end.

(** [session.options] and [session.address] read through the
    reference. *)
Definition options (s : Session) (store : gmap nat Options) : option Options :=
  store !! _sessionOptions s.

Definition address (s : Session) (store : gmap nat Options) : option string :=
  _address <$> options s store.

Definition makeCacheKey (cacheName format : string) : string :=
  cacheName +:+ ":" +:+ format.

Definition isKeyForCacheName (key cacheName : string) : bool :=
  String.prefix (cacheName +:+ ":") key.

(** The handlers [setupEventHandlers] attaches to a cache.  The loop of
    the [DESTROYED] handler runs over the keys of the map; a key that is
    gone when its turn comes is skipped. *)
Fixpoint destroyed_loop (cacheName : string) (todo : list string) (s : Session) : Session :=
  match todo with
  | [] => s
  | key :: rest =>
      match JsMap.get key (caches s) with
      | None => destroyed_loop cacheName rest s
      | Some _ =>
          if isKeyForCacheName key cacheName then
            destroyed_loop cacheName rest
              (emit (Emit_DESTROYED cacheName)
                 (set_caches (JsMap.delete key (caches s)) s))
          else destroyed_loop cacheName rest s
      end
  end.

Definition on_cache_DESTROYED (cacheName : string) (s : Session) : Session :=
  destroyed_loop cacheName (JsMap.keys (caches s)) s.

Definition on_cache_RELEASED (cacheName format : string) (s : Session) : Session :=
  emit (Emit_RELEASED cacheName format)
    (set_caches (JsMap.delete (makeCacheKey cacheName format) (caches s)) s).

(** [getCache(name, format)]; the format defaults to
    [DEFAULT_FORMAT]. *)
Definition getCache (name : string) (format : option string) (s : Session)
    : Completion NamedCacheClient * Session :=
  let format := default DEFAULT_FORMAT format in
  if markedForClose s then (Throw "Session is closing", s)
  else if _closed s then (Throw "Session has been closed", s)
  else
    let cacheKey := makeCacheKey name format in
    if negb (registered format) then
      (Throw ("No serializer registered for format: " +:+ format), s)
    else
      match JsMap.get cacheKey (caches s) with
      | Some namedCache => (Normal namedCache, s)
      | None =>
          let namedCache := mkNamedCacheClient (next_cache s) name format in
          (Normal namedCache,
           mkSession (markedForClose s) (_closed s)
             (JsMap.set cacheKey namedCache (caches s)) (_sessionOptions s)
             (_channelCredentials s) (channel_target s) (sessionClosedPromise s)
             (S (next_cache s)) (trace s))
      end.

(** Modelled from the spec: [NamedCacheClient.release] is not among the
    sources; section 4.5 has it sever the event stream and emit
    [released].  The emission reaches the handler that
    [setupEventHandlers] attached. *)
Definition release (cache : NamedCacheClient) (s : Session) : Session :=
  on_cache_RELEASED (nc_name cache) (nc_format cache)
    (perform (CacheRelease (nc_id cache)) s).

(** The loop of [close] over [this.caches.entries()]. *)
Fixpoint release_loop (todo : list string) (s : Session) : Session :=
  match todo with
  | [] => s
  | key :: rest =>
      match JsMap.get key (caches s) with
      | Some cache => release_loop rest (release cache s)
      | None => release_loop rest s
      end
  end.

(** [close()]. *)
Definition close (s : Session) : Session :=
  if markedForClose s then s
  else
    let s := mkSession true (_closed s) (caches s) (_sessionOptions s)
               (_channelCredentials s) (channel_target s)
               (sessionClosedPromise s) (next_cache s) (trace s) in
    let s := release_loop (JsMap.keys (caches s)) s in
    let s := perform ChannelClose s in
    emit Emit_CLOSED s.

Definition closed (s : Session) : bool := _closed s.

End WithEnvironment.

(** Every cache of the registry sits under the key made of its own name
    and format: [getCache] stores it so. *)
Definition caches_keyed (s : Session) : Prop :=
  Forall (fun entry : string * NamedCacheClient =>
            entry.1 = makeCacheKey (nc_name entry.2) (nc_format entry.2))
         (caches s).

(** What releasing one cache of the registry shows. *)
Definition released (entry : string * NamedCacheClient) : list Action :=
  [CacheRelease (nc_id entry.2); Emit_RELEASED (nc_name entry.2) (nc_format entry.2)].

(** An environment without certificate files in which every format has a
    serializer, and a store with one [Options] object of the
    application. *)
Definition no_files (path : PathLike) : option string := None.
Definition every_format (format : string) : bool := true.
Definition application_options : OptionsRef := 1%nat.
Definition application_store : gmap nat Options :=
  <[application_options := new_Options]> initial_store.
(** *** More of the session *)

(** A sequence of mutations; the first setter that throws ends it. *)
Fixpoint mutate_all (ms : list Mutation) (this : Options) : Completion Options :=
  match ms with
  | [] => Normal this
  | m :: rest =>
      match mutate m this with
      | Normal this' => mutate_all rest this'
      | Throw e => Throw e
      end
  end.

(** [activeCacheCount], [activeCaches] and [activeCacheNames]; the names
    are a [Set], kept in the order of first insertion. *)
Definition activeCacheCount (s : Session) : nat := JsMap.size (caches s).

Definition activeCaches (s : Session) : list NamedCacheClient := map snd (caches s).

Definition set_add (names : list string) (name : string) : list string :=
  if bool_decide (name ∈ names) then names else names ++ [name].

Definition activeCacheNames (s : Session) : list string :=
  fold_left set_add (map nc_name (activeCaches s)) [].

(** [getMap(name, format)]. *)
Definition getMap (registered : string -> bool) (name : string)
    (format : option string) (s : Session) : Completion NamedCacheClient * Session :=
  getCache registered name format s.

(** What can happen to a session once it is constructed: the calls of
    the application and the events of its caches. *)
Inductive Step : Type :=
| CallGetCache (name : string) (format : option string)
| CallClose
| CacheDestroyed (cacheName : string)
| CacheReleased (cacheName format : string).

Definition step (registered : string -> bool) (s : Session) (e : Step) : Session :=
  match e with
  | CallGetCache name format => (getCache registered name format s).2
  | CallClose => close s
  | CacheDestroyed cacheName => on_cache_DESTROYED cacheName s
  | CacheReleased cacheName format => on_cache_RELEASED cacheName format s
  end.

Definition steps (registered : string -> bool) (es : list Step) (s : Session) : Session :=
  fold_left (step registered) es s.

(** What every session keeps: the keys of the registry are distinct,
    every cache sits under the key of its own name and format, the
    caches are distinct objects created before the next one, the session
    is closed exactly when it is marked for close, and then its registry
    is empty. *)
Definition invariant (s : Session) : Prop :=
  JsMap.wf (caches s)
  /\ caches_keyed s
  /\ NoDup (map (fun entry : string * NamedCacheClient => nc_id entry.2) (caches s))
  /\ Forall (fun entry : string * NamedCacheClient => (nc_id entry.2 < next_cache s)%nat)
       (caches s)
  /\ _closed s = markedForClose s
  /\ (markedForClose s = true -> caches s = []).

(** A certificate path that is set, not empty, and readable. *)
Definition readable (readFileSync : PathLike -> option string)
    (path : option PathLike) (data : string) : Prop :=
  exists p, path = Some p /\ p <> "" /\ readFileSync p = Some data.

(** A timeout that is a positive number of milliseconds or unbounded;
    [NaN] is neither. *)
Definition unbounded_or_positive (t : Timeout) : Prop :=
  match t with
  | Millis n => (0 < n)%Z
  | POSITIVE_INFINITY => True
  | NEGATIVE_INFINITY => False
  | NaN => False
  end.

(** An environment in which the three certificate files exist. *)
Definition with_certificates (path : PathLike) : option string :=
  if String.eqb path "ca.pem" then Some "CA"
  else if String.eqb path "key.pem" then Some "KEY"
  else if String.eqb path "cert.pem" then Some "CERT"
  else None.

End Session.

(** ** The event dispatcher (map_events_manager.ts) *)
Module Events.
Import Filters.

(** A [MapListener] is known by its identity; so is a [ListenerGroup]
    object, which the indices of the dispatcher share. *)
Abbreviation Listener := nat (only parsing).
Abbreviation GroupRef := nat (only parsing).

(** [JSON.stringify] on keys and on filters, and a key after
    [Serializer.deserialize(Serializer.serialize(key))]. *)
Record Json : Type := mkJson {
  stringify : JsValue -> string;
  stringify_filter : Filter -> string;
  serializeAndDeserialize : JsValue -> JsValue
}.

(** Modelled from the spec: [MapEvent] comes from ./map_event, which is
    not among the sources; section 3 gives an event its kind (inserted,
    updated or deleted), its key, the old and the new value and the
    filter ids it originates from. *)
Inductive EventId : Type :=
| ENTRY_INSERTED
| ENTRY_UPDATED
| ENTRY_DELETED.

Record MapEventResponse : Type := mkMapEventResponse {
  ev_id : EventId;
  ev_key : JsValue;
  ev_oldValue : JsValue;
  ev_newValue : JsValue;
  getFilteridsList : list Z
}.

(** [new MapEvent(cacheName, observableMap, event)]. *)
Record MapEvent : Type := mkMapEvent {
  me_cacheName : string;
  me_event : MapEventResponse
}.

Definition getId (mapEvent : MapEvent) : EventId := ev_id (me_event mapEvent).
Definition getKey (mapEvent : MapEvent) : JsValue := ev_key (me_event mapEvent).

Inductive KeyOrFilter : Type :=
| AKey (key : JsValue)
| AFilter (filter : Filter).

Inductive RequestType : Type :=
| INIT
| KEY (key : JsValue)
| FILTER (filter : Filter).

Record MapListenerRequest : Type := mkRequest {
  getUid : string;
  getType : RequestType;
  getSubscribe : bool;
  getLite : bool;
  getFilterid : Z
}.

Inductive MapListenerResponse : Type :=
| SUBSCRIBED (uid : string)
| UNSUBSCRIBED (uid : string)
| DESTROYED
| TRUNCATED
| EVENT (event : option MapEventResponse)
| RESPONSE_TYPE_NOT_SET.

(** Modelled from the spec: [RequestFactory] is not among the sources;
    section 4.4 gives every subscription request a fresh correlation id
    from a counter of the dispatcher, the target, the subscribe flag and
    the lite flag.  The filter id that [postSubscribe] and
    [postUnsubscribe] read off a request on a filter comes from a second
    counter. *)
Record RequestFactory : Type := mkRequestFactory {
  rf_cacheName : string;
  nextRequestId : nat;
  nextFilterId : Z
}.

Definition generateNextRequestId (rf : RequestFactory) : string :=
  "uid-" +:+ pretty (nextRequestId rf).

Definition mapEventSubscribe (rf : RequestFactory) : MapListenerRequest * RequestFactory :=
  (mkRequest (generateNextRequestId rf) INIT true false 0,
   mkRequestFactory (rf_cacheName rf) (S (nextRequestId rf)) (nextFilterId rf)).

Definition mapListenerRequest (subscribe : bool) (keyOrFilter : KeyOrFilter)
    (isLite : option bool) (rf : RequestFactory) : MapListenerRequest * RequestFactory :=
  let isLite := default false isLite in
  match keyOrFilter with
  | AKey key =>
      (mkRequest (generateNextRequestId rf) (KEY key) subscribe isLite 0,
       mkRequestFactory (rf_cacheName rf) (S (nextRequestId rf)) (nextFilterId rf))
  | AFilter filter =>
      (mkRequest (generateNextRequestId rf) (FILTER filter) subscribe isLite (nextFilterId rf),
       mkRequestFactory (rf_cacheName rf) (S (nextRequestId rf)) (nextFilterId rf + 1))
  end.

(** The callbacks kept in [pendingSubscriptions]: the one [ensureStream]
    registers for a stream, and the one [writeRequest] registers for a
    request. *)
Inductive SubscriptionCallback : Type :=
| InitCallback (stream : nat)
| RequestCallback (request : MapListenerRequest).

(** The promise in [streamPromise]: the stream it resolves to and the
    uid its executor captured. *)
Record StreamPromise : Type := mkStreamPromise {
  sp_stream : nat;
  sp_initUid : string
}.

Inductive ListenerMethod : Type :=
| entryDeleted
| entryInserted
| entryUpdated.

(** What the dispatcher does, in order: the stream operations, the
    updates of the pending map, what it emits on the named cache, the
    listener methods it calls and what it prints. *)
Inductive Action : Type :=
| StreamOpen (stream : nat)
| StreamWrite (stream : nat) (request : MapListenerRequest)
| StreamCancel (stream : nat)
| PendingSet (uid : string)
| PendingDelete (uid : string)
| Emit (event : string) (args : list JsValue)
| Call (listener : Listener) (method : ListenerMethod) (mapEvent : MapEvent)
| Console (message : string).

(** A continuation waiting behind an [await]: the rest of [close]. *)
Inductive Job : Type :=
| CloseResume (awaited : StreamPromise).

Record ListenerGroup : Type := mkGroup {
  isActive : bool;
  keyOrFilter : KeyOrFilter;
  registeredIsLite : bool;
  listeners : JsMap.t Listener bool;
  isLiteFalseCount : Z
}.

(** [new KeyListenerGroup(helper, key)] and
    [new FilterListenerGroup(helper, filter)]. *)
Definition new_ListenerGroup (keyOrFilter : KeyOrFilter) : ListenerGroup :=
  mkGroup true keyOrFilter true JsMap.empty 0.

(** The dispatcher, the [ListenerGroup] objects it refers to, the
    stream promises that are fulfilled, the queued continuations and the
    trace. *)
Record MapEventsManager : Type := mkManager {
  cacheName : string;
  streamPromise : option StreamPromise;
  markedForClose : bool;
  pendingSubscriptions : gmap string SubscriptionCallback;
  keyMap : gmap string GroupRef;
  filterMap : gmap string GroupRef;
  filterId2ListenerGroup : gmap Z GroupRef;
  debugLevel : Z;
  requests : RequestFactory;
  groups : gmap nat ListenerGroup;
  next_group : nat;
  next_stream : nat;
  fulfilled : list nat;
  jobs : list Job;
  trace : list Action
}.

Definition set_streamPromise (v : option StreamPromise) (st : MapEventsManager) : MapEventsManager :=
  mkManager (cacheName st) v (markedForClose st) (pendingSubscriptions st) (keyMap st) (filterMap st) (filterId2ListenerGroup st) (debugLevel st) (requests st) (groups st) (next_group st) (next_stream st) (fulfilled st) (jobs st) (trace st).

Definition set_markedForClose (v : bool) (st : MapEventsManager) : MapEventsManager :=
  mkManager (cacheName st) (streamPromise st) v (pendingSubscriptions st) (keyMap st) (filterMap st) (filterId2ListenerGroup st) (debugLevel st) (requests st) (groups st) (next_group st) (next_stream st) (fulfilled st) (jobs st) (trace st).

Definition set_pendingSubscriptions (v : gmap string SubscriptionCallback) (st : MapEventsManager) : MapEventsManager :=
  mkManager (cacheName st) (streamPromise st) (markedForClose st) v (keyMap st) (filterMap st) (filterId2ListenerGroup st) (debugLevel st) (requests st) (groups st) (next_group st) (next_stream st) (fulfilled st) (jobs st) (trace st).

Definition set_keyMap (v : gmap string GroupRef) (st : MapEventsManager) : MapEventsManager :=
  mkManager (cacheName st) (streamPromise st) (markedForClose st) (pendingSubscriptions st) v (filterMap st) (filterId2ListenerGroup st) (debugLevel st) (requests st) (groups st) (next_group st) (next_stream st) (fulfilled st) (jobs st) (trace st).

Definition set_filterMap (v : gmap string GroupRef) (st : MapEventsManager) : MapEventsManager :=
  mkManager (cacheName st) (streamPromise st) (markedForClose st) (pendingSubscriptions st) (keyMap st) v (filterId2ListenerGroup st) (debugLevel st) (requests st) (groups st) (next_group st) (next_stream st) (fulfilled st) (jobs st) (trace st).

Definition set_filterId2ListenerGroup (v : gmap Z GroupRef) (st : MapEventsManager) : MapEventsManager :=
  mkManager (cacheName st) (streamPromise st) (markedForClose st) (pendingSubscriptions st) (keyMap st) (filterMap st) v (debugLevel st) (requests st) (groups st) (next_group st) (next_stream st) (fulfilled st) (jobs st) (trace st).

Definition set_debugLevel (v : Z) (st : MapEventsManager) : MapEventsManager :=
  mkManager (cacheName st) (streamPromise st) (markedForClose st) (pendingSubscriptions st) (keyMap st) (filterMap st) (filterId2ListenerGroup st) v (requests st) (groups st) (next_group st) (next_stream st) (fulfilled st) (jobs st) (trace st).

Definition set_requests (v : RequestFactory) (st : MapEventsManager) : MapEventsManager :=
  mkManager (cacheName st) (streamPromise st) (markedForClose st) (pendingSubscriptions st) (keyMap st) (filterMap st) (filterId2ListenerGroup st) (debugLevel st) v (groups st) (next_group st) (next_stream st) (fulfilled st) (jobs st) (trace st).

Definition set_groups (v : gmap nat ListenerGroup) (st : MapEventsManager) : MapEventsManager :=
  mkManager (cacheName st) (streamPromise st) (markedForClose st) (pendingSubscriptions st) (keyMap st) (filterMap st) (filterId2ListenerGroup st) (debugLevel st) (requests st) v (next_group st) (next_stream st) (fulfilled st) (jobs st) (trace st).

Definition set_next_group (v : nat) (st : MapEventsManager) : MapEventsManager :=
  mkManager (cacheName st) (streamPromise st) (markedForClose st) (pendingSubscriptions st) (keyMap st) (filterMap st) (filterId2ListenerGroup st) (debugLevel st) (requests st) (groups st) v (next_stream st) (fulfilled st) (jobs st) (trace st).

Definition set_next_stream (v : nat) (st : MapEventsManager) : MapEventsManager :=
  mkManager (cacheName st) (streamPromise st) (markedForClose st) (pendingSubscriptions st) (keyMap st) (filterMap st) (filterId2ListenerGroup st) (debugLevel st) (requests st) (groups st) (next_group st) v (fulfilled st) (jobs st) (trace st).

Definition set_fulfilled (v : list nat) (st : MapEventsManager) : MapEventsManager :=
  mkManager (cacheName st) (streamPromise st) (markedForClose st) (pendingSubscriptions st) (keyMap st) (filterMap st) (filterId2ListenerGroup st) (debugLevel st) (requests st) (groups st) (next_group st) (next_stream st) v (jobs st) (trace st).

Definition set_jobs (v : list Job) (st : MapEventsManager) : MapEventsManager :=
  mkManager (cacheName st) (streamPromise st) (markedForClose st) (pendingSubscriptions st) (keyMap st) (filterMap st) (filterId2ListenerGroup st) (debugLevel st) (requests st) (groups st) (next_group st) (next_stream st) (fulfilled st) v (trace st).

Definition set_trace (v : list Action) (st : MapEventsManager) : MapEventsManager :=
  mkManager (cacheName st) (streamPromise st) (markedForClose st) (pendingSubscriptions st) (keyMap st) (filterMap st) (filterId2ListenerGroup st) (debugLevel st) (requests st) (groups st) (next_group st) (next_stream st) (fulfilled st) (jobs st) v.

(** [new MapEventsManager(cacheName, client, namedCache)]. *)
Definition new_MapEventsManager (cacheName : string) : MapEventsManager :=
  mkManager cacheName None false ∅ ∅ ∅ ∅ 0
    (mkRequestFactory cacheName 0 0) ∅ 0 0 [] [] [].

Definition perform (a : Action) (st : MapEventsManager) : MapEventsManager :=
  set_trace (trace st ++ [a]) st.

(** [pendingSubscriptions.set] and [pendingSubscriptions.delete]. *)
Definition pending_set (uid : string) (callback : SubscriptionCallback)
    (st : MapEventsManager) : MapEventsManager :=
  perform (PendingSet uid)
    (set_pendingSubscriptions (<[uid := callback]> (pendingSubscriptions st)) st).

Definition pending_delete (uid : string) (st : MapEventsManager) : MapEventsManager :=
  perform (PendingDelete uid)
    (set_pendingSubscriptions (delete uid (pendingSubscriptions st)) st).

(** [this.namedCache.emit(event, ...args)]. *)
Definition emit (event : string) (args : list JsValue)
    (st : MapEventsManager) : MapEventsManager :=
  perform (Emit event args) st.

Definition setMapEventsDebugLevel (level : Z) (st : MapEventsManager) : MapEventsManager :=
  set_debugLevel level st.

(** [ensureStream()]: the promise it returns and the state it leaves. *)
Definition ensureStream (st : MapEventsManager) : StreamPromise * MapEventsManager :=
  match streamPromise st with
  | Some promise => (promise, st)
  | None =>
      let bidiStream := next_stream st in
      let st := perform (StreamOpen bidiStream) (set_next_stream (S bidiStream) st) in
      let '(request, factory) := mapEventSubscribe (requests st) in
      let st := set_requests factory st in
      let initUid := getUid request in
      let st := pending_set initUid (InitCallback bidiStream) st in
      let st := perform (StreamWrite bidiStream request) st in
      let promise := mkStreamPromise bidiStream initUid in
      (promise, set_streamPromise (Some promise) st)
  end.

Definition onError (err : string) (st : MapEventsManager) : MapEventsManager :=
  if markedForClose st then
    emit "closed" [JStr (cacheName st); JBool true] (set_markedForClose false st)
  else emit "error" [JStr (cacheName st); JStr err] st.

Definition onEnd (st : MapEventsManager) : MapEventsManager :=
  emit "closed" [JStr (cacheName st)] st.

Definition onCancel (st : MapEventsManager) : MapEventsManager :=
  if markedForClose st then
    emit "closed" [JStr (cacheName st); JBool true] (set_markedForClose false st)
  else emit "cancel" [JStr "** Received onCancel"] st.

(** A pending callback called as [callback(uid, resp)], that is without
    an error: it removes its entry and resolves its promise. *)
Definition run_callback (callback : SubscriptionCallback) (uid : string)
    (st : MapEventsManager) : MapEventsManager :=
  match callback with
  | InitCallback bidiStream =>
      let st := pending_delete uid st in
      set_fulfilled (bidiStream :: fulfilled st) st
  | RequestCallback request =>
      let st := pending_delete uid st in
      if (1 <? debugLevel st)%Z then
        perform (Console ("Received response for request: " +:+ getUid request)) st
      else st
  end.

(** [ListenerGroup.notifyListeners(mapEvent)]: the body of the loop, with
    the three cases of its [switch], and the loop over
    [this.listeners.keys()].  A listener method is code of the
    application; the call is recorded. *)
Definition notify_one (mapEvent : MapEvent) (st : MapEventsManager)
    (listener : Listener) : MapEventsManager :=
  match getId mapEvent with
  | ENTRY_DELETED => perform (Call listener entryDeleted mapEvent) st
  | ENTRY_INSERTED => perform (Call listener entryInserted mapEvent) st
  | ENTRY_UPDATED => perform (Call listener entryUpdated mapEvent) st
  end.

Definition notifyListeners (this : GroupRef) (mapEvent : MapEvent)
    (st : MapEventsManager) : MapEventsManager :=
  match groups st !! this with
  | Some group => fold_left (notify_one mapEvent) (JsMap.keys (listeners group)) st
  | None => st
  end.

Section WithJson.
Variable json : Json.

(** [handleResponse(resp)]. *)
Definition handleResponse (resp : MapListenerResponse)
    (st : MapEventsManager) : MapEventsManager :=
  match resp with
  | SUBSCRIBED uid | UNSUBSCRIBED uid =>
      if String.eqb uid "" then st
      else
        let callback := pendingSubscriptions st !! uid in
        let st := pending_delete uid st in
        match callback with
        | Some callback => run_callback callback uid st
        | None => st
        end
  | DESTROYED => emit "destroyed" [JStr (cacheName st)] st
  | TRUNCATED => emit "truncated" [JStr (cacheName st)] st
  | EVENT (Some event) =>
      let mapEvent := mkMapEvent (cacheName st) event in
      let st := if (0 <? debugLevel st)%Z then perform (Console "MapEvent") st else st in
      let st :=
        fold_left
          (fun st id =>
             match filterId2ListenerGroup st !! id with
             | Some group => notifyListeners group mapEvent st
             | None => st
             end)
          (getFilteridsList event) st in
      let stringifiedKey := stringify json (getKey mapEvent) in
      match keyMap st !! stringifiedKey with
      | Some keyGroup => notifyListeners keyGroup mapEvent st
      | None => st
      end
  | EVENT None => st
  | RESPONSE_TYPE_NOT_SET => st
  end.

(** *** Awaiting

    An [await] lets the continuations that are already queued run
    first; a promise that waits for the server is then settled by the
    acknowledgement of the request, delivered through
    [handleResponse]. *)
Definition acknowledgement (request : MapListenerRequest) : MapListenerResponse :=
  if getSubscribe request then SUBSCRIBED (getUid request)
  else UNSUBSCRIBED (getUid request).

Definition stream_settled (promise : StreamPromise) (st : MapEventsManager) : MapEventsManager :=
  if bool_decide (sp_stream promise ∈ fulfilled st) then st
  else handleResponse (SUBSCRIBED (sp_initUid promise)) st.

(** The rest of [close()] behind [await this.streamPromise]. *)
Definition run_job (st : MapEventsManager) (job : Job) : MapEventsManager :=
  match job with
  | CloseResume promise =>
      let st := stream_settled promise st in
      let st := perform (StreamCancel (sp_stream promise)) st in
      set_streamPromise None st
  end.

Definition drain (st : MapEventsManager) : MapEventsManager :=
  fold_left run_job (jobs st) (set_jobs [] st).

(** The callback [writeRequest] passes to [then]: it registers the
    pending callback and writes the request to the stream the promise
    resolved to. *)
Definition send (stream : nat) (request : MapListenerRequest)
    (st : MapEventsManager) : MapEventsManager :=
  let st := pending_set (getUid request) (RequestCallback request) st in
  let st :=
    if (1 <? debugLevel st)%Z then
      perform (Console ("Sending request: " +:+ getUid request)) st
    else st in
  perform (StreamWrite stream request) st.

(** [writeRequest(request)], awaited. *)
Definition writeRequest (request : MapListenerRequest)
    (st : MapEventsManager) : MapEventsManager :=
  let '(promise, st) := ensureStream st in
  let st := stream_settled promise (drain st) in
  let st := send (sp_stream promise) request st in
  handleResponse (acknowledgement request) (drain st).

(** [close()], up to its [await]. *)
Definition close (st : MapEventsManager) : MapEventsManager :=
  match streamPromise st with
  | Some promise =>
      let st := set_markedForClose true st in
      set_jobs (jobs st ++ [CloseResume promise]) st
  | None => set_streamPromise None st
  end.

Definition checkAndCloseEventStream (st : MapEventsManager) : MapEventsManager :=
  if (size (filterMap st) =? 0)%nat && (size (keyMap st) =? 0)%nat then close st
  else st.

Definition keyGroupUnsubscribed (key : JsValue) (st : MapEventsManager) : MapEventsManager :=
  checkAndCloseEventStream
    (set_keyMap (delete (stringify json key) (keyMap st)) st).

Definition filterGroupSubscribed (filterId : Z) (group : GroupRef)
    (st : MapEventsManager) : MapEventsManager :=
  set_filterId2ListenerGroup (<[filterId := group]> (filterId2ListenerGroup st)) st.

Definition filterGroupUnsubscribed (filterId : Z) (filter : Filter)
    (st : MapEventsManager) : MapEventsManager :=
  let st := set_filterId2ListenerGroup (delete filterId (filterId2ListenerGroup st)) st in
  let st := set_filterMap (delete (stringify_filter json filter) (filterMap st)) st in
  checkAndCloseEventStream st.

(** *** ListenerGroup *)

(** [postSubscribe] and [postUnsubscribe] of [KeyListenerGroup] and
    [FilterListenerGroup]. *)
Definition postSubscribe (this : GroupRef) (group : ListenerGroup)
    (request : MapListenerRequest) (st : MapEventsManager) : MapEventsManager :=
  match keyOrFilter group with
  | AKey _ => st
  | AFilter _ => filterGroupSubscribed (getFilterid request) this st
  end.

Definition postUnsubscribe (this : GroupRef) (group : ListenerGroup)
    (request : MapListenerRequest) (st : MapEventsManager) : MapEventsManager :=
  match keyOrFilter group with
  | AKey _ =>
      match getType request with
      | KEY key => keyGroupUnsubscribed (serializeAndDeserialize json key) st
      | _ => st
      end
  | AFilter filter => filterGroupUnsubscribed (getFilterid request) filter st
  end.

Definition doSubscribe (isLite : bool) (this : GroupRef)
    (st : MapEventsManager) : MapEventsManager :=
  match groups st !! this with
  | None => st
  | Some group =>
      let '(request, factory) :=
        mapListenerRequest true (keyOrFilter group) (Some isLite) (requests st) in
      let st := set_requests factory st in
      let st := writeRequest request st in
      postSubscribe this group request st
  end.

Definition doUnsubscribe (closeStreamIfPossible : bool) (this : GroupRef)
    (st : MapEventsManager) : MapEventsManager :=
  match groups st !! this with
  | None => st
  | Some group =>
      let '(request, factory) :=
        mapListenerRequest false (keyOrFilter group) None (requests st) in
      let st := set_requests factory st in
      let st := writeRequest request st in
      let st := postUnsubscribe this group request st in
      if closeStreamIfPossible then checkAndCloseEventStream st else st
  end.

(** [addListener(listener, isLite)]. *)
Definition addListener (listener : Listener) (isLite : bool) (this : GroupRef)
    (st : MapEventsManager) : MapEventsManager :=
  match groups st !! this with
  | None => st
  | Some group =>
      let prevStatus := JsMap.get listener (listeners group) in
      if match prevStatus with
         | Some prevIsLite => Bool.eqb prevIsLite isLite
         | None => false
         end
      then st
      else
        let group :=
          mkGroup (isActive group) (keyOrFilter group) (registeredIsLite group)
            (JsMap.set listener isLite (listeners group))
            (if isLite then isLiteFalseCount group else (isLiteFalseCount group + 1)%Z) in
        let requireRegistrationRequest :=
          (JsMap.size (listeners group) =? 1)%nat
          || registeredIsLite group && negb isLite in
        if requireRegistrationRequest then
          let group :=
            mkGroup (isActive group) (keyOrFilter group) isLite
              (listeners group) (isLiteFalseCount group) in
          let st := set_groups (<[this := group]> (groups st)) st in
          let st :=
            if (1 <? JsMap.size (listeners group))%nat
            then drain (doUnsubscribe false this st)
            else st in
          drain (doSubscribe isLite this st)
        else set_groups (<[this := group]> (groups st)) st
  end.

(** [removeListener(listener)]. *)
Definition removeListener (listener : Listener) (this : GroupRef)
    (st : MapEventsManager) : MapEventsManager :=
  match groups st !! this with
  | None => st
  | Some group =>
      match JsMap.get listener (listeners group) with
      | None => st
      | Some prevIsLite =>
          if (JsMap.size (listeners group) =? 0)%nat then st
          else
            let group :=
              mkGroup (isActive group) (keyOrFilter group) (registeredIsLite group)
                (JsMap.delete listener (listeners group)) (isLiteFalseCount group) in
            let st := set_groups (<[this := group]> (groups st)) st in
            if (JsMap.size (listeners group) =? 0)%nat then
              drain (doUnsubscribe true this st)
            else if negb prevIsLite then
              let group :=
                mkGroup (isActive group) (keyOrFilter group) (registeredIsLite group)
                  (listeners group) (isLiteFalseCount group - 1)%Z in
              let st := set_groups (<[this := group]> (groups st)) st in
              if (isLiteFalseCount group =? 0)%Z then
                let st := drain (doUnsubscribe false this st) in
                drain (doSubscribe true this st)
              else st
            else st
      end
  end.

(** *** Registration *)

(** [new KeyListenerGroup(this, key)] or
    [new FilterListenerGroup(this, filter)]: a fresh object. *)
Definition new_group (keyOrFilter : KeyOrFilter) (st : MapEventsManager)
    : GroupRef * MapEventsManager :=
  let ref := next_group st in
  (ref, set_next_group (S ref)
          (set_groups (<[ref := new_ListenerGroup keyOrFilter]> (groups st)) st)).

Definition registerKeyListener (listener : Listener) (key : JsValue)
    (isLite : option bool) (st : MapEventsManager) : MapEventsManager :=
  let isLite := default false isLite in
  let stringifiedKey := stringify json key in
  let '(group, st) :=
    match keyMap st !! stringifiedKey with
    | Some group => (group, st)
    | None =>
        let '(group, st) := new_group (AKey key) st in
        (group, set_keyMap (<[stringifiedKey := group]> (keyMap st)) st)
    end in
  addListener listener isLite group st.

Definition removeKeyListener (listener : Listener) (key : JsValue)
    (st : MapEventsManager) : MapEventsManager :=
  let stringifiedKey := stringify json key in
  match keyMap st !! stringifiedKey with
  | Some group => removeListener listener group st
  | None => st
  end.

(** [MapEventsManager.DEFAULT_FILTER]. *)
Definition DEFAULT_FILTER : Filter := MapEventFilter (inr Filters.always) None.

Definition registerFilterListener (listener : Listener) (mapFilter : option Filter)
    (isLite : option bool) (st : MapEventsManager) : MapEventsManager :=
  let isLite := default false isLite in
  let filter := match mapFilter with None => DEFAULT_FILTER | Some f => f end in
  let stringifiedFilter := stringify_filter json filter in
  let '(group, st) :=
    match filterMap st !! stringifiedFilter with
    | Some group => (group, st)
    | None =>
        let '(group, st) := new_group (AFilter filter) st in
        (group, set_filterMap (<[stringifiedFilter := group]> (filterMap st)) st)
    end in
  addListener listener isLite group st.

Definition removeFilterListener (listener : Listener) (mapFilter : option Filter)
    (st : MapEventsManager) : MapEventsManager :=
  let filter := match mapFilter with None => DEFAULT_FILTER | Some f => f end in
  let stringifiedFilter := stringify_filter json filter in
  match filterMap st !! stringifiedFilter with
  | None => st
  | Some group => removeListener listener group st
  end.

(** *** Reading the trace *)

(** The listener method that [notifyListeners] picks for an event. *)
Definition callback_for (id : EventId) : ListenerMethod :=
  match id with
  | ENTRY_DELETED => entryDeleted
  | ENTRY_INSERTED => entryInserted
  | ENTRY_UPDATED => entryUpdated
  end.

(** One call per listener of the group, in the insertion order of its
    listeners. *)
Definition deliveries (mapEvent : MapEvent) (group : ListenerGroup) : list Action :=
  map (fun listener => Call listener (callback_for (getId mapEvent)) mapEvent)
      (JsMap.keys (listeners group)).

(** The groups an event reaches: one for each of its filter ids that
    the filter-id index maps, in the order of the ids, and the group of
    its key. *)
Definition filter_groups (st : MapEventsManager) (event : MapEventResponse)
    : list ListenerGroup :=
  omap (fun id => filterId2ListenerGroup st !! id ≫= fun ref => groups st !! ref)
       (getFilteridsList event).

Definition key_group (st : MapEventsManager) (event : MapEventResponse)
    : option ListenerGroup :=
  keyMap st !! stringify json (ev_key event) ≫= fun ref => groups st !! ref.

Definition reached_groups (st : MapEventsManager) (event : MapEventResponse)
    : list ListenerGroup :=
  filter_groups st event ++ option_list (key_group st event).

(** The same by reference: the groups that the filter-id index gives
    for the filter ids of an event, one for each mapped id and in their
    order, and the group that the key index gives for its key.  A group
    that is reached through two ids is listed twice. *)
Definition reached_refs (st : MapEventsManager) (event : MapEventResponse)
    : list GroupRef :=
  omap (fun id => filterId2ListenerGroup st !! id) (getFilteridsList event)
  ++ option_list (keyMap st !! stringify json (ev_key event)).

(** The group behind a reference holds the listener. *)
Definition holds (st : MapEventsManager) (listener : Listener) (ref : GroupRef) : bool :=
  match groups st !! ref with
  | Some group => bool_decide (listener ∈ JsMap.keys (listeners group))
  | None => false
  end.

(** How often a listener is called in a run of actions. *)
Definition calls_to (listener : Listener) (actions : list Action) : nat :=
  length (List.filter (fun a => match a with
                           | Call l _ _ => bool_decide (l = listener)
                           | _ => false
                           end) actions).

Definition called (actions : list Action) : list Listener :=
  omap (fun a => match a with Call l _ _ => Some l | _ => None end) actions.

Definition member (listener : Listener) (group : ListenerGroup) : bool :=
  bool_decide (listener ∈ JsMap.keys (listeners group)).

(** The requests written to a stream, in order, and those among them
    that a listener group issued. *)
Fixpoint writes (actions : list Action) : list MapListenerRequest :=
  match actions with
  | [] => []
  | StreamWrite _ request :: rest => request :: writes rest
  | _ :: rest => writes rest
  end.

Definition is_INIT (request : MapListenerRequest) : bool :=
  match getType request with INIT => true | _ => false end.

Definition group_requests (actions : list Action) : list MapListenerRequest :=
  List.filter (fun request => negb (is_INIT request)) (writes actions).

Definition target (request : MapListenerRequest) : option KeyOrFilter :=
  match getType request with
  | INIT => None
  | KEY key => Some (AKey key)
  | FILTER filter => Some (AFilter filter)
  end.

(** The uids that have a pending callback after a run of actions that
    starts with the given ones pending. *)
Fixpoint pending_after (pending : list string) (actions : list Action) : list string :=
  match actions with
  | [] => pending
  | PendingSet uid :: rest => pending_after (uid :: pending) rest
  | PendingDelete uid :: rest =>
      pending_after (List.filter (fun u => negb (String.eqb u uid)) pending) rest
  | _ :: rest => pending_after pending rest
  end.


(** The same, as a check that replays the actions. *)
Fixpoint sends_ok (pending : list string) (actions : list Action) : bool :=
  match actions with
  | [] => true
  | StreamWrite _ request :: rest =>
      existsb (String.eqb (getUid request)) pending && sends_ok pending rest
  | a :: rest => sends_ok (pending_after pending [a]) rest
  end.

(** The actions a call adds to the trace. *)
Definition added (st st' : MapEventsManager) (actions : list Action) : Prop :=
  trace st' = trace st ++ actions.

(** A call that leaves the [ListenerGroup] objects as they are, writes
    the given requests and sends each of them after its callback is
    pending. *)
Definition run (st st' : MapEventsManager) (requests : list MapListenerRequest) : Prop :=
  groups st' = groups st
  /\ exists actions,
       added st st' actions
       /\ writes actions = requests
       /\ forall pending, sends_ok pending actions = true.

(** A call that issues exactly one request of the group, of the given
    kind. *)
Definition issues (st st' : MapEventsManager) (group : ListenerGroup)
    (subscribe isLite : bool) : Prop :=
  groups st' = groups st
  /\ exists actions request,
       added st st' actions
       /\ group_requests actions = [request]
       /\ getSubscribe request = subscribe
       /\ getLite request = isLite
       /\ target request = Some (keyOrFilter group).

(** *** More on states and traces *)

(** The operations on streams in a run of actions, and the streams
    that are cancelled in it. *)
Definition stream_ops (actions : list Action) : list Action :=
  List.filter (fun a => match a with
                        | StreamOpen _ | StreamWrite _ _ | StreamCancel _ => true
                        | _ => false
                        end) actions.

Definition cancels (actions : list Action) : list nat :=
  omap (fun a => match a with StreamCancel s => Some s | _ => None end) actions.

(** The three indices of the dispatcher, and the objects they refer
    to. *)
Definition indices (st : MapEventsManager)
    : gmap string nat * gmap string nat * gmap Z nat :=
  (keyMap st, filterMap st, filterId2ListenerGroup st).

(** Two states that differ at most in the pending callbacks, the stream
    promises that are fulfilled and the trace. *)
Definition settles (st st' : MapEventsManager) : Prop :=
  st' = set_trace (trace st')
          (set_fulfilled (fulfilled st')
             (set_pendingSubscriptions (pendingSubscriptions st') st)).

(** The same, with the stream operations of the actions in between. *)
Definition settles_with (st st' : MapEventsManager) (ops : list Action) : Prop :=
  settles st st'
  /\ exists actions, added st st' actions /\ stream_ops actions = ops.

(** Several requests, each awaited before the next. *)
Definition writeRequests (requests : list MapListenerRequest)
    (st : MapEventsManager) : MapEventsManager :=
  fold_left (fun st request => writeRequest request st) requests st.

(** *** The operations of a dispatcher

    What can happen to a dispatcher: the calls of the named cache that
    owns it, each run to completion, and what its stream reports. *)
Inductive Operation : Type :=
| RegisterKeyListener (listener : Listener) (key : JsValue) (isLite : option bool)
| RemoveKeyListener (listener : Listener) (key : JsValue)
| RegisterFilterListener (listener : Listener) (mapFilter : option Filter)
    (isLite : option bool)
| RemoveFilterListener (listener : Listener) (mapFilter : option Filter)
| StreamData (resp : MapListenerResponse)
| StreamError (err : string)
| StreamEnd
| StreamCancelled
| SetMapEventsDebugLevel (level : Z).

Definition operate (st : MapEventsManager) (op : Operation) : MapEventsManager :=
  match op with
  | RegisterKeyListener listener key isLite => registerKeyListener listener key isLite st
  | RemoveKeyListener listener key => removeKeyListener listener key st
  | RegisterFilterListener listener mapFilter isLite =>
      registerFilterListener listener mapFilter isLite st
  | RemoveFilterListener listener mapFilter => removeFilterListener listener mapFilter st
  | StreamData resp => handleResponse resp st
  | StreamError err => onError err st
  | StreamEnd => onEnd st
  | StreamCancelled => onCancel st
  | SetMapEventsDebugLevel level => setMapEventsDebugLevel level st
  end.

Definition operations (ops : list Operation) (st : MapEventsManager) : MapEventsManager :=
  fold_left operate ops st.

(** The operations other than a change of the debug level, the actions
    other than printing, and a dispatcher with the debug level at zero
    and nothing printed. *)
Definition without_levels (ops : list Operation) : list Operation :=
  List.filter (fun op => match op with SetMapEventsDebugLevel _ => false | _ => true end)
    ops.

Definition unprinted (actions : list Action) : list Action :=
  List.filter (fun a => match a with Console _ => false | _ => true end) actions.

Definition silent (st : MapEventsManager) : MapEventsManager :=
  set_debugLevel 0 (set_trace (unprinted (trace st)) st).

(** *** Who is called

    The listeners that a sequence of operations registers, what a
    dispatcher can call and has called, and a dispatcher whose groups
    hold, and whose trace calls, none but the given listeners. *)
Definition registered_by (ops : list Operation) : list Listener :=
  omap (fun op => match op with
                  | RegisterKeyListener listener _ _
                  | RegisterFilterListener listener _ _ => Some listener
                  | _ => None
                  end) ops.

Definition audience (st : MapEventsManager) : gmap nat ListenerGroup * list Listener :=
  (groups st, called (trace st)).

Definition only_known (known : list Listener) (st : MapEventsManager) : Prop :=
  map_Forall (fun _ group => Forall (fun l => l ∈ known) (JsMap.keys (listeners group)))
    (groups st)
  /\ Forall (fun l => l ∈ known) (called (trace st)).

(** *** The protocol on streams

    The events by which [onEnd], [onError] and [onCancel] pass on what
    the stream reports: ['closed'], ['error'] and ['cancel'].  After
    any of them the stream is gone. *)
Definition passes_report (event : string) : bool :=
  String.eqb event "closed" || String.eqb event "error" || String.eqb event "cancel".

Definition reports (actions : list Action) : list Action :=
  List.filter (fun a => match a with
                        | Emit event _ => passes_report event
                        | _ => false
                        end) actions.

(** Replaying the stream operations and the stream reports of a run of
    actions, from the stream that is open and the streams that are gone
    (cancelled, ended or failed) to what they are after the run; [None]
    when an operation is out of place: a stream is opened only when
    none is open, and it is a new one; a request is written only to the
    open stream; the open stream can be cancelled, and a stream that is
    gone can be cancelled again.  A report is taken to be about the
    open stream, which is gone from then on. *)
Fixpoint replay (live : option nat) (cancelled : list nat) (actions : list Action)
    : option (option nat * list nat) :=
  match actions with
  | [] => Some (live, cancelled)
  | StreamOpen s :: rest =>
      match live with
      | None =>
          if bool_decide (s ∈ cancelled) then None else replay (Some s) cancelled rest
      | Some _ => None
      end
  | StreamWrite s _ :: rest =>
      if bool_decide (live = Some s) then replay live cancelled rest else None
  | StreamCancel s :: rest =>
      if bool_decide (live = Some s) then replay None (s :: cancelled) rest
      else if bool_decide (s ∈ cancelled) then replay live cancelled rest
      else None
  | Emit event _ :: rest =>
      if passes_report event then replay None (option_list live ++ cancelled) rest
      else replay live cancelled rest
  | _ :: rest => replay live cancelled rest
  end.

(** The stream a dispatcher holds. *)
Definition held (st : MapEventsManager) : option nat :=
  sp_stream <$> streamPromise st.

(** What the operations keep: no continuation of [close] is left
    behind, the trace replays, the stream that it leaves open is the one
    the dispatcher holds, and the streams that it mentions were created
    before the next one. *)
Definition follows_protocol (st : MapEventsManager) : Prop :=
  jobs st = []
  /\ exists cancelled,
       replay None [] (trace st) = Some (held st, cancelled)
       /\ Forall (fun s => (s < next_stream st)%nat) (option_list (held st) ++ cancelled).

(** The operations by which the stream reports its end, an error or
    its cancellation, and a sequence of operations in which the stream
    does so only while the dispatcher holds none. *)
Definition is_report (op : Operation) : bool :=
  match op with
  | StreamError _ | StreamEnd | StreamCancelled => true
  | _ => false
  end.

Fixpoint calm (st : MapEventsManager) (ops : list Operation) : bool :=
  match ops with
  | [] => true
  | op :: rest =>
      (if is_report op then bool_decide (held st = None) else true)
      && calm (operate st op) rest
  end.

End WithJson.

(** A codec for the examples: strings stringify to themselves, numbers
    to their digits, filters to their tag. *)
Definition example_json : Json :=
  mkJson (fun v => match v with
                   | JStr s => s
                   | JNum n => pretty n
                   | _ => "?"
                   end)
         (fun f => at_class f)
         (fun key => key).

(** A dispatcher with a listener on the key ["a"] and a listener on the
    default filter, whose subscription carries the filter id [0], and an
    insert event for that key and filter id. *)
Definition listening : MapEventsManager :=
  registerFilterListener example_json 2 None (Some false)
    (registerKeyListener example_json 1 (JStr "a") (Some false)
       (new_MapEventsManager "orders")).

Definition inserted_a : MapEventResponse :=
  mkMapEventResponse ENTRY_INSERTED (JStr "a") JNull (JStr "1") [0%Z].

(** A dispatcher with one lite listener on the key ["k"]. *)
Definition lite_key_group : MapEventsManager :=
  registerKeyListener example_json 1 (JStr "k") (Some true)
    (new_MapEventsManager "orders").

(** A dispatcher with a listener on the key ["z"], then three
    registrations with a null filter: a lite one and two that are not
    lite. *)
Definition null_registrations : MapEventsManager :=
  registerFilterListener example_json 3 None (Some false)
    (registerFilterListener example_json 2 None (Some false)
       (registerFilterListener example_json 1 None (Some true)
          (registerKeyListener example_json 9 (JStr "z") (Some true)
             (new_MapEventsManager "orders")))).

(** The requests among the given ones that are for the default
    filter. *)
Definition for_default_filter (requests : list MapListenerRequest)
    : list MapListenerRequest :=
  List.filter
    (fun r => match getType r with
              | FILTER f => bool_decide (stringify_filter example_json f
                                         = stringify_filter example_json DEFAULT_FILTER)
              | _ => false
              end) requests.

(** A dispatcher that has opened its stream and still waits for the
    acknowledgement of the INIT request. *)
Definition awaiting_init : MapEventsManager :=
  (ensureStream (new_MapEventsManager "orders")).2.

(** A dispatcher with a listener that is not lite and then a lite one
    on the key ["k"], and one with a lite listener on each of the keys
    ["k"] and ["j"]. *)
Definition mixed_key_group : MapEventsManager :=
  registerKeyListener example_json 2 (JStr "k") (Some true)
    (registerKeyListener example_json 1 (JStr "k") (Some false)
       (new_MapEventsManager "orders")).

Definition two_key_groups : MapEventsManager :=
  registerKeyListener example_json 2 (JStr "j") (Some true) lite_key_group.

(** A dispatcher with one lite listener on the default filter. *)
Definition lite_filter_group : MapEventsManager :=
  registerFilterListener example_json 1 None (Some true)
    (new_MapEventsManager "orders").

(** The same after a second listener, not lite, has joined, and with a
    listener on the key ["b"]: the filter group was registered again,
    and the filter-id index maps the id of its first subscription and
    the id of its second to it.  An insert event for the key ["b"]
    that carries both ids, and one for the key ["a"] of [listening]
    that carries the filter id [0] twice. *)
Definition upgraded_filter_group : MapEventsManager :=
  registerKeyListener example_json 3 (JStr "b") (Some false)
    (registerFilterListener example_json 2 None (Some false) lite_filter_group).

Definition inserted_both_ids : MapEventResponse :=
  mkMapEventResponse ENTRY_INSERTED (JStr "b") JNull (JStr "1") [0%Z; 2%Z].

Definition inserted_same_id_twice : MapEventResponse :=
  mkMapEventResponse ENTRY_INSERTED (JStr "a") JNull (JStr "1") [0%Z; 0%Z].

(** The groups of a dispatcher that hold a listener. *)
Definition groups_of (listener : Listener) (st : MapEventsManager) : list GroupRef :=
  omap (fun entry : nat * ListenerGroup =>
          if bool_decide (listener ∈ JsMap.keys (listeners entry.2))
          then Some entry.1 else None)
       (map_to_list (groups st)).

(** A key group whose first listener was registered not lite and then
    again lite, and whose second listener is not lite: one listener
    with [isLite = false] and a counter of two. *)
Definition drifted_key_group : MapEventsManager :=
  registerKeyListener example_json 1 (JStr "k") (Some true)
    (registerKeyListener example_json 2 (JStr "k") (Some false)
       (registerKeyListener example_json 1 (JStr "k") (Some false)
          (new_MapEventsManager "orders"))).

End Events.

(** * Properties *)

(** ** Insertion-ordered maps *)
Section JsMapFacts.
Context {K V : Type} `{EqDecision K}.
Implicit Types (m : JsMap.t K V) (k : K) (v : V).

Lemma JsMap_get_None_keys k m : JsMap.get k m = None <-> k ∉ JsMap.keys m.
Proof.
  induction m as [|[k' v'] m IH]; simpl.
  - split; [intros _; apply not_elem_of_nil | done].
  - rewrite not_elem_of_cons. destruct (decide (k' = k)) as [->|Hne].
    + split; [done | tauto].
    + rewrite IH. split; [intros; split; congruence | tauto].
Qed.

Lemma JsMap_get_Some_keys k v m : JsMap.get k m = Some v -> k ∈ JsMap.keys m.
Proof.
  intros Hget. destruct (decide (k ∈ JsMap.keys m)) as [|Hn]; [done|].
  apply JsMap_get_None_keys in Hn. congruence.
Qed.

Lemma JsMap_keys_set_in k v m :
  k ∈ JsMap.keys m -> JsMap.keys (JsMap.set k v m) = JsMap.keys m.
Proof.
  induction m as [|[k' v'] m IH]; simpl.
  - intros Hin. by apply elem_of_nil in Hin.
  - intros Hin. destruct (decide (k' = k)) as [->|Hne]; simpl; [done|].
    f_equal. apply IH. apply elem_of_cons in Hin as [->|]; [done|done].
Qed.

(** A new key goes to the end: iteration is in insertion order. *)
Lemma JsMap_keys_set_notin k v m :
  k ∉ JsMap.keys m -> JsMap.keys (JsMap.set k v m) = JsMap.keys m ++ [k].
Proof.
  induction m as [|[k' v'] m IH]; simpl; [done|].
  rewrite not_elem_of_cons. intros [Hne Hnin].
  rewrite decide_False by done. simpl. f_equal. by apply IH.
Qed.

Lemma JsMap_wf_set k v m : JsMap.wf m -> JsMap.wf (JsMap.set k v m).
Proof.
  unfold JsMap.wf. intros Hwf.
  destruct (decide (k ∈ JsMap.keys m)) as [Hin|Hnin].
  - by rewrite JsMap_keys_set_in.
  - rewrite JsMap_keys_set_notin by done.
    apply NoDup_app. split; [done|]. split; [|apply NoDup_singleton].
    intros x Hx Hx'. apply list_elem_of_singleton in Hx'. by subst.
Qed.

Lemma JsMap_delete_notin k m : k ∉ JsMap.keys m -> JsMap.delete k m = m.
Proof.
  induction m as [|[k' v'] m IH]; simpl; [done|].
  rewrite not_elem_of_cons. intros [Hne Hnin].
  rewrite decide_False by done. f_equal. by apply IH.
Qed.

Lemma JsMap_keys_delete_subseteq k m :
  JsMap.keys (JsMap.delete k m) ⊆ JsMap.keys m.
Proof.
  induction m as [|[k' v'] m IH]; simpl; [done|].
  destruct (decide (k' = k)); simpl.
  - intros x Hx. apply elem_of_cons. right. by apply IH.
  - intros x. rewrite !elem_of_cons. intros [->|Hx]; [by left|right; by apply IH].
Qed.

Lemma JsMap_wf_delete k m : JsMap.wf m -> JsMap.wf (JsMap.delete k m).
Proof.
  unfold JsMap.wf. induction m as [|[k' v'] m IH]; simpl; [done|].
  rewrite NoDup_cons. intros [Hnin Hnd].
  destruct (decide (k' = k)); simpl; [by apply IH|].
  apply NoDup_cons. split; [|by apply IH].
  intros Hin. apply Hnin. by apply (JsMap_keys_delete_subseteq k m).
Qed.

Lemma JsMap_get_set_eq k v m : JsMap.get k (JsMap.set k v m) = Some v.
Proof.
  induction m as [|[k' v'] m IH]; simpl.
  - by rewrite decide_True.
  - destruct (decide (k' = k)) as [->|Hne]; simpl.
    + by rewrite decide_True.
    + by rewrite decide_False.
Qed.

Lemma JsMap_get_set_ne k k' v m :
  k <> k' -> JsMap.get k' (JsMap.set k v m) = JsMap.get k' m.
Proof.
  intros Hne. induction m as [|[k0 v0] m IH]; simpl.
  - by rewrite decide_False.
  - destruct (decide (k0 = k)) as [->|Hne0]; simpl.
    + by rewrite !decide_False by done.
    + destruct (decide (k0 = k')); [done|apply IH].
Qed.

Lemma JsMap_get_delete_eq k m : JsMap.get k (JsMap.delete k m) = None.
Proof.
  induction m as [|[k' v'] m IH]; simpl; [done|].
  destruct (decide (k' = k)) as [->|Hne]; simpl; [done|].
  by rewrite decide_False.
Qed.

Lemma JsMap_get_delete_ne k k' m :
  k <> k' -> JsMap.get k' (JsMap.delete k m) = JsMap.get k' m.
Proof.
  intros Hne. induction m as [|[k0 v0] m IH]; simpl; [done|].
  destruct (decide (k0 = k)) as [->|Hne0]; simpl.
  - by rewrite decide_False by done.
  - destruct (decide (k0 = k')); [done|apply IH].
Qed.

End JsMapFacts.

(** ** Filters *)
Section FilterFacts.
Import Filters.

(** C5, as stated, fails: the tag that [between] leaves on the filter is
    the qualified name that [filterName] builds, not ["BetweenFilter"]. *)
Lemma between_tag_is_qualified :
  at_class (between (AMethod "age") (JNum 18) (JNum 65) (Some true) (Some false))
    <> "BetweenFilter".
Proof. vm_compute. discriminate. Qed.

(** C5, amended: for every extractor-or-method argument, bounds and
    inclusion flags, [between] builds the AND node of the two bound
    filters (greater-or-equal when the lower bound is included, greater
    otherwise; less-or-equal when the upper bound is included, less
    otherwise), tagged ["filter.BetweenFilter"] and carrying the bounds;
    [between("age", 18, 65, true, false)] wraps
    [GreaterEqualsFilter(age, 18)] and [LessFilter(age, 65)], both on the
    universal extractor of ["age"]. *)
Theorem between_builds_tagged_and_node
    (x : ExtractorOrMethod) (from to : JsValue) (incLower incUpper : bool) :
  let lower := if incLower then GreaterEqualsFilter x from else GreaterFilter x from in
  let upper := if incUpper then LessEqualsFilter x to else LessFilter x to in
  let f := between x from to (Some incLower) (Some incUpper) in
  at_class f = "filter.BetweenFilter"
  /\ filters_of f = filters_of (AndFilter lower upper)
  /\ filters_of f = [lower; upper]
  /\ f = set_from_to from to (set_class "filter.BetweenFilter" (AndFilter lower upper))
  /\ between (AMethod "age") (JNum 18) (JNum 65) (Some true) (Some false)
     = BetweenObject "filter.BetweenFilter"
         [ComparisonObject "filter.GreaterEqualsFilter" (UniversalExtractor "age") (JNum 18);
          ComparisonObject "filter.LessFilter" (UniversalExtractor "age") (JNum 65)]
         (JNum 18) (JNum 65).
Proof.
  intros lower upper f. subst lower upper f.
  unfold between, BetweenFilter. simpl.
  destruct incLower, incUpper; repeat split; reflexivity.
Qed.

End FilterFacts.

(** ** The legacy client *)
Section ClientFacts.
Import NamedCacheClient.

(** C6, as stated, fails: on an empty value payload [get] and [put] call
    [resolve] once, with [null]. *)
Lemma empty_payload_resolves_once :
  get parse_one (answering (Some [])) (JStr "k") = [resolve JNull]
  /\ put parse_one (answering (Some [])) (JStr "k") (JStr "v") None = [resolve JNull]
  /\ length (get parse_one (answering (Some [])) (JStr "k")) <> 2%nat.
Proof. vm_compute. repeat split; [discriminate]. Qed.

(** C6, amended: when the server responds to [get] or [put] without
    error, a value payload that is not empty and parses makes the
    callback resolve twice, first with the parsed value, which wins, then
    with [null]; an empty or absent payload makes it resolve exactly
    once, with [null]. *)
Theorem get_put_resolutions (JSON_parse : list Byte.byte -> option JsValue)
    (self : Client) (key val : JsValue) (ttl : option Z)
    (r : Reply) (calls : list Settle) :
  (r, calls) = (client_get (client self) (cacheName self) key, get JSON_parse self key)
  \/ (r, calls) = (client_put (client self) (cacheName self) key val ttl,
                   put JSON_parse self key val ttl) ->
  err r = None ->
  match value r with
  | Some (b :: bytes) =>
      forall parsed, JSON_parse (b :: bytes) = Some parsed ->
        calls = [resolve parsed; resolve JNull] /\ settled calls = Fulfilled parsed
  | Some [] | None =>
      calls = [resolve JNull] /\ settled calls = Fulfilled JNull
  end.
Proof.
  intros Hcase Herr.
  assert (calls = value_callback JSON_parse r) as ->.
  { destruct Hcase as [Heq|Heq]; inversion Heq; reflexivity. }
  unfold value_callback. rewrite Herr.
  destruct (value r) as [[|b bytes]|]; simpl; [done| |done].
  intros parsed ->. done.
Qed.

Lemma get_put_resolutions_witness :
  get parse_one (answering (Some [Byte.x31])) (JStr "k")
    = [resolve (JNum 1); resolve JNull]
  /\ settled (get parse_one (answering (Some [Byte.x31])) (JStr "k"))
     = Fulfilled (JNum 1).
Proof.
  apply (get_put_resolutions parse_one (answering (Some [Byte.x31]))
           (JStr "k") JNull None
           (mkReply None (Some [Byte.x31]))
           (get parse_one (answering (Some [Byte.x31])) (JStr "k"))).
  - left. reflexivity.
  - reflexivity.
  - reflexivity.
Defined.

End ClientFacts.

(** ** Session configuration *)
Section OptionsFacts.
Import Session.

(** Once [lock()] has run, every setter returns without effect. *)
Lemma lock_rejects_mutation (m : Mutation) (o : Options) :
  mutate m (lock o) = Normal (lock o).
Proof. destruct m; reflexivity. Qed.

(** The constructor of [Session] reads the options and keeps the
    reference; the object in the store is the one it was given, with its
    [locked] flag as before. *)
Lemma new_Session_keeps_reference readFileSync sessionOptions store s :
  new_Session readFileSync sessionOptions store = Normal s ->
  _sessionOptions s = default DEFAULT_OPTIONS sessionOptions
  /\ markedForClose s = false /\ _closed s = false /\ caches s = [] /\ trace s = [].
Proof.
  unfold new_Session. intros Hnew.
  destruct (store !! default DEFAULT_OPTIONS sessionOptions) as [o|]; [|done].
  destruct (if _enabled (_tls o) then _ else _) as [cred|]; [|done].
  by inversion Hnew.
Qed.

(** After construction a mutation that the setters accept on an unlocked
    object is what the session observes. *)
Lemma mutation_after_construction readFileSync store ref o s m o' :
  store !! ref = Some o ->
  new_Session readFileSync (Some ref) store = Normal s ->
  mutate m o = Normal o' ->
  options s (mutate_at ref m store) = Some o'.
Proof.
  intros Hlook Hnew Hmut.
  apply new_Session_keeps_reference in Hnew as (Href & _). simpl in Href.
  unfold options, mutate_at. rewrite Href, Hlook, Hmut.
  apply lookup_insert_eq.
Qed.

Example address_accepted : ADDRESS_REGEXP_test "localhost:1408" = true.
Proof. reflexivity. Qed.

Example address_without_port_refused :
  set_address "localhost" new_Options
  = Throw "Expected address format is '<hostname>:<port>'.  Configured: localhost".
Proof. reflexivity. Qed.

Example address_with_long_port_refused : ADDRESS_REGEXP_test "host:123456" = false.
Proof. reflexivity. Qed.

Example timeout_not_positive_is_unbounded :
  _requestTimeoutInMillis (set_requestTimeoutInMillis (Millis 0) new_Options)
  = POSITIVE_INFINITY.
Proof. reflexivity. Qed.

Example tls_without_certificate_refused :
  new_Session no_files (Some application_options)
    (mutate_at application_options (SetTlsEnabled true) application_store)
  = Throw "When TLS is enabled, caCert cannot be undefined or null".
Proof. by vm_compute. Qed.

(** C8, on the code: the constructor of [Session] never calls [lock()],
    so a session built from an [Options] object sees the address, the
    timeout and the TLS switch that are set on that object afterwards. *)
Theorem options_mutable_after_construction :
  exists s,
    new_Session no_files (Some application_options) application_store = Normal s
    /\ address s application_store = Some "localhost:1408"
    /\ address s (mutate_at application_options (SetAddress "example.com:9000")
                    application_store)
       = Some "example.com:9000"
    /\ (_requestTimeoutInMillis
          <$> options s (mutate_at application_options
                           (SetRequestTimeoutInMillis (Millis 5)) application_store))
       = Some (Millis 5)
    /\ (locked <$> options s application_store) = Some false.
Proof. eexists. vm_compute. repeat split; reflexivity. Qed.

End OptionsFacts.

(** ** Sessions *)
Section SessionFacts.
Import Session.
Variable registered : string -> bool.

Lemma caches_perform a s : caches (perform a s) = caches s.
Proof. reflexivity. Qed.

Lemma caches_closed_listener s : caches (closed_listener s) = caches s.
Proof. unfold closed_listener. by destruct (_ && _). Qed.

Lemma trace_closed_listener s : trace (closed_listener s) = trace s.
Proof. unfold closed_listener. by destruct (_ && _). Qed.

Lemma markedForClose_closed_listener s :
  markedForClose (closed_listener s) = markedForClose s.
Proof. unfold closed_listener. by destruct (_ && _). Qed.

Lemma caches_emit a s : caches (emit a s) = caches s.
Proof. unfold emit. by rewrite caches_closed_listener. Qed.

Lemma trace_emit a s : trace (emit a s) = trace s ++ [a].
Proof. unfold emit. by rewrite trace_closed_listener. Qed.

Lemma markedForClose_emit a s : markedForClose (emit a s) = markedForClose s.
Proof. unfold emit. by rewrite markedForClose_closed_listener. Qed.

Lemma closed_emit_empty a s :
  markedForClose s = true -> caches s = [] -> _closed (emit a s) = true.
Proof.
  intros Hm Hc. unfold emit, closed_listener. simpl. by rewrite Hm, Hc.
Qed.

(** The [DESTROYED] handler removes exactly the keys that start with the
    cache name and a colon. *)
Lemma destroyed_loop_get cacheName todo s key :
  JsMap.get key (caches (destroyed_loop cacheName todo s))
  = if isKeyForCacheName key cacheName && bool_decide (key ∈ todo) then None
    else JsMap.get key (caches s).
Proof.
  revert s. induction todo as [|k todo IH]; intros s; simpl.
  - by rewrite andb_false_r.
  - destruct (JsMap.get k (caches s)) as [c|] eqn:Hk.
    + destruct (isKeyForCacheName k cacheName) eqn:Hpre.
      * rewrite IH, caches_emit. simpl.
        destruct (decide (key = k)) as [->|Hne].
        -- rewrite Hpre, JsMap_get_delete_eq. simpl.
           rewrite (bool_decide_eq_true_2 (k ∈ k :: todo)) by apply list_elem_of_here.
           by destruct (bool_decide _).
        -- rewrite JsMap_get_delete_ne by done.
           destruct (isKeyForCacheName key cacheName); simpl; [|done].
           rewrite (bool_decide_ext (key ∈ k :: todo) (key ∈ todo)); [done|].
           rewrite elem_of_cons. split; [intros [?|?]; [congruence|done] | by right].
      * rewrite IH.
        destruct (isKeyForCacheName key cacheName) eqn:Hkey; simpl; [|done].
        rewrite (bool_decide_ext (key ∈ k :: todo) (key ∈ todo)); [done|].
        rewrite elem_of_cons. split; [intros [->|]; [congruence|done]|by right].
    + rewrite IH.
      destruct (isKeyForCacheName key cacheName) eqn:Hkey; simpl; [|done].
      destruct (decide (key = k)) as [->|Hne].
      * rewrite (bool_decide_eq_true_2 (k ∈ k :: todo)) by apply list_elem_of_here.
        by destruct (bool_decide _).
      * rewrite (bool_decide_ext (key ∈ k :: todo) (key ∈ todo)); [done|].
        rewrite elem_of_cons. split; [intros [?|?]; [congruence|done] | by right].
Qed.

Lemma on_cache_DESTROYED_get cacheName s key :
  JsMap.get key (caches (on_cache_DESTROYED cacheName s))
  = if isKeyForCacheName key cacheName then None else JsMap.get key (caches s).
Proof.
  unfold on_cache_DESTROYED. rewrite destroyed_loop_get.
  destruct (isKeyForCacheName key cacheName); simpl; [|done].
  case_bool_decide as Hin; [done|].
  by apply JsMap_get_None_keys.
Qed.

Example same_name_and_format_same_cache :
  forall s0 s1 s2 c1 c2,
    s0 = mkSession false false [] 0 Insecure "localhost:1408" false 0 [] ->
    getCache every_format "orders" (Some "json") s0 = (Normal c1, s1) ->
    getCache every_format "orders" None s1 = (Normal c2, s2) ->
    c1 = c2 /\ s2 = s1.
Proof. intros s0 s1 s2 c1 c2 -> [= <- <-] [= <- <-]. done. Qed.

Example other_format_other_cache :
  forall s0 s1 s2 c1 c2,
    s0 = mkSession false false [] 0 Insecure "localhost:1408" false 0 [] ->
    getCache every_format "orders" (Some "json") s0 = (Normal c1, s1) ->
    getCache every_format "orders" (Some "pof") s1 = (Normal c2, s2) ->
    nc_id c1 <> nc_id c2.
Proof. intros s0 s1 s2 c1 c2 -> [= <- <-] [= <- <-]. done. Qed.

Lemma JsMap_get_Some_elem (key : string) (cache : NamedCacheClient)
    (m : JsMap.t string NamedCacheClient) :
  JsMap.get key m = Some cache -> (key, cache) ∈ m.
Proof.
  induction m as [|[k c] m IH]; simpl; [done|].
  case_decide as Hk.
  - intros [= ->]. subst. apply list_elem_of_here.
  - intros H. apply list_elem_of_further. by apply IH.
Qed.

Lemma NoDup_map_eq {A B : Type} (f : A -> B) (l : list A) (x y : A) :
  NoDup (map f l) -> x ∈ l -> y ∈ l -> f x = f y -> x = y.
Proof.
  induction l as [|a l IH]; simpl; intros Hnd Hx Hy Hf; [by apply elem_of_nil in Hx|].
  apply NoDup_cons in Hnd as [Hnotin Hnd].
  apply elem_of_cons in Hx as [->|Hx]; apply elem_of_cons in Hy as [->|Hy].
  - done.
  - exfalso. apply Hnotin. rewrite Hf. apply list_elem_of_In, in_map.
    by apply list_elem_of_In.
  - exfalso. apply Hnotin. rewrite <- Hf. apply list_elem_of_In, in_map.
    by apply list_elem_of_In.
  - by apply IH.
Qed.

Lemma distinct_entries_distinct_caches (m : JsMap.t string NamedCacheClient)
    (key1 key2 : string) (cache1 cache2 : NamedCacheClient) :
  NoDup (map (fun entry : string * NamedCacheClient => nc_id entry.2) m) ->
  JsMap.get key1 m = Some cache1 -> JsMap.get key2 m = Some cache2 ->
  key1 <> key2 -> nc_id cache1 <> nc_id cache2.
Proof.
  intros Hnd H1%JsMap_get_Some_elem H2%JsMap_get_Some_elem Hne Hid.
  apply Hne.
  by pose proof (NoDup_map_eq _ _ _ _ Hnd H1 H2 Hid) as [= -> _].
Qed.

Lemma cache_created_before (s : Session) (key : string) (cache : NamedCacheClient) :
  invariant s -> JsMap.get key (caches s) = Some cache -> (nc_id cache < next_cache s)%nat.
Proof.
  intros (_ & _ & _ & Hlt & _) Hget%JsMap_get_Some_elem.
  by apply (proj1 (Forall_forall _ _) Hlt) in Hget.
Qed.

(** C9: [getCache] keys its registry by [name + ':' + format].  On an
    open session it returns the cache that the registry holds under
    that concatenation, or else a new cache with the name and the format
    given, which it stores there, and it touches no other entry.  So
    two calls whose (name, format) pairs concatenate to the same key,
    as ("a:b", "c") and ("a", "b:c") do, return the same
    [NamedCacheClient] instance, and on a session whose registry is in
    order two calls whose concatenations differ return two different
    instances, both of them kept.  A [DESTROYED] event for a cache name
    removes every entry of the registry whose key starts with that name
    and a colon, and no other. *)
Theorem getCache_shares_instance_per_key
    (s : Session) (name1 format1 name2 format2 : string) :
  markedForClose s = false ->
  _closed s = false ->
  registered format1 = true ->
  registered format2 = true ->
  (forall name format, makeCacheKey name format = name +:+ ":" +:+ format)
  /\ makeCacheKey "a:b" "c" = makeCacheKey "a" "b:c"
  /\ (exists cache1 s1 cache2 s2,
        getCache registered name1 (Some format1) s = (Normal cache1, s1)
        /\ getCache registered name2 (Some format2) s1 = (Normal cache2, s2)
        /\ JsMap.get (name1 +:+ ":" +:+ format1) (caches s1) = Some cache1
        /\ JsMap.get (name2 +:+ ":" +:+ format2) (caches s2) = Some cache2
        /\ (forall key, key <> name1 +:+ ":" +:+ format1 ->
              JsMap.get key (caches s1) = JsMap.get key (caches s))
        /\ match JsMap.get (name1 +:+ ":" +:+ format1) (caches s) with
           | Some cache => cache1 = cache /\ s1 = s
           | None => cache1 = mkNamedCacheClient (next_cache s) name1 format1
           end
        /\ (name1 +:+ ":" +:+ format1 = name2 +:+ ":" +:+ format2 ->
            cache2 = cache1 /\ s2 = s1)
        /\ (name1 +:+ ":" +:+ format1 <> name2 +:+ ":" +:+ format2 ->
            invariant s ->
            nc_id cache2 <> nc_id cache1
            /\ JsMap.get (name1 +:+ ":" +:+ format1) (caches s2) = Some cache1))
  /\ (forall cacheName key,
        JsMap.get key (caches (on_cache_DESTROYED cacheName s))
        = if String.prefix (cacheName +:+ ":") key then None
          else JsMap.get key (caches s)).
Proof.
  intros Hm Hc Hr1 Hr2. split; [reflexivity|]. split; [reflexivity|].
  split; [|intros cacheName key; apply on_cache_DESTROYED_get].
  set (key1 := name1 +:+ ":" +:+ format1). set (key2 := name2 +:+ ":" +:+ format2).
  assert (forall s0 name format,
            markedForClose s0 = false -> _closed s0 = false -> registered format = true ->
            getCache registered name (Some format) s0
            = match JsMap.get (name +:+ ":" +:+ format) (caches s0) with
              | Some cache => (Normal cache, s0)
              | None =>
                  (Normal (mkNamedCacheClient (next_cache s0) name format),
                   mkSession (markedForClose s0) (_closed s0)
                     (JsMap.set (name +:+ ":" +:+ format)
                        (mkNamedCacheClient (next_cache s0) name format) (caches s0))
                     (_sessionOptions s0) (_channelCredentials s0) (channel_target s0)
                     (sessionClosedPromise s0) (S (next_cache s0)) (trace s0))
              end) as Hget.
  { intros s0 name format H1 H2 H3. unfold getCache, makeCacheKey. simpl.
    by rewrite H1, H2, H3. }
  pose proof (Hget s name1 format1 Hm Hc Hr1) as Hfirst. fold key1 in Hfirst.
  destruct (JsMap.get key1 (caches s)) as [c1|] eqn:Hk1.
  - (* the first call finds the cache *)
    pose proof (Hget s name2 format2 Hm Hc Hr2) as Hsecond. fold key2 in Hsecond.
    destruct (JsMap.get key2 (caches s)) as [c2|] eqn:Hk2.
    + exists c1, s, c2, s. repeat (split; [done|]). split.
      * intros Heq. rewrite <- Heq, Hk1 in Hk2. by injection Hk2 as ->.
      * intros Hne Hinv. split; [|done].
        destruct Hinv as (_ & _ & Hnd & _).
        by apply (distinct_entries_distinct_caches (caches s) key2 key1).
    + eexists c1, s, _, _. split; [done|]. split; [exact Hsecond|].
      split; [done|]. split; [apply JsMap_get_set_eq|].
      split; [done|]. split; [done|]. split.
      * intros Heq. rewrite <- Heq, Hk1 in Hk2. done.
      * intros Hne Hinv. split.
        -- pose proof (cache_created_before s key1 c1 Hinv Hk1). simpl. lia.
        -- simpl. by rewrite JsMap_get_set_ne.
  - (* the first call creates it *)
    set (c1 := mkNamedCacheClient (next_cache s) name1 format1) in *.
    set (s1 := mkSession _ _ _ _ _ _ _ _ _) in Hfirst.
    pose proof (Hget s1 name2 format2 Hm Hc Hr2) as Hsecond. fold key2 in Hsecond.
    assert (JsMap.get key1 (caches s1) = Some c1) as Hs1 by apply JsMap_get_set_eq.
    assert (forall key, key <> key1 -> JsMap.get key (caches s1) = JsMap.get key (caches s))
      as Hother.
    { intros key Hne. simpl. by rewrite JsMap_get_set_ne. }
    destruct (JsMap.get key2 (caches s1)) as [c2|] eqn:Hk2.
    + exists c1, s1, c2, s1. repeat (split; [done|]). split.
      * intros Heq. rewrite <- Heq, Hs1 in Hk2. by injection Hk2 as ->.
      * intros Hne Hinv. split; [|done].
        rewrite Hother in Hk2 by done.
        pose proof (cache_created_before s key2 c2 Hinv Hk2). simpl. lia.
    + eexists c1, s1, _, _. split; [done|]. split; [exact Hsecond|].
      split; [done|]. split; [apply JsMap_get_set_eq|].
      split; [done|]. split; [done|]. split.
      * intros Heq. rewrite <- Heq, Hs1 in Hk2. done.
      * intros Hne Hinv. split; [simpl; lia|].
        simpl. rewrite JsMap_get_set_ne by done. apply JsMap_get_set_eq.
Qed.

(** [getCache] keeps the registry keyed and its keys distinct. *)
Lemma getCache_keeps_registry name format s :
  caches_keyed s -> JsMap.wf (caches s) ->
  caches_keyed (getCache registered name format s).2
  /\ JsMap.wf (caches (getCache registered name format s).2).
Proof.
  intros Hkeyed Hwf. unfold getCache.
  destruct (markedForClose s); [done|]. destruct (_closed s); [done|].
  destruct (negb _); [done|].
  destruct (JsMap.get _ (caches s)) eqn:Hget; [done|]. simpl. split.
  - unfold caches_keyed in *. simpl.
    apply JsMap_get_None_keys in Hget.
    revert Hkeyed Hget. generalize (caches s) as m.
    induction m as [|[k c] m IH]; simpl; intros Hk Hn.
    + by repeat constructor.
    + apply not_elem_of_cons in Hn as [Hne Hn].
      rewrite decide_False by done.
      inversion Hk; subst. constructor; [done|by apply IH].
  - by apply JsMap_wf_set.
Qed.

(** The loop of [close] releases every cache of a keyed registry, in
    insertion order, and leaves the registry empty. *)
Lemma release_loop_spec m s :
  caches s = m -> JsMap.wf m -> caches_keyed s -> markedForClose s = true ->
  let s' := release_loop (JsMap.keys m) s in
  caches s' = []
  /\ markedForClose s' = true
  /\ trace s' = trace s ++ flat_map released m
  /\ (m = [] -> s' = s).
Proof.
  revert s. induction m as [|[k c] m IH]; intros s Hc Hwf Hkeyed Hm; simpl.
  - by rewrite app_nil_r.
  - rewrite Hc. simpl. rewrite decide_True by done.
    unfold JsMap.wf in Hwf. simpl in Hwf. apply NoDup_cons in Hwf as [Hnin Hwf].
    unfold caches_keyed in Hkeyed. rewrite Hc in Hkeyed.
    apply Forall_cons in Hkeyed as [Hk Hkeyed]. simpl in Hk.
    set (s1 := release c s).
    assert (caches s1 = m) as Hc1.
    { unfold s1, release, on_cache_RELEASED. rewrite caches_emit. simpl.
      rewrite Hc, <- Hk. simpl. rewrite decide_True by done.
      by apply JsMap_delete_notin. }
    assert (markedForClose s1 = true) as Hm1.
    { unfold s1, release, on_cache_RELEASED. by rewrite markedForClose_emit. }
    assert (trace s1 = trace s ++ released (k, c)) as Ht1.
    { unfold s1, release, on_cache_RELEASED. rewrite trace_emit. simpl.
      by rewrite <- app_assoc. }
    destruct (IH s1) as (Hc' & Hm' & Ht' & _); [done|done| |done|].
    { unfold caches_keyed. by rewrite Hc1. }
    repeat split; [done|done| |done].
    rewrite Ht', Ht1, <- app_assoc. done.
Qed.

Lemma released_without_CLOSED (m : list (string * NamedCacheClient)) :
  count_occ Action_eq_dec (flat_map released m) Emit_CLOSED = 0%nat.
Proof.
  induction m as [|[k c] m IH]; [done|].
  change (flat_map released ((k, c) :: m))
    with (released (k, c) ++ flat_map released m).
  rewrite count_occ_app, IH. reflexivity.
Qed.

(** C4: calling [close()] twice emits ['closed'] exactly once; when the
    first call completes the [closed] flag is [true], every cache has
    been released and the channel has been closed once; the second call
    returns at once and changes nothing, as does every call made once
    the session is marked for close. *)
Theorem close_twice_closes_once (s : Session) :
  markedForClose s = false ->
  caches_keyed s ->
  JsMap.wf (caches s) ->
  let s1 := close s in
  let s2 := close s1 in
  trace s1 = trace s ++ flat_map released (caches s) ++ [ChannelClose; Emit_CLOSED]
  /\ count_occ Action_eq_dec (trace s2) Emit_CLOSED
     = S (count_occ Action_eq_dec (trace s) Emit_CLOSED)
  /\ closed s1 = true
  /\ caches s1 = []
  /\ s2 = s1
  /\ (forall marked, markedForClose marked = true -> close marked = marked).
Proof.
  intros Hm Hkeyed Hwf s1 s2.
  set (s0 := mkSession true (_closed s) (caches s) (_sessionOptions s)
               (_channelCredentials s) (channel_target s)
               (sessionClosedPromise s) (next_cache s) (trace s)).
  destruct (release_loop_spec (caches s) s0) as (Hc & Hmk & Ht & _);
    [done|done|done|done|].
  set (s' := release_loop (JsMap.keys (caches s)) s0) in *.
  assert (s1 = emit Emit_CLOSED (perform ChannelClose s')) as Hs1.
  { unfold s1, close. by rewrite Hm. }
  assert (markedForClose s1 = true) as Hm1.
  { rewrite Hs1. by rewrite markedForClose_emit. }
  assert (s2 = s1) as H21.
  { unfold s2. unfold close at 1. by rewrite Hm1. }
  assert (trace s1
          = trace s ++ flat_map released (caches s) ++ [ChannelClose; Emit_CLOSED]) as Htr.
  { rewrite Hs1, trace_emit. simpl. rewrite Ht. simpl. by rewrite <- !app_assoc. }
  repeat split.
  - done.
  - rewrite H21, Htr, !count_occ_app. simpl.
    rewrite released_without_CLOSED. simpl. lia.
  - rewrite Hs1. unfold closed. by apply closed_emit_empty.
  - rewrite Hs1. by rewrite caches_emit.
  - done.
  - intros marked Hmarked. unfold close. by rewrite Hmarked.
Qed.

End SessionFacts.

Lemma getCache_shares_instance_per_key_witness :
  exists cache s1,
    Session.getCache Session.every_format "a:b" (Some "c")
      (Session.mkSession false false [] 0 Session.Insecure "localhost:1408" false 0 [])
    = (Normal cache, s1)
    /\ Session.getCache Session.every_format "a" (Some "b:c") s1 = (Normal cache, s1)
    /\ JsMap.get "a:b:c" (Session.caches s1) = Some cache.
Proof.
  destruct (getCache_shares_instance_per_key Session.every_format
              (Session.mkSession false false [] 0 Session.Insecure "localhost:1408"
                 false 0 [])
              "a:b" "c" "a" "b:c" eq_refl eq_refl eq_refl eq_refl)
    as (_ & _ & (cache1 & s1 & cache2 & s2 & H1 & H2 & Hkept & _ & _ & _ & Hsame & _) & _).
  destruct (Hsame eq_refl) as [Hcache Hs]. subst cache2 s2.
  exists cache1, s1. split; [exact H1|]. split; [exact H2|exact Hkept].
Defined.

Lemma close_twice_closes_once_witness :
  Session.closed
    (Session.close
       (Session.getCache Session.every_format "orders" None
          (Session.mkSession false false [] 0 Session.Insecure "localhost:1408" false 0 [])).2)
  = true.
Proof.
  apply (close_twice_closes_once
           (Session.getCache Session.every_format "orders" None
              (Session.mkSession false false [] 0 Session.Insecure "localhost:1408" false 0 [])).2).
  - reflexivity.
  - vm_compute. repeat constructor.
  - vm_compute. repeat constructor; set_solver.
Defined.

(** ** The event dispatcher: fan-out and stream errors *)
Section FanOutFacts.
Import Events.
Variable json : Json.

Lemma calls_to_app listener (a b : list Action) :
  calls_to listener (a ++ b) = (calls_to listener a + calls_to listener b)%nat.
Proof. unfold calls_to. by rewrite List.filter_app, length_app. Qed.

Lemma calls_to_deliveries_notin listener m e (ls : list Listener) :
  listener ∉ ls ->
  calls_to listener (map (fun l => Call l m e) ls) = 0%nat.
Proof.
  induction ls as [|l ls IH]; [done|].
  rewrite not_elem_of_cons. intros [Hne Hnin].
  unfold calls_to in *. simpl. rewrite bool_decide_eq_false_2 by done.
  by apply IH.
Qed.

Lemma calls_to_deliveries_in listener m e (ls : list Listener) :
  NoDup ls -> listener ∈ ls ->
  calls_to listener (map (fun l => Call l m e) ls) = 1%nat.
Proof.
  induction ls as [|l ls IH]; intros Hnd Hin.
  - by apply elem_of_nil in Hin.
  - apply NoDup_cons in Hnd as [Hnin Hnd].
    unfold calls_to in *. simpl. destruct (decide (l = listener)) as [->|Hne].
    + rewrite bool_decide_eq_true_2 by done. simpl. f_equal.
      by apply calls_to_deliveries_notin.
    + rewrite bool_decide_eq_false_2 by done.
      apply IH; [done|]. apply elem_of_cons in Hin as [->|]; done.
Qed.

Lemma calls_to_group listener mapEvent group :
  JsMap.wf (listeners group) ->
  calls_to listener (deliveries mapEvent group)
  = if member listener group then 1%nat else 0%nat.
Proof.
  intros Hwf. unfold deliveries, member. case_bool_decide.
  - by apply calls_to_deliveries_in.
  - by apply calls_to_deliveries_notin.
Qed.

Lemma calls_to_groups listener mapEvent (gs : list ListenerGroup) :
  Forall (fun g => JsMap.wf (listeners g)) gs ->
  calls_to listener (flat_map (deliveries mapEvent) gs)
  = length (List.filter (member listener) gs).
Proof.
  induction 1 as [|g gs Hwf _ IH]; [done|]. simpl.
  rewrite calls_to_app, IH, calls_to_group by done.
  by destruct (member listener g).
Qed.

Lemma called_deliveries mapEvent group :
  called (deliveries mapEvent group) = JsMap.keys (listeners group).
Proof.
  unfold called, deliveries. induction (JsMap.keys (listeners group)) as [|l ls IH];
    [done|]. simpl. by f_equal.
Qed.

Lemma set_trace_twice t1 t2 st : set_trace t2 (set_trace t1 st) = set_trace t2 st.
Proof. reflexivity. Qed.

Lemma trace_set_trace t st : trace (set_trace t st) = t.
Proof. reflexivity. Qed.

Lemma keyMap_set_trace t st : keyMap (set_trace t st) = keyMap st.
Proof. reflexivity. Qed.

Lemma groups_set_trace t st : groups (set_trace t st) = groups st.
Proof. reflexivity. Qed.

Lemma filterId2ListenerGroup_set_trace t st :
  filterId2ListenerGroup (set_trace t st) = filterId2ListenerGroup st.
Proof. reflexivity. Qed.

(** [notifyListeners] only adds to the trace: one call per listener of
    the group, in the order of its listener map. *)
Lemma notify_fold mapEvent (ls : list Listener) st :
  fold_left (notify_one mapEvent) ls st
  = set_trace
      (trace st ++ map (fun l => Call l (callback_for (getId mapEvent)) mapEvent) ls) st.
Proof.
  revert st. induction ls as [|l ls IH]; intros st; simpl.
  - rewrite app_nil_r. by destruct st.
  - rewrite IH. unfold notify_one, perform, callback_for.
    destruct (getId mapEvent); simpl; unfold set_trace; simpl;
      by rewrite <- app_assoc.
Qed.

Lemma notifyListeners_eq this mapEvent st :
  notifyListeners this mapEvent st
  = set_trace
      (trace st ++ from_option (deliveries mapEvent) [] (groups st !! this)) st.
Proof.
  unfold notifyListeners. destruct (groups st !! this) as [g|]; simpl.
  - apply notify_fold.
  - rewrite app_nil_r. by destruct st.
Qed.

Lemma fan_out_fold mapEvent (ids : list Z) st :
  fold_left
    (fun st id =>
       match filterId2ListenerGroup st !! id with
       | Some group => notifyListeners group mapEvent st
       | None => st
       end) ids st
  = set_trace
      (trace st
       ++ flat_map (deliveries mapEvent)
            (omap (fun id => filterId2ListenerGroup st !! id
                               ≫= fun ref => groups st !! ref) ids)) st.
Proof.
  revert st. induction ids as [|id ids IH]; intros st; simpl.
  - rewrite app_nil_r. by destruct st.
  - rewrite IH. destruct (filterId2ListenerGroup st !! id) as [ref|] eqn:Hid; simpl.
    + rewrite notifyListeners_eq. unfold set_trace. simpl.
      destruct (groups st !! ref) as [g|]; simpl.
      * by rewrite <- app_assoc.
      * by rewrite app_nil_r.
    + done.
Qed.

(** An EVENT response only adds to the trace: what is printed, then the
    calls for every reached group. *)
Lemma handleResponse_event_eq st event :
  handleResponse json (EVENT (Some event)) st
  = set_trace
      (trace st
       ++ (if (0 <? debugLevel st)%Z then [Console "MapEvent"] else [])
       ++ flat_map (deliveries (mkMapEvent (cacheName st) event))
            (reached_groups json st event)) st.
Proof.
  unfold handleResponse.
  set (mapEvent := mkMapEvent (cacheName st) event).
  set (printed := if (0 <? debugLevel st)%Z then [Console "MapEvent"] else []).
  set (st1 := if (0 <? debugLevel st)%Z then perform (Console "MapEvent") st else st).
  assert (st1 = set_trace (trace st ++ printed) st) as Hst1.
  { unfold st1, printed. destruct (0 <? debugLevel st)%Z; [done|].
    rewrite app_nil_r. by destruct st. }
  rewrite fan_out_fold, Hst1, set_trace_twice, keyMap_set_trace.
  rewrite !filterId2ListenerGroup_set_trace, !groups_set_trace, trace_set_trace.
  unfold reached_groups, filter_groups, key_group, getKey.
  change (me_event mapEvent) with event.
  rewrite flat_map_app, <- !app_assoc.
  destruct (keyMap st !! stringify json (ev_key event)) as [ref|]; simpl.
  - rewrite notifyListeners_eq, trace_set_trace, groups_set_trace, set_trace_twice.
    destruct (groups st !! ref); simpl; by rewrite ?app_nil_r, <- ?app_assoc.
  - by rewrite !app_nil_r.
Qed.

Lemma omap_bind {A B C : Type} (f : A -> option B) (g : B -> option C) (l : list A) :
  omap (fun x => f x ≫= g) l = omap g (omap f l).
Proof.
  induction l as [|x l IH]; [done|]. csimpl.
  destruct (f x) as [y|]; csimpl; [|done]. destruct (g y); csimpl; by rewrite IH.
Qed.

Lemma reached_groups_refs st event :
  reached_groups json st event
  = omap (fun ref => groups st !! ref) (reached_refs json st event).
Proof.
  unfold reached_groups, reached_refs, filter_groups, key_group.
  rewrite omap_app, omap_bind. f_equal.
  destruct (keyMap st !! _) as [ref|]; simpl; [|done].
  by destruct (groups st !! ref).
Qed.

Lemma members_by_ref st listener (refs : list GroupRef) :
  length (List.filter (member listener) (omap (fun ref => groups st !! ref) refs))
  = length (List.filter (holds st listener) refs).
Proof.
  induction refs as [|ref refs IH]; [done|]. csimpl. unfold holds at 1.
  destruct (groups st !! ref) as [group|]; csimpl; [|done].
  unfold member at 1. case_bool_decide; simpl; by rewrite IH.
Qed.

(** C1, amended: for every inbound EVENT response, the listeners of the
    group of every filter id of the event that the filter-id index maps,
    one group for each such id and in the order of the ids, and then
    the listeners of the group registered for the key of the event, are
    called and nothing else is; a registered key group and the group of
    a mapped filter id are among the reached ones; within a group every
    listener is called once, in the insertion order of its listeners;
    and over the whole event a listener is called once for every
    occurrence, among the reached references, of a group that holds it.
    That is once per group membership only when no two of the
    references are the same group: a group that two filter ids of the
    event are mapped to, or a filter id that the event carries twice,
    has its listeners called twice. *)
Theorem handleResponse_event_fan_out (st : MapEventsManager) (event : MapEventResponse) :
  map_Forall (fun _ g => JsMap.wf (listeners g)) (groups st) ->
  let mapEvent := mkMapEvent (cacheName st) event in
  let printed := if (0 <? debugLevel st)%Z then [Console "MapEvent"] else [] in
  let reached := reached_groups json st event in
  added st (handleResponse json (EVENT (Some event)) st)
    (printed ++ flat_map (deliveries mapEvent) reached)
  /\ (forall ref group,
        keyMap st !! stringify json (ev_key event) = Some ref ->
        groups st !! ref = Some group -> group ∈ reached)
  /\ (forall id ref group,
        id ∈ getFilteridsList event -> filterId2ListenerGroup st !! id = Some ref ->
        groups st !! ref = Some group -> group ∈ reached)
  /\ (forall group, group ∈ reached ->
        called (deliveries mapEvent group) = JsMap.keys (listeners group)
        /\ forall listener, listener ∈ JsMap.keys (listeners group) ->
             calls_to listener (deliveries mapEvent group) = 1%nat)
  /\ (forall listener,
        calls_to listener (flat_map (deliveries mapEvent) reached)
        = length (List.filter (member listener) reached))
  /\ (forall listener,
        calls_to listener (flat_map (deliveries mapEvent) reached)
        = length (List.filter (holds st listener) (reached_refs json st event))).
Proof.
  intros Hwf mapEvent printed reached.
  assert (Forall (fun g => JsMap.wf (listeners g)) reached) as Hreached.
  { apply Forall_forall. intros g Hg. unfold reached, reached_groups in Hg.
    apply elem_of_app in Hg as [Hg|Hg].
    - unfold filter_groups in Hg. apply list_elem_of_omap in Hg as (id & _ & Hid).
      destruct (filterId2ListenerGroup st !! id) as [ref|]; [|done]. simpl in Hid.
      by apply (Hwf ref).
    - unfold key_group in Hg.
      destruct (keyMap st !! _) as [ref|]; simpl in Hg; [|by apply elem_of_nil in Hg].
      destruct (groups st !! ref) as [g'|] eqn:Href; simpl in Hg;
        [|by apply elem_of_nil in Hg].
      apply list_elem_of_singleton in Hg as ->. by apply (Hwf ref). }
  split; [|split; [|split; [|split; [|split]]]].
  - unfold added. by rewrite handleResponse_event_eq.
  - intros ref g Hkey Hg. unfold reached, reached_groups, key_group.
    rewrite Hkey. simpl. rewrite Hg. simpl. apply elem_of_app. right.
    by apply list_elem_of_singleton.
  - intros id ref g Hid Href Hg. unfold reached, reached_groups.
    apply elem_of_app. left. unfold filter_groups.
    apply list_elem_of_omap. exists id. split; [done|].
    rewrite Href. simpl. done.
  - intros g Hg. split; [apply called_deliveries|].
    intros l Hl. rewrite calls_to_group.
    + unfold member. by rewrite bool_decide_eq_true_2.
    + by apply (proj1 (Forall_forall _ _) Hreached).
  - intros l. by apply calls_to_groups.
  - intros l. rewrite calls_to_groups by done.
    unfold reached. by rewrite reached_groups_refs, members_by_ref.
Qed.

(** C1, as stated, fails.  The loop over the filter ids of an event
    notifies the group of every id, and it does not look whether that
    group was notified before.  After a listener that is not lite has
    joined a lite filter group, the filter id of the first subscription
    and that of the second are both mapped to that group: an event for
    a key with a registered key group that carries both ids calls each
    of the two listeners of the filter group twice, although each is a
    member of that one group only.  So does an event that carries one
    mapped filter id twice. *)
Lemma repeated_group_is_notified_twice :
  (keyMap upgraded_filter_group !! "b" = Some 1%nat
   /\ filterId2ListenerGroup upgraded_filter_group !! 0%Z = Some 0%nat
   /\ filterId2ListenerGroup upgraded_filter_group !! 2%Z = Some 0%nat
   /\ groups_of 1 upgraded_filter_group = [0%nat]
   /\ groups_of 2 upgraded_filter_group = [0%nat]
   /\ called
        (drop (length (trace upgraded_filter_group))
           (trace (handleResponse example_json (EVENT (Some inserted_both_ids))
                     upgraded_filter_group)))
      = [1; 2; 1; 2; 3]%nat)
  /\ (keyMap listening !! "a" = Some 0%nat
      /\ filterId2ListenerGroup listening !! 0%Z = Some 1%nat
      /\ groups_of 2 listening = [1%nat]
      /\ called
           (drop (length (trace listening))
              (trace (handleResponse example_json (EVENT (Some inserted_same_id_twice))
                        listening)))
         = [2; 2; 1]%nat).
Proof. split; by vm_compute. Qed.

(** When close was not requested, [onError] emits ['error'] and does
    nothing else. *)
Lemma onError_only_emits err st :
  markedForClose st = false ->
  onError err st
  = set_trace (trace st ++ [Emit "error" [JStr (cacheName st); JStr err]]) st.
Proof. intros Hm. unfold onError. by rewrite Hm. Qed.

(** C3, on the code: a stream error without a requested close emits
    ['error'] with the cache name and the error and leaves the indices
    alone, but no pending callback is called and the pending map keeps
    its entries. *)
Theorem onError_keeps_pending_callbacks :
  markedForClose awaiting_init = false
  /\ pendingSubscriptions awaiting_init !! "uid-0" = Some (InitCallback 0)
  /\ pendingSubscriptions (onError "UNAVAILABLE" awaiting_init) !! "uid-0"
     = Some (InitCallback 0)
  /\ pendingSubscriptions (onError "UNAVAILABLE" awaiting_init) <> ∅
  /\ trace (onError "UNAVAILABLE" awaiting_init)
     = trace awaiting_init ++ [Emit "error" [JStr "orders"; JStr "UNAVAILABLE"]]
  /\ (forall err st, markedForClose st = false ->
        pendingSubscriptions (onError err st) = pendingSubscriptions st
        /\ keyMap (onError err st) = keyMap st
        /\ filterMap (onError err st) = filterMap st
        /\ filterId2ListenerGroup (onError err st) = filterId2ListenerGroup st
        /\ groups (onError err st) = groups st
        /\ trace (onError err st)
           = trace st ++ [Emit "error" [JStr (cacheName st); JStr err]]).
Proof.
  split; [by vm_compute|]. split; [by vm_compute|]. split; [by vm_compute|].
  split.
  { intros Hempty.
    assert (pendingSubscriptions (onError "UNAVAILABLE" awaiting_init) !! "uid-0"
            = Some (InitCallback 0)) as Hlook by by vm_compute.
    rewrite Hempty in Hlook. by rewrite lookup_empty in Hlook. }
  split; [by vm_compute|].
  intros err st Hm. rewrite onError_only_emits by done. by repeat split.
Qed.

End FanOutFacts.

(** ** The event dispatcher: requests *)
Section RequestFacts.
Import Events.
Variable json : Json.

Lemma writes_app (a b : list Action) : writes (a ++ b) = writes a ++ writes b.
Proof.
  induction a as [|x a IH]; [done|]. destruct x; simpl; by rewrite ?IH.
Qed.

Lemma pending_after_app pending (a b : list Action) :
  pending_after pending (a ++ b) = pending_after (pending_after pending a) b.
Proof.
  revert pending. induction a as [|x a IH]; intros pending; [done|].
  destruct x; simpl; by rewrite ?IH.
Qed.

Lemma sends_ok_app pending (a b : list Action) :
  sends_ok pending (a ++ b)
  = sends_ok pending a && sends_ok (pending_after pending a) b.
Proof.
  revert pending. induction a as [|x a IH]; intros pending; [done|].
  destruct x; simpl; rewrite ?IH; try done. by rewrite andb_assoc.
Qed.

Lemma sends_ok_quiet pending (a : list Action) :
  writes a = [] -> sends_ok pending a = true.
Proof.
  revert pending. induction a as [|x a IH]; intros pending Hw; [done|].
  destruct x; simpl in *; try done; by apply IH.
Qed.



Lemma run_refl st : run st st [].
Proof. split; [done|]. exists []. unfold added. by rewrite app_nil_r. Qed.

Lemma run_trans st1 st2 st3 w1 w2 :
  run st1 st2 w1 -> run st2 st3 w2 -> run st1 st3 (w1 ++ w2).
Proof.
  intros (Hg1 & a1 & Ha1 & Hw1 & Hok1) (Hg2 & a2 & Ha2 & Hw2 & Hok2).
  split; [congruence|]. exists (a1 ++ a2). unfold added in *. split; [|split].
  - by rewrite Ha2, Ha1, app_assoc.
  - by rewrite writes_app, Hw1, Hw2.
  - intros pending. by rewrite sends_ok_app, Hok1, Hok2.
Qed.

Lemma run_quiet st1 st2 st3 w :
  run st1 st2 [] -> run st2 st3 w -> run st1 st3 w.
Proof. intros H1 H2. apply (run_trans _ _ _ [] w H1 H2). Qed.

Lemma run_then_quiet st1 st2 st3 w :
  run st1 st2 w -> run st2 st3 [] -> run st1 st3 w.
Proof.
  intros H1 H2. rewrite <- (app_nil_r w). apply (run_trans _ _ _ w [] H1 H2).
Qed.

(** A state that differs in the trace only, by actions that write
    nothing. *)
Lemma run_set_trace st (actions : list Action) :
  writes actions = [] -> run st (set_trace (trace st ++ actions) st) [].
Proof.
  intros Hw. split; [done|]. exists actions. split; [done|]. split; [done|].
  intros pending. by apply sends_ok_quiet.
Qed.

Lemma run_perform st a :
  writes [a] = [] -> run st (perform a st) [].
Proof. intros Hw. by apply run_set_trace. Qed.

Lemma run_same_trace st st' :
  groups st' = groups st -> trace st' = trace st -> run st st' [].
Proof.
  intros Hg Ht. split; [done|]. exists []. unfold added.
  by rewrite app_nil_r.
Qed.

Lemma run_pending_set uid callback st : run st (pending_set uid callback st) [].
Proof.
  eapply run_quiet; [|by apply run_perform]. by apply run_same_trace.
Qed.

Lemma run_pending_delete uid st : run st (pending_delete uid st) [].
Proof.
  eapply run_quiet; [|by apply run_perform]. by apply run_same_trace.
Qed.

Lemma run_emit event args st : run st (emit event args st) [].
Proof. by apply run_perform. Qed.

Lemma run_run_callback callback uid st : run st (run_callback callback uid st) [].
Proof.
  destruct callback as [stream|request]; simpl.
  - eapply run_quiet; [apply run_pending_delete|]. by apply run_same_trace.
  - destruct (1 <? _)%Z.
    + eapply run_quiet; [apply run_pending_delete|]. by apply run_perform.
    + apply run_pending_delete.
Qed.

Lemma writes_deliveries mapEvent group : writes (deliveries mapEvent group) = [].
Proof.
  unfold deliveries. by induction (JsMap.keys (listeners group)).
Qed.

Lemma writes_fan_out mapEvent (gs : list ListenerGroup) :
  writes (flat_map (deliveries mapEvent) gs) = [].
Proof.
  induction gs as [|g gs IH]; [done|]. simpl.
  by rewrite writes_app, writes_deliveries, IH.
Qed.

Lemma run_handleResponse resp st : run st (handleResponse json resp st) [].
Proof.
  assert (forall uid,
            run st (if String.eqb uid "" then st
                    else match pendingSubscriptions st !! uid with
                         | Some callback => run_callback callback uid (pending_delete uid st)
                         | None => pending_delete uid st
                         end) []) as Hack.
  { intros uid. destruct (String.eqb uid ""); [apply run_refl|].
    destruct (pendingSubscriptions st !! uid).
    - eapply run_quiet; [apply run_pending_delete|apply run_run_callback].
    - apply run_pending_delete. }
  destruct resp as [uid|uid| | |[event|]|]; try apply Hack;
    try apply run_emit; try apply run_refl.
  rewrite handleResponse_event_eq. apply run_set_trace.
  rewrite writes_app, writes_fan_out. by destruct (0 <? debugLevel st)%Z.
Qed.

Lemma run_stream_settled promise st : run st (stream_settled json promise st) [].
Proof.
  unfold stream_settled. destruct (bool_decide _); [apply run_refl|].
  apply run_handleResponse.
Qed.

Lemma run_run_job st job : run st (run_job json st job) [].
Proof.
  destruct job as [promise]. unfold run_job.
  eapply run_quiet; [apply run_stream_settled|].
  eapply (run_quiet _ (perform (StreamCancel (sp_stream promise)) _));
    [by apply run_perform|by apply run_same_trace].
Qed.

Lemma run_fold_jobs (js : list Job) st : run st (fold_left (run_job json) js st) [].
Proof.
  revert st. induction js as [|j js IH]; intros st; simpl; [apply run_refl|].
  eapply run_quiet; [apply run_run_job|apply IH].
Qed.

Lemma run_drain st : run st (drain json st) [].
Proof.
  unfold drain. eapply run_quiet; [|apply run_fold_jobs]. by apply run_same_trace.
Qed.

Lemma run_close st : run st (close st) [].
Proof. unfold close. destruct (streamPromise st); by apply run_same_trace. Qed.

Lemma run_checkAndCloseEventStream st : run st (checkAndCloseEventStream st) [].
Proof.
  unfold checkAndCloseEventStream. destruct (_ && _); [apply run_close|apply run_refl].
Qed.

Lemma run_keyGroupUnsubscribed key st : run st (keyGroupUnsubscribed json key st) [].
Proof.
  unfold keyGroupUnsubscribed.
  eapply run_quiet; [|apply run_checkAndCloseEventStream]. by apply run_same_trace.
Qed.

Lemma run_filterGroupSubscribed filterId group st :
  run st (filterGroupSubscribed filterId group st) [].
Proof. by apply run_same_trace. Qed.

Lemma run_filterGroupUnsubscribed filterId filter st :
  run st (filterGroupUnsubscribed json filterId filter st) [].
Proof.
  unfold filterGroupUnsubscribed.
  eapply run_quiet; [|apply run_checkAndCloseEventStream]. by apply run_same_trace.
Qed.

Lemma run_postSubscribe this group request st :
  run st (postSubscribe this group request st) [].
Proof.
  unfold postSubscribe. destruct (keyOrFilter group);
    [apply run_refl|apply run_filterGroupSubscribed].
Qed.

Lemma run_postUnsubscribe this group request st :
  run st (postUnsubscribe json this group request st) [].
Proof.
  unfold postUnsubscribe. destruct (keyOrFilter group).
  - destruct (getType request); try apply run_refl. apply run_keyGroupUnsubscribed.
  - apply run_filterGroupUnsubscribed.
Qed.

(** [ensureStream] writes nothing when the stream exists; otherwise it
    opens a stream, registers the pending callback of the INIT request
    and then writes that request. *)
Lemma ensureStream_added st :
  match streamPromise st with
  | Some promise => ensureStream st = (promise, st)
  | None =>
      let init := (mapEventSubscribe (requests st)).1 in
      added st (ensureStream st).2
        [StreamOpen (next_stream st); PendingSet (getUid init);
         StreamWrite (next_stream st) init]
      /\ is_INIT init = true
      /\ (ensureStream st).1 = mkStreamPromise (next_stream st) (getUid init)
      /\ groups (ensureStream st).2 = groups st
  end.
Proof.
  unfold ensureStream. destruct (streamPromise st); [done|].
  simpl. unfold added. simpl. by rewrite <- !app_assoc.
Qed.

Lemma run_ensureStream st :
  exists inits, Forall (fun r => is_INIT r = true) inits
                /\ run st (ensureStream st).2 inits.
Proof.
  pose proof (ensureStream_added st) as H.
  destruct (streamPromise st) as [promise|].
  - exists []. rewrite H. split; [constructor|apply run_refl].
  - destruct H as (Hadd & Hinit & _ & Hg).
    exists [(mapEventSubscribe (requests st)).1]. split; [by repeat constructor|].
    split; [done|]. eexists. split; [exact Hadd|]. split; [done|].
    intros pending. simpl. rewrite String.eqb_refl. done.
Qed.

(** [send] registers the pending callback of the request and then
    writes the request. *)
Lemma send_added stream request st :
  added st (send stream request st)
    ([PendingSet (getUid request)]
     ++ (if (1 <? debugLevel st)%Z
         then [Console ("Sending request: " +:+ getUid request)] else [])
     ++ [StreamWrite stream request])
  /\ groups (send stream request st) = groups st.
Proof.
  unfold send, added. simpl. destruct (1 <? debugLevel st)%Z; simpl;
    by rewrite <- !app_assoc.
Qed.

Lemma run_send stream request st : run st (send stream request st) [request].
Proof.
  destruct (send_added stream request st) as [Hadd Hg].
  split; [done|]. eexists. split; [exact Hadd|].
  split; [by destruct (1 <? debugLevel st)%Z|].
  intros pending. destruct (1 <? debugLevel st)%Z; simpl;
    by rewrite String.eqb_refl.
Qed.

(** [writeRequest] writes the request, after the INIT request when it
    had to open the stream, and nothing else. *)
Lemma run_writeRequest request st :
  exists inits, Forall (fun r => is_INIT r = true) inits
                /\ run st (writeRequest json request st) (inits ++ [request]).
Proof.
  destruct (run_ensureStream st) as (inits & Hinits & Hrun).
  exists inits. split; [done|]. unfold writeRequest.
  destruct (ensureStream st) as [promise st1]. simpl in Hrun.
  eapply run_then_quiet; [|apply run_handleResponse].
  eapply run_then_quiet; [|apply run_drain].
  eapply run_trans; [|apply run_send].
  eapply run_then_quiet; [|apply run_stream_settled].
  eapply run_then_quiet; [exact Hrun|apply run_drain].
Qed.


(** *** Requests of a listener group *)

Lemma mapListenerRequest_request subscribe keyOrFilter isLite factory :
  let request := (mapListenerRequest subscribe keyOrFilter isLite factory).1 in
  getSubscribe request = subscribe
  /\ getLite request = default false isLite
  /\ target request = Some keyOrFilter
  /\ is_INIT request = false.
Proof. by destruct keyOrFilter. Qed.

Lemma group_requests_app (a b : list Action) :
  group_requests (a ++ b) = group_requests a ++ group_requests b.
Proof. unfold group_requests. by rewrite writes_app, List.filter_app. Qed.

Lemma filter_inits (inits : list MapListenerRequest) request :
  Forall (fun r => is_INIT r = true) inits -> is_INIT request = false ->
  List.filter (fun r => negb (is_INIT r)) (inits ++ [request]) = [request].
Proof.
  intros Hinits Hreq. rewrite List.filter_app. simpl. rewrite Hreq. simpl.
  induction Hinits as [|r inits Hr _ IH]; [done|]. simpl. by rewrite Hr.
Qed.

Lemma run_issues st st' inits request group subscribe isLite :
  Forall (fun r => is_INIT r = true) inits ->
  run st st' (inits ++ [request]) ->
  is_INIT request = false ->
  getSubscribe request = subscribe -> getLite request = isLite ->
  target request = Some (keyOrFilter group) ->
  issues st st' group subscribe isLite.
Proof.
  intros Hinits (Hg & actions & Hadd & Hw & _) Hni Hs Hl Ht.
  split; [done|]. exists actions, request. split; [done|].
  split; [|done]. unfold group_requests. rewrite Hw. by apply filter_inits.
Qed.

Lemma doUnsubscribe_issues closeStreamIfPossible this group st :
  groups st !! this = Some group ->
  issues st (doUnsubscribe json closeStreamIfPossible this st) group false false.
Proof.
  intros Hthis. unfold doUnsubscribe. rewrite Hthis.
  pose proof (mapListenerRequest_request false (keyOrFilter group) None (requests st))
    as (Hs & Hl & Ht & Hni).
  destruct (mapListenerRequest false (keyOrFilter group) None (requests st))
    as [request factory]. simpl in *.
  destruct (run_writeRequest request (set_requests factory st)) as (inits & Hinits & Hrun).
  apply (run_issues _ _ inits request); try done.
  eapply run_quiet; [by apply run_same_trace|].
  eapply run_then_quiet; [exact Hrun|].
  eapply run_quiet; [apply run_postUnsubscribe|].
  destruct closeStreamIfPossible; [apply run_checkAndCloseEventStream|apply run_refl].
Qed.

Lemma doSubscribe_issues isLite this group st :
  groups st !! this = Some group ->
  issues st (doSubscribe json isLite this st) group true isLite.
Proof.
  intros Hthis. unfold doSubscribe. rewrite Hthis.
  pose proof (mapListenerRequest_request true (keyOrFilter group) (Some isLite) (requests st))
    as (Hs & Hl & Ht & Hni).
  destruct (mapListenerRequest true (keyOrFilter group) (Some isLite) (requests st))
    as [request factory]. simpl in *.
  destruct (run_writeRequest request (set_requests factory st)) as (inits & Hinits & Hrun).
  apply (run_issues _ _ inits request); try done.
  eapply run_quiet; [by apply run_same_trace|].
  eapply run_then_quiet; [exact Hrun|apply run_postSubscribe].
Qed.

Lemma issues_then_quiet st st' st'' group subscribe isLite :
  issues st st' group subscribe isLite -> run st' st'' [] ->
  issues st st'' group subscribe isLite.
Proof.
  intros (Hg & actions & request & Hadd & Hreq & Hrest) (Hg' & quiet & Hadd' & Hw & _).
  split; [congruence|]. exists (actions ++ quiet), request.
  unfold added in *. split; [by rewrite Hadd', Hadd, app_assoc|].
  split; [|done]. rewrite group_requests_app, Hreq. unfold group_requests.
  by rewrite Hw.
Qed.

(** C2, on the code: in a ListenerGroup with [registeredIsLite = true],
    adding a listener with [isLite = false] that is not already
    registered so makes the group issue first an UNSUBSCRIBE and then a
    SUBSCRIBE with [lite = false], both for its key or filter, and no
    other request of its own, when the group holds more than one
    listener once the new one is inserted.  When the listener is the
    only one of the group, registered lite, and is added again with
    [isLite = false], the group issues the SUBSCRIBE with
    [lite = false] alone: the lite registration is not withdrawn,
    although the group now counts as registered non-lite.  Adding a
    listener that is already present with the same [isLite] flag issues
    nothing and changes nothing. *)
Theorem addListener_upgrades_lite_registration
    (st : MapEventsManager) (this : nat) (group : ListenerGroup) (listener : nat) :
  groups st !! this = Some group ->
  registeredIsLite group = true ->
  JsMap.get listener (listeners group) <> Some false ->
  ((1 < JsMap.size (JsMap.set listener false (listeners group)))%nat ->
   exists actions unsubscribe subscribe,
     added st (addListener json listener false this st) actions
     /\ group_requests actions = [unsubscribe; subscribe]
     /\ getSubscribe unsubscribe = false
     /\ target unsubscribe = Some (keyOrFilter group)
     /\ getSubscribe subscribe = true
     /\ getLite subscribe = false
     /\ target subscribe = Some (keyOrFilter group))
  /\ (listeners group = [(listener, true)] ->
      exists actions subscribe,
        added st (addListener json listener false this st) actions
        /\ group_requests actions = [subscribe]
        /\ getSubscribe subscribe = true
        /\ getLite subscribe = false
        /\ target subscribe = Some (keyOrFilter group)
        /\ (registeredIsLite <$> groups (addListener json listener false this st) !! this)
           = Some false)
  /\ (forall l isLite,
        JsMap.get l (listeners group) = Some isLite ->
        addListener json l isLite this st = st).
Proof.
  intros Hthis Hlite Hprev.
  assert (match JsMap.get listener (listeners group) with
          | Some prevIsLite => Bool.eqb prevIsLite false
          | None => false
          end = false) as Hchange.
  { destruct (JsMap.get listener (listeners group)) as [[|]|]; done. }
  split; [|split].
  - intros Hsize. unfold addListener. rewrite Hthis, Hchange.
    cbn [listeners registeredIsLite keyOrFilter isActive isLiteFalseCount].
    rewrite Hlite, orb_true_r.
    apply Nat.ltb_lt in Hsize. rewrite Hsize.
    set (group' := mkGroup _ _ false _ _).
    set (st1 := set_groups _ st).
    assert (groups st1 !! this = Some group') as Hthis1 by apply lookup_insert_eq.
    pose proof (doUnsubscribe_issues false this group' st1 Hthis1) as Hunsub.
    apply (issues_then_quiet _ _ (drain json (doUnsubscribe json false this st1)))
      in Hunsub; [|apply run_drain].
    set (st2 := drain json (doUnsubscribe json false this st1)) in *.
    destruct Hunsub as (Hg2 & a1 & unsub & Hadd1 & Hreq1 & Hs1 & _ & Ht1).
    assert (groups st2 !! this = Some group') as Hthis2 by by rewrite Hg2.
    pose proof (doSubscribe_issues false this group' st2 Hthis2) as Hsub.
    apply (issues_then_quiet _ _ (drain json (doSubscribe json false this st2)))
      in Hsub; [|apply run_drain].
    destruct Hsub as (_ & a2 & sub & Hadd2 & Hreq2 & Hs2 & Hl2 & Ht2).
    exists (a1 ++ a2), unsub, sub. unfold added in *.
    split; [by rewrite Hadd2, Hadd1, app_assoc|].
    split; [by rewrite group_requests_app, Hreq1, Hreq2|]. done.
  - intros Hsole. unfold addListener. rewrite Hthis, Hchange.
    cbn [listeners registeredIsLite keyOrFilter isActive isLiteFalseCount].
    rewrite Hlite, orb_true_r, Hsole. simpl JsMap.set.
    rewrite decide_True by done. cbn [JsMap.size length Nat.ltb Nat.leb].
    set (group' := mkGroup _ _ false _ _).
    set (st1 := set_groups _ st).
    assert (groups st1 !! this = Some group') as Hthis1 by apply lookup_insert_eq.
    pose proof (doSubscribe_issues false this group' st1 Hthis1) as Hsub.
    apply (issues_then_quiet _ _ (drain json (doSubscribe json false this st1)))
      in Hsub; [|apply run_drain].
    destruct Hsub as (Hg & a & sub & Hadd & Hreq & Hs & Hl & Ht).
    exists a, sub. split; [done|]. split; [done|]. split; [done|].
    split; [done|]. split; [done|]. by rewrite Hg, Hthis1.
  - intros l isLite Hl. unfold addListener. rewrite Hthis, Hl.
    by rewrite eqb_reflx.
Qed.

End RequestFacts.

(** ** The event dispatcher: the default filter *)
Section DefaultFilterFacts.
Import Events.
Variable json : Json.

(** A null filter stands for the one default filter, a
    [MapEventFilter] with the key-set mask around the always filter. *)
Lemma null_filter_is_default listener isLite st :
  registerFilterListener json listener None isLite st
  = registerFilterListener json listener (Some DEFAULT_FILTER) isLite st
  /\ removeFilterListener json listener None st
     = removeFilterListener json listener (Some DEFAULT_FILTER) st
  /\ DEFAULT_FILTER
     = Filters.MapEventObject "filter.MapEventFilter" (inl Filters.E_KEYSET)
         (Some Filters.AlwaysFilter_INSTANCE).
Proof. repeat split. Qed.

(** A registration with a null filter joins the group that the filter
    index holds for the default filter, when there is one. *)
Lemma null_filter_joins_indexed_group listener isLite group st :
  filterMap st !! stringify_filter json DEFAULT_FILTER = Some group ->
  registerFilterListener json listener None isLite st
  = addListener json listener (default false isLite) group st
  /\ removeFilterListener json listener None st
     = removeListener json listener group st.
Proof.
  intros Hgroup. unfold registerFilterListener, removeFilterListener.
  by rewrite Hgroup.
Qed.

(** C10, on the code: the re-registration that the second listener
    causes runs [postUnsubscribe], which takes the group out of the
    filter index; the third registration with a null filter then creates
    a second group and sends a second SUBSCRIBE for the default filter,
    and a removal with a null filter looks into that second group, so the
    first listener stays where it is. *)
Theorem null_filter_registrations_split :
  (JsMap.keys <$> (listeners <$> groups null_registrations !! 1%nat)) = Some [1%nat; 2%nat]
  /\ (JsMap.keys <$> (listeners <$> groups null_registrations !! 2%nat)) = Some [3%nat]
  /\ filterMap null_registrations !! stringify_filter example_json DEFAULT_FILTER
     = Some 2%nat
  /\ map (fun r => (getSubscribe r, getLite r))
       (for_default_filter (group_requests (trace null_registrations)))
     = [(true, true); (false, false); (true, false); (true, false)]
  /\ removeFilterListener example_json 1 None null_registrations = null_registrations.
Proof.
  split; [by vm_compute|]. split; [by vm_compute|]. split; [by vm_compute|].
  split; by vm_compute.
Qed.

End DefaultFilterFacts.

Lemma handleResponse_event_fan_out_witness :
  Events.added Events.listening
    (Events.handleResponse Events.example_json
       (Events.EVENT (Some Events.inserted_a)) Events.listening)
    [Events.Call 2 Events.entryInserted (Events.mkMapEvent "orders" Events.inserted_a);
     Events.Call 1 Events.entryInserted (Events.mkMapEvent "orders" Events.inserted_a)].
Proof.
  apply (handleResponse_event_fan_out Events.example_json Events.listening
           Events.inserted_a).
  apply (bool_decide_unpack
           (map_Forall (fun (_ : nat) g => JsMap.wf (Events.listeners g))
              (Events.groups Events.listening))).
  vm_compute. exact I.
Defined.

Lemma addListener_upgrades_lite_registration_witness :
  exists actions subscribe,
    Events.added Events.lite_key_group
      (Events.addListener Events.example_json 1 false 0 Events.lite_key_group) actions
    /\ Events.group_requests actions = [subscribe]
    /\ Events.getSubscribe subscribe = true
    /\ Events.getLite subscribe = false
    /\ Events.target subscribe = Some (Events.AKey (JStr "k"))
    /\ (Events.registeredIsLite
          <$> Events.groups
                (Events.addListener Events.example_json 1 false 0 Events.lite_key_group)
              !! 0%nat)
       = Some false.
Proof.
  refine (proj1 (proj2 (addListener_upgrades_lite_registration Events.example_json
                          Events.lite_key_group 0
                          (Events.mkGroup true (Events.AKey (JStr "k")) true
                             [(1%nat, true)] 0)
                          1 _ _ _)) _).
  - reflexivity.
  - reflexivity.
  - discriminate.
  - reflexivity.
Defined.

(** * Further properties *)

(** ** Session configuration *)
Section MoreOptionsFacts.
Import Session.

(** X1: once [lock()] has run, no sequence of setter calls changes the
    options or the TLS options, and none throws, not even an address
    that the validation would refuse. *)
Theorem locked_options_are_frozen (ms : list Mutation) (o : Options) :
  mutate_all ms (lock o) = Normal (lock o).
Proof.
  induction ms as [|m ms IH]; [done|]. simpl.
  by rewrite lock_rejects_mutation.
Qed.

Lemma port_suffix_spec (s : string) :
  port_suffix s = true
  <-> all_digits s = true /\ (1 <= String.length s <= 5)%nat.
Proof.
  unfold port_suffix. rewrite !andb_true_iff, !Nat.leb_le. tauto.
Qed.

Lemma regexp_scan_spec (prev : option ascii) (s : string) :
  regexp_scan prev s = true
  <-> (exists p digits,
         prev = Some p /\ s = String ":" digits
         /\ is_space p = false /\ port_suffix digits = true)
      \/ (exists pre c digits,
            s = pre +:+ String c (String ":" digits)
            /\ is_space c = false /\ port_suffix digits = true).
Proof.
  revert prev. induction s as [|a s IH]; intros prev; simpl.
  - split; [done|]. intros [(p & d & _ & H & _)|(pre & c & d & H & _)]; [done|].
    by destruct pre.
  - rewrite orb_true_iff, IH. split.
    + intros [Hhere|[(p & d & Hp & -> & Hsp & Hd)|(pre & c & d & -> & Hsp & Hd)]].
      * destruct prev as [p|]; [|done].
        apply andb_true_iff in Hhere as [[Hsp Hc]%andb_true_iff Hd].
        apply Ascii.eqb_eq in Hc as ->. apply negb_true_iff in Hsp.
        left. by exists p, s.
      * injection Hp as <-. right. by exists EmptyString, a, d.
      * right. by exists (String a pre), c, d.
    + intros [(p & d & -> & Heq & Hsp & Hd)|(pre & c & d & Heq & Hsp & Hd)].
      * injection Heq as -> ->. left. rewrite Hsp, Hd. done.
      * destruct pre as [|b pre]; simpl in Heq; injection Heq as -> ->.
        -- right. left. by exists c, d.
        -- right. right. by exists pre, c, d.
Qed.

(** X2: the address setter accepts exactly the strings in which some
    character that is not white space is followed by a colon and by one
    to five digits that end the string; what comes before that character
    is not looked at. *)
Theorem address_accepted_iff (address : string) :
  ADDRESS_REGEXP_test address = true
  <-> exists pre c digits,
        address = pre +:+ String c (String ":" digits)
        /\ is_space c = false
        /\ all_digits digits = true
        /\ (1 <= String.length digits <= 5)%nat.
Proof.
  unfold ADDRESS_REGEXP_test. rewrite regexp_scan_spec. split.
  - intros [(p & d & Hp & _)|(pre & c & d & H & Hsp & Hd)]; [done|].
    apply port_suffix_spec in Hd. by exists pre, c, d.
  - intros (pre & c & d & H & Hsp & Hd & Hlen). right. exists pre, c, d.
    split; [done|]. split; [done|]. by apply port_suffix_spec.
Qed.

Lemma mutate_keeps_configuration (m : Mutation) (o o' : Options) :
  ADDRESS_REGEXP_test (_address o) = true ->
  le_zero (_requestTimeoutInMillis o) = false ->
  locked o = false ->
  mutate m o = Normal o' ->
  ADDRESS_REGEXP_test (_address o') = true
  /\ le_zero (_requestTimeoutInMillis o') = false
  /\ locked o' = false
  /\ _format o' = _format o
  /\ (m <> SetRequestTimeoutInMillis NaN ->
      unbounded_or_positive (_requestTimeoutInMillis o) ->
      unbounded_or_positive (_requestTimeoutInMillis o')).
Proof.
  intros Haddr Htime Hlock. destruct m as [a|timeout|c|v|v|v|v]; simpl;
    unfold set_address, set_requestTimeoutInMillis, set_callOptions, with_tls;
    rewrite ?Hlock.
  - destruct (ADDRESS_REGEXP_test a) eqn:Htest; simpl; [|done].
    by intros [= <-].
  - intros [= <-]. simpl.
    destruct timeout as [n| | |]; simpl.
    + destruct (n <=? 0)%Z eqn:Hle; simpl; [done|].
      split; [done|]. split; [done|]. split; [done|]. split; [done|].
      intros _ _. by apply Z.leb_gt in Hle.
    + done.
    + done.
    + repeat (split; [done|]). by intros Hne.
  - by intros [= <-].
  - by intros [= <-].
  - by intros [= <-].
  - by intros [= <-].
  - by intros [= <-].
Qed.
(** X3: whatever setters are called on a new [Options], in any order,
    the address it holds passes the validation, the format is still
    ["json"], and the timeout is never zero, negative or
    [-Infinity]: it is a positive number of milliseconds or unbounded,
    unless [NaN] was passed to the setter, which takes [NaN] for
    positive ([NaN <= 0] is false) and stores it as it is. *)
Theorem options_stay_valid (ms : list Mutation) (o : Options) :
  mutate_all ms new_Options = Normal o ->
  ADDRESS_REGEXP_test (_address o) = true
  /\ le_zero (_requestTimeoutInMillis o) = false
  /\ (SetRequestTimeoutInMillis NaN ∉ ms ->
      unbounded_or_positive (_requestTimeoutInMillis o))
  /\ mutate_all (ms ++ [SetRequestTimeoutInMillis NaN]) new_Options
     = Normal (mkOptions (_address o) NaN (_format o) (_callOptions o) false (_tls o))
  /\ _format o = "json".
Proof.
  assert (forall start,
            ADDRESS_REGEXP_test (_address start) = true ->
            le_zero (_requestTimeoutInMillis start) = false ->
            locked start = false ->
            mutate_all ms start = Normal o ->
            ADDRESS_REGEXP_test (_address o) = true
            /\ le_zero (_requestTimeoutInMillis o) = false
            /\ locked o = false
            /\ _format o = _format start
            /\ (SetRequestTimeoutInMillis NaN ∉ ms ->
                unbounded_or_positive (_requestTimeoutInMillis start) ->
                unbounded_or_positive (_requestTimeoutInMillis o))) as Hgen.
  { induction ms as [|m ms IH]; intros start Ha Ht Hl; simpl.
    - by intros [= <-].
    - destruct (mutate m start) as [o1|] eqn:Hm; [|done].
      destruct (mutate_keeps_configuration m start o1 Ha Ht Hl Hm)
        as (Ha1 & Ht1 & Hl1 & Hf1 & Hp1).
      intros Hrest. destruct (IH o1 Ha1 Ht1 Hl1 Hrest) as (Ha2 & Ht2 & Hl2 & Hf2 & Hp2).
      split; [done|]. split; [done|]. split; [done|]. split; [congruence|].
      intros Hnot Hstart. apply not_elem_of_cons in Hnot as [Hne Hnot].
      apply Hp2; [done|]. apply Hp1; [congruence|done]. }
  assert (forall start last,
            mutate_all ms start = Normal o ->
            mutate_all (ms ++ [last]) start = mutate last o) as Hlast.
  { clear Hgen. induction ms as [|m ms IH]; intros start last; simpl.
    - intros [= <-]. by destruct (mutate last start).
    - destruct (mutate m start) as [o1|]; [|done]. apply IH. }
  intros Hrun.
  destruct (Hgen new_Options eq_refl eq_refl eq_refl Hrun) as (Ha & Ht & Hl & Hf & Hp).
  split; [done|]. split; [done|]. split; [by intros Hnot; apply Hp|].
  split; [|done].
  rewrite (Hlast new_Options _ Hrun). simpl. unfold set_requestTimeoutInMillis.
  by rewrite Hl.
Qed.

Lemma readFile_Normal readFileSync certType path data :
  readFile readFileSync certType path = Normal data
  <-> readable readFileSync path data.
Proof.
  unfold readFile, readable. destruct path as [p|].
  - destruct (String.eqb p "") eqn:Hp.
    + apply String.eqb_eq in Hp as ->. split; [done|].
      by intros (p & [= <-] & Hne & _).
    + apply String.eqb_neq in Hp. destruct (readFileSync p) as [d|] eqn:Hd.
      * split.
        -- intros [= <-]. by exists p.
        -- intros (p' & [= <-] & _ & Hd'). congruence.
      * split; [done|]. intros (p' & [= <-] & _ & Hd'). congruence.
  - split; [done|]. by intros (p & Hp & _).
Qed.

(** X4: with TLS disabled the constructor of [Session] builds an
    insecure channel to the address of the options and reads no file;
    with TLS enabled it succeeds exactly when the CA certificate, the
    client key and the client certificate paths are set, not empty and
    readable, and the credentials are made of their contents, in that
    order; a missing CA path is reported first. *)
Theorem new_Session_credentials (readFileSync : PathLike -> option string)
    (ref : nat) (store : gmap nat Options) (o : Options) :
  store !! ref = Some o ->
  (_enabled (_tls o) = false ->
   new_Session readFileSync (Some ref) store
   = Normal (mkSession false false [] ref Insecure (_address o) false 0 []))
  /\ (_enabled (_tls o) = true ->
      (forall s,
         new_Session readFileSync (Some ref) store = Normal s
         <-> exists ca key cert,
               readable readFileSync (_caCertPath (_tls o)) ca
               /\ readable readFileSync (_clientKeyPath (_tls o)) key
               /\ readable readFileSync (_clientCertPath (_tls o)) cert
               /\ s = mkSession false false [] ref (Ssl ca key cert) (_address o)
                        false 0 [])
      /\ (_caCertPath (_tls o) = None ->
          new_Session readFileSync (Some ref) store
          = Throw "When TLS is enabled, caCert cannot be undefined or null")).
Proof.
  intros Href. unfold new_Session. simpl. rewrite Href. split.
  - by intros ->.
  - intros ->. split.
    + intros s.
      pose proof (readFile_Normal readFileSync "caCert" (_caCertPath (_tls o))) as Hca.
      pose proof (readFile_Normal readFileSync "clientKey" (_clientKeyPath (_tls o))) as Hkey.
      pose proof (readFile_Normal readFileSync "clientCert" (_clientCertPath (_tls o))) as Hcert.
      destruct (readFile readFileSync "caCert" _) as [ca|e1].
      * destruct (readFile readFileSync "clientKey" _) as [key|e2].
        -- destruct (readFile readFileSync "clientCert" _) as [cert|e3].
           ++ split.
              ** intros [= <-]. exists ca, key, cert.
                 split; [by apply Hca|]. split; [by apply Hkey|].
                 split; [by apply Hcert|done].
              ** intros (ca' & key' & cert' & H1 & H2 & H3 & ->).
                 apply Hca in H1. apply Hkey in H2. apply Hcert in H3.
                 injection H1 as ->. injection H2 as ->. injection H3 as ->.
                 reflexivity.
           ++ split; [done|]. intros (ca' & key' & cert' & _ & _ & H3 & _).
              by apply Hcert in H3.
        -- split; [done|]. intros (ca' & key' & cert' & _ & H2 & _).
           by apply Hkey in H2.
      * split; [done|]. intros (ca' & key' & cert' & H1 & _).
        by apply Hca in H1.
    + by intros ->.
Qed.

End MoreOptionsFacts.

Lemma options_stay_valid_witness :
  Session.ADDRESS_REGEXP_test "grid.example.com:9000" = true
  /\ Session.le_zero Session.POSITIVE_INFINITY = false
  /\ (Session.SetRequestTimeoutInMillis Session.NaN
        ∉ [Session.SetAddress "grid.example.com:9000";
           Session.SetRequestTimeoutInMillis (Session.Millis (-3))] ->
      Session.unbounded_or_positive Session.POSITIVE_INFINITY)
  /\ Session.mutate_all
       ([Session.SetAddress "grid.example.com:9000";
         Session.SetRequestTimeoutInMillis (Session.Millis (-3))]
        ++ [Session.SetRequestTimeoutInMillis Session.NaN])
       Session.new_Options
     = Normal (Session.mkOptions "grid.example.com:9000" Session.NaN "json"
                 Session.DeadlineFromTimeout false Session.new_TlsOptions)
  /\ "json" = "json".
Proof.
  apply (options_stay_valid
           [Session.SetAddress "grid.example.com:9000";
            Session.SetRequestTimeoutInMillis (Session.Millis (-3))]
           (Session.mkOptions "grid.example.com:9000" Session.POSITIVE_INFINITY "json"
              Session.DeadlineFromTimeout false Session.new_TlsOptions)).
  reflexivity.
Defined.

Lemma new_Session_credentials_witness :
  Session.new_Session Session.with_certificates (Some 0%nat) Session.initial_store
  = Normal (Session.mkSession false false [] 0 Session.Insecure "localhost:1408"
              false 0 []).
Proof.
  refine (proj1 (new_Session_credentials Session.with_certificates 0
                   Session.initial_store Session.new_Options _) _); reflexivity.
Defined.

(** ** Sessions *)
Section MoreSessionFacts.
Import Session.
Variable registered : string -> bool.

Lemma JsMap_set_notin {V : Type} (k : string) (v : V) (m : JsMap.t string V) :
  k ∉ JsMap.keys m -> JsMap.set k v m = m ++ [(k, v)].
Proof.
  induction m as [|[k' v'] m IH]; simpl; [done|].
  rewrite not_elem_of_cons. intros [Hne Hnin].
  rewrite decide_False by done. f_equal. by apply IH.
Qed.

Lemma JsMap_delete_Forall {V : Type} (P : string * V -> Prop) (k : string)
    (m : JsMap.t string V) :
  Forall P m -> Forall P (JsMap.delete k m).
Proof.
  induction 1 as [|[k' v'] m HP _ IH]; simpl; [done|].
  destruct (decide (k' = k)); [done|]. by constructor.
Qed.

Lemma JsMap_delete_sublist {V : Type} (k : string) (m : JsMap.t string V) :
  sublist (JsMap.delete k m) m.
Proof.
  induction m as [|[k' v'] m IH]; simpl; [done|].
  destruct (decide (k' = k)); [by apply sublist_cons|by apply sublist_skip].
Qed.

Lemma JsMap_get_app_notin {V : Type} (k : string) (a b : JsMap.t string V) :
  k ∉ JsMap.keys a -> JsMap.get k (a ++ b) = JsMap.get k b.
Proof.
  induction a as [|[k' v'] a IH]; simpl; [done|].
  rewrite not_elem_of_cons. intros [Hne Hnin].
  rewrite decide_False by done. by apply IH.
Qed.

Lemma JsMap_delete_middle {V : Type} (k : string) (v : V) (a b : JsMap.t string V) :
  k ∉ JsMap.keys a -> k ∉ JsMap.keys b ->
  JsMap.delete k (a ++ (k, v) :: b) = a ++ b.
Proof.
  intros Ha Hb. induction a as [|[k' v'] a IH]; simpl.
  - rewrite decide_True by done. by apply JsMap_delete_notin.
  - simpl in Ha. apply not_elem_of_cons in Ha as [Hne Ha].
    rewrite decide_False by done. f_equal. by apply IH.
Qed.

(** *** What every session keeps *)

Lemma invariant_delete key s :
  markedForClose s = false -> invariant s ->
  invariant (set_caches (JsMap.delete key (caches s)) s).
Proof.
  intros Hm (Hwf & Hkeyed & Hids & Hnext & Hclosed & Hempty).
  split; [by apply JsMap_wf_delete|].
  split; [by apply JsMap_delete_Forall|].
  split.
  { eapply sublist_NoDup; [exact Hids|].
    apply (fmap_sublist _). apply JsMap_delete_sublist. }
  split; [by apply JsMap_delete_Forall|].
  split; [done|]. simpl. intros Hm'. congruence.
Qed.

Lemma invariant_emit a s :
  markedForClose s = false -> invariant s -> invariant (emit a s).
Proof.
  intros Hm Hinv. unfold emit, closed_listener. simpl. rewrite Hm. simpl.
  destruct Hinv as (Hwf & Hkeyed & Hids & Hnext & Hclosed & Hempty).
  by repeat split.
Qed.

Lemma invariant_destroyed_loop cacheName todo s :
  markedForClose s = false -> invariant s ->
  invariant (destroyed_loop cacheName todo s)
  /\ markedForClose (destroyed_loop cacheName todo s) = false.
Proof.
  revert s. induction todo as [|k todo IH]; intros s Hm Hinv; simpl; [done|].
  destruct (JsMap.get k (caches s)); [|by apply IH].
  destruct (isKeyForCacheName k cacheName); [|by apply IH].
  apply IH.
  - by rewrite markedForClose_emit.
  - apply invariant_emit; [done|]. by apply invariant_delete.
Qed.

Lemma invariant_marked e s :
  markedForClose s = true -> invariant s ->
  invariant (step registered s e) /\ markedForClose (step registered s e) = true.
Proof.
  intros Hm Hinv. pose proof Hinv as (_ & _ & _ & _ & Hclosed & Hempty).
  specialize (Hempty Hm).
  destruct e as [name format| |cacheName|cacheName format]; simpl.
  - unfold getCache. by rewrite Hm.
  - unfold close. by rewrite Hm.
  - unfold on_cache_DESTROYED. by rewrite Hempty.
  - unfold on_cache_RELEASED. rewrite markedForClose_emit. simpl.
    split; [|done]. unfold invariant, caches_keyed.
    rewrite caches_emit, markedForClose_emit. simpl. rewrite Hempty, Hm. simpl.
    split; [constructor|]. split; [constructor|]. split; [constructor|].
    split; [constructor|]. split; [|done].
    apply closed_emit_empty; simpl; done.
Qed.

Lemma invariant_getCache name format s :
  markedForClose s = false -> invariant s ->
  invariant (getCache registered name format s).2
  /\ markedForClose (getCache registered name format s).2 = false.
Proof.
  intros Hm Hinv.
  destruct (getCache_keeps_registry registered name format s) as [Hkeyed' Hwf'];
    [apply Hinv|apply Hinv|].
  pose proof Hinv as (Hwf & Hkeyed & Hids & Hnext & Hclosed & Hempty).
  revert Hkeyed' Hwf'. unfold getCache. rewrite Hm, Hclosed, Hm.
  destruct (negb _); [done|].
  destruct (JsMap.get _ (caches s)) eqn:Hget; [done|]. simpl.
  intros Hkeyed' Hwf'. apply JsMap_get_None_keys in Hget.
  rewrite JsMap_set_notin in * by done.
  split; [|done]. split; [done|]. split; [done|]. split.
  { simpl. rewrite map_app. simpl. apply NoDup_app. split; [done|].
    split; [|apply NoDup_singleton].
    intros x Hx Hx'. apply list_elem_of_singleton in Hx' as ->.
    apply list_elem_of_fmap in Hx as ([k c] & Heq & Hin). simpl in Heq.
    apply (proj1 (Forall_forall _ _) Hnext) in Hin. simpl in Hin. lia. }
  split.
  { apply Forall_app. split.
    - eapply Forall_impl; [exact Hnext|]. simpl. intros; lia.
    - repeat constructor; simpl; lia. }
  done.
Qed.

Lemma invariant_close s :
  markedForClose s = false -> invariant s ->
  invariant (close s) /\ markedForClose (close s) = true.
Proof.
  intros Hm (Hwf & Hkeyed & _).
  set (s0 := mkSession true (_closed s) (caches s) (_sessionOptions s)
               (_channelCredentials s) (channel_target s)
               (sessionClosedPromise s) (next_cache s) (trace s)).
  destruct (release_loop_spec (caches s) s0) as (Hc & Hmk & _ & _);
    [done|done|done|done|].
  set (s' := release_loop (JsMap.keys (caches s)) s0) in *.
  assert (close s = emit Emit_CLOSED (perform ChannelClose s')) as ->.
  { unfold close. by rewrite Hm. }
  assert (caches (emit Emit_CLOSED (perform ChannelClose s')) = []) as Hc'.
  { by rewrite caches_emit. }
  split; [|by rewrite markedForClose_emit].
  unfold invariant, caches_keyed. rewrite Hc', markedForClose_emit. simpl.
  rewrite Hmk.
  split; [constructor|]. split; [constructor|]. split; [constructor|].
  split; [constructor|]. split; [|done]. by apply closed_emit_empty.
Qed.

Lemma invariant_step e s : invariant s -> invariant (step registered s e).
Proof.
  intros Hinv. destruct (markedForClose s) eqn:Hm.
  { by apply invariant_marked. }
  destruct e as [name format| |cacheName|cacheName format]; simpl.
  - by apply invariant_getCache.
  - by apply invariant_close.
  - by apply invariant_destroyed_loop.
  - apply invariant_emit; [done|]. by apply invariant_delete.
Qed.

Lemma invariant_steps es s : invariant s -> invariant (steps registered es s).
Proof.
  revert s. induction es as [|e es IH]; intros s Hinv; [done|].
  simpl. apply IH. by apply invariant_step.
Qed.

Lemma invariant_new_Session readFileSync sessionOptions store s :
  new_Session readFileSync sessionOptions store = Normal s -> invariant s.
Proof.
  intros (_ & Hm & Hc & Hcaches & _)%new_Session_keeps_reference.
  unfold invariant, JsMap.wf, caches_keyed. rewrite Hm, Hc, Hcaches.
  repeat split; by constructor.
Qed.

(** X5: whatever calls and cache events follow the construction of a
    session, the keys of its registry stay distinct, every cache sits
    under the key made of its own name and format, the registered caches
    are distinct objects, the session is closed exactly when it is
    marked for close, and then its registry is empty. *)
Theorem session_invariant (readFileSync : PathLike -> option string)
    (sessionOptions : option nat) (store : gmap nat Options)
    (s : Session) (es : list Step) :
  new_Session readFileSync sessionOptions store = Normal s ->
  invariant (steps registered es s).
Proof.
  intros Hnew. apply invariant_steps. by apply (invariant_new_Session _ _ _ _ Hnew).
Qed.

Lemma marked_stays_marked es s :
  invariant s -> markedForClose s = true ->
  markedForClose (steps registered es s) = true.
Proof.
  revert s. induction es as [|e es IH]; intros s Hinv Hm; [done|]. simpl.
  destruct (invariant_marked e s Hm Hinv) as [Hinv' Hm']. by apply IH.
Qed.

Lemma steps_app es1 es2 s :
  steps registered (es1 ++ es2) s = steps registered es2 (steps registered es1 s).
Proof. unfold steps. apply fold_left_app. Qed.

(** X6: once [close()] has been called, every later [getCache] throws
    ["Session is closing"] and changes nothing, whatever happened in
    between; and on no session that can be reached does [getCache] throw
    ["Session has been closed"]. *)
Theorem getCache_after_close (readFileSync : PathLike -> option string)
    (sessionOptions : option nat) (store : gmap nat Options)
    (s : Session) (before after : list Step) (name : string) (format : option string) :
  new_Session readFileSync sessionOptions store = Normal s ->
  getCache registered name format (steps registered (before ++ CallClose :: after) s)
  = (Throw "Session is closing", steps registered (before ++ CallClose :: after) s)
  /\ (getCache registered name format (steps registered before s)).1
     <> Throw "Session has been closed".
Proof.
  intros Hnew. split.
  - rewrite steps_app. simpl.
    pose proof (invariant_steps before s (invariant_new_Session _ _ _ _ Hnew))
      as Hinv1.
    set (s1 := steps registered before s) in *.
    assert (invariant (close s1) /\ markedForClose (close s1) = true) as [Hinv Hm].
    { destruct (markedForClose s1) eqn:Hm1.
      - unfold close. by rewrite Hm1.
      - by apply invariant_close. }
    change (fold_left (step registered) after (close s1))
      with (steps registered after (close s1)).
    unfold getCache. by rewrite marked_stays_marked.
  - pose proof (invariant_steps before s (invariant_new_Session _ _ _ _ Hnew))
      as (_ & _ & _ & _ & Hclosed & _).
    unfold getCache. destruct (markedForClose _); [done|].
    rewrite Hclosed. destruct (negb _); [done|].
    by destruct (JsMap.get _ _).
Qed.

(** X7: on every session that can be reached, [close()] ends with the
    session closed, marked for close and without active caches. *)
Theorem close_always_closes (readFileSync : PathLike -> option string)
    (sessionOptions : option nat) (store : gmap nat Options)
    (s : Session) (es : list Step) :
  new_Session readFileSync sessionOptions store = Normal s ->
  closed (close (steps registered es s)) = true
  /\ markedForClose (close (steps registered es s)) = true
  /\ activeCacheCount (close (steps registered es s)) = 0%nat.
Proof.
  intros Hnew. set (s' := close (steps registered es s)).
  pose proof (invariant_steps es s (invariant_new_Session _ _ _ _ Hnew)) as Hinv.
  assert (invariant s' /\ markedForClose s' = true) as [(_ & _ & _ & _ & Hc & He) Hm].
  { unfold s'. destruct (markedForClose (steps registered es s)) eqn:Hm1.
    - unfold close. by rewrite Hm1.
    - by apply invariant_close. }
  unfold closed, activeCacheCount. rewrite Hc, He; done.
Qed.

End MoreSessionFacts.

Lemma session_invariant_witness :
  Session.invariant
    (Session.steps Session.every_format
       [Session.CallGetCache "orders" None; Session.CallGetCache "orders" (Some "pof");
        Session.CacheDestroyed "orders"; Session.CallClose;
        Session.CacheReleased "orders" "json"]
       (Session.mkSession false false [] 0 Session.Insecure "localhost:1408" false 0 [])).
Proof.
  apply (session_invariant Session.every_format Session.no_files None
           Session.initial_store).
  by vm_compute.
Defined.

Lemma getCache_after_close_witness :
  Session.getCache Session.every_format "orders" None
    (Session.steps Session.every_format
       ([Session.CallGetCache "orders" None] ++
        Session.CallClose :: [Session.CacheReleased "orders" "json"])
       (Session.mkSession false false [] 0 Session.Insecure "localhost:1408" false 0 []))
  = (Throw "Session is closing",
     Session.steps Session.every_format
       ([Session.CallGetCache "orders" None] ++
        Session.CallClose :: [Session.CacheReleased "orders" "json"])
       (Session.mkSession false false [] 0 Session.Insecure "localhost:1408" false 0 []))
  /\ (Session.getCache Session.every_format "orders" None
        (Session.steps Session.every_format [Session.CallGetCache "orders" None]
           (Session.mkSession false false [] 0 Session.Insecure "localhost:1408" false 0 []))).1
     <> Throw "Session has been closed".
Proof.
  apply (getCache_after_close Session.every_format Session.no_files None
           Session.initial_store).
  by vm_compute.
Defined.

Lemma close_always_closes_witness :
  Session.closed
    (Session.close
       (Session.steps Session.every_format
          [Session.CallGetCache "orders" None; Session.CallGetCache "prices" None]
          (Session.mkSession false false [] 0 Session.Insecure "localhost:1408" false 0 [])))
  = true
  /\ Session.markedForClose
       (Session.close
          (Session.steps Session.every_format
             [Session.CallGetCache "orders" None; Session.CallGetCache "prices" None]
             (Session.mkSession false false [] 0 Session.Insecure "localhost:1408" false 0 [])))
     = true
  /\ Session.activeCacheCount
       (Session.close
          (Session.steps Session.every_format
             [Session.CallGetCache "orders" None; Session.CallGetCache "prices" None]
             (Session.mkSession false false [] 0 Session.Insecure "localhost:1408" false 0 [])))
     = 0%nat.
Proof.
  apply (close_always_closes Session.every_format Session.no_files None
           Session.initial_store).
  by vm_compute.
Defined.

(** *** The registry under cache events *)
Section MoreRegistryFacts.
Import Session.
Variable registered : string -> bool.

Lemma prefix_append_l (a b c : string) :
  String.prefix (a +:+ b) (a +:+ c) = String.prefix b c.
Proof.
  induction a as [|x a IH]; simpl; [done|].
  destruct (ascii_dec x x); [done|congruence].
Qed.

Lemma prefix_append_r (a b c : string) :
  String.prefix a b = true -> String.prefix a (b +:+ c) = true.
Proof.
  revert b. induction a as [|x a IH]; intros b.
  - by destruct (b +:+ c).
  - destruct b as [|y b]; simpl; [done|].
    destruct (ascii_dec x y); [by apply IH|done].
Qed.

Lemma isKeyForCacheName_own cacheName format :
  isKeyForCacheName (makeCacheKey cacheName format) cacheName = true.
Proof.
  unfold isKeyForCacheName, makeCacheKey.
  rewrite prefix_append_l. simpl. by destruct format.
Qed.

Lemma isKeyForCacheName_longer cacheName name format :
  String.prefix (cacheName +:+ ":") name = true ->
  isKeyForCacheName (makeCacheKey name format) cacheName = true.
Proof. intros Hpre. unfold isKeyForCacheName, makeCacheKey. by apply prefix_append_r. Qed.

Lemma destroyed_loop_filter cacheName (rest acc : JsMap.t string NamedCacheClient) s :
  caches s = acc ++ rest -> JsMap.wf (acc ++ rest) ->
  caches (destroyed_loop cacheName (JsMap.keys rest) s)
  = acc ++ List.filter (fun entry => negb (isKeyForCacheName entry.1 cacheName)) rest
  /\ trace (destroyed_loop cacheName (JsMap.keys rest) s)
     = trace s
       ++ repeat (Emit_DESTROYED cacheName)
            (length (List.filter (fun entry => isKeyForCacheName entry.1 cacheName) rest)).
Proof.
  revert acc s. induction rest as [|[k v] rest IH]; intros acc s Hc Hwf; simpl.
  - by rewrite Hc, !app_nil_r.
  - assert ((k ∉ JsMap.keys acc) /\ (k ∉ JsMap.keys rest)) as [Hacc Hrest].
    { unfold JsMap.wf, JsMap.keys in Hwf. rewrite map_app in Hwf. simpl in Hwf.
      apply NoDup_app in Hwf as (_ & Hdisj & Hnd). apply NoDup_cons in Hnd as [Hk _].
      split; [|done]. intros Hin. apply (Hdisj _ Hin), list_elem_of_here. }
    assert (JsMap.get k (caches s) = Some v) as ->.
    { rewrite Hc, JsMap_get_app_notin by done. simpl. by rewrite decide_True. }
    destruct (isKeyForCacheName k cacheName) eqn:Hpre; simpl.
    + destruct (IH acc (emit (Emit_DESTROYED cacheName)
                          (set_caches (JsMap.delete k (caches s)) s))) as [-> ->].
      * rewrite caches_emit. simpl. rewrite Hc. by apply JsMap_delete_middle.
      * unfold JsMap.wf, JsMap.keys in *. rewrite map_app in *. simpl in Hwf.
        apply NoDup_app in Hwf as (Ha & Hdisj & Hnd).
        apply NoDup_cons in Hnd as [_ Hnd]. apply NoDup_app. split; [done|].
        split; [|done]. intros x Hx Hx'. apply (Hdisj x Hx). by right.
      * split; [done|]. rewrite trace_emit. simpl. by rewrite <- app_assoc.
    + destruct (IH (acc ++ [(k, v)]) s) as [-> ->].
      * by rewrite <- app_assoc.
      * by rewrite <- app_assoc.
      * by rewrite <- app_assoc.
Qed.

Lemma on_cache_DESTROYED_filter cacheName s :
  JsMap.wf (caches s) ->
  caches (on_cache_DESTROYED cacheName s)
  = List.filter (fun entry => negb (isKeyForCacheName entry.1 cacheName)) (caches s)
  /\ trace (on_cache_DESTROYED cacheName s)
     = trace s
       ++ repeat (Emit_DESTROYED cacheName)
            (length (List.filter (fun entry => isKeyForCacheName entry.1 cacheName)
                       (caches s))).
Proof. intros Hwf. by apply (destroyed_loop_filter cacheName (caches s) []). Qed.

(** X8: a [DESTROYED] event for a cache name removes from the registry
    the entries whose key starts with the name and a colon, leaves the
    others in their order, and emits [DESTROYED] once for every entry it
    removes and nothing else. *)
Theorem destroyed_emits_once_per_entry (cacheName : string) (s : Session) :
  JsMap.wf (caches s) ->
  caches (on_cache_DESTROYED cacheName s)
  = List.filter (fun entry => negb (isKeyForCacheName entry.1 cacheName)) (caches s)
  /\ trace (on_cache_DESTROYED cacheName s)
     = trace s
       ++ repeat (Emit_DESTROYED cacheName)
            (activeCacheCount s - activeCacheCount (on_cache_DESTROYED cacheName s)).
Proof.
  intros Hwf. destruct (on_cache_DESTROYED_filter cacheName s Hwf) as [Hc Ht].
  split; [done|]. rewrite Ht. unfold activeCacheCount, JsMap.size. rewrite Hc.
  do 2 f_equal.
  pose proof (filter_length (fun entry : string * NamedCacheClient =>
                 isKeyForCacheName entry.1 cacheName) (caches s)) as Hlen.
  simpl in Hlen. lia.
Qed.

(** X9: on every session that can be reached, after a [DESTROYED] event
    for a cache name no active cache bears that name, in whatever
    format, nor a name that starts with it and a colon. *)
Theorem destroyed_reaches_colon_names (readFileSync : PathLike -> option string)
    (sessionOptions : option nat) (store : gmap nat Options)
    (s : Session) (es : list Step) (cacheName : string) :
  new_Session readFileSync sessionOptions store = Normal s ->
  Forall (fun cache : NamedCacheClient =>
            nc_name cache <> cacheName
            /\ String.prefix (cacheName +:+ ":") (nc_name cache) = false)
    (activeCaches (on_cache_DESTROYED cacheName (steps registered es s))).
Proof.
  intros Hnew.
  pose proof (invariant_steps registered es s (invariant_new_Session _ _ _ _ Hnew))
    as (Hwf & Hkeyed & _).
  destruct (on_cache_DESTROYED_filter cacheName _ Hwf) as [Hc _].
  unfold activeCaches. rewrite Hc. apply Forall_forall. intros cache Hin.
  apply list_elem_of_fmap in Hin as ([key c] & -> & Hin).
  apply list_elem_of_In, filter_In in Hin as [Hin Hpre]. simpl in *.
  apply (proj2 (list_elem_of_In _ _)) in Hin.
  apply (proj1 (Forall_forall _ _) Hkeyed) in Hin. simpl in Hin. subst key.
  apply negb_true_iff in Hpre. split.
  - intros Heq. rewrite Heq, isKeyForCacheName_own in Hpre. done.
  - destruct (String.prefix _ (nc_name c)) eqn:Hname; [|done].
    by rewrite (isKeyForCacheName_longer _ _ _ Hname) in Hpre.
Qed.

Lemma set_add_fold_spec (names acc : list string) :
  NoDup acc ->
  NoDup (fold_left set_add names acc)
  /\ (forall n, n ∈ fold_left set_add names acc <-> n ∈ acc \/ n ∈ names)
  /\ (length (fold_left set_add names acc) <= length acc + length names)%nat.
Proof.
  revert acc. induction names as [|x names IH]; intros acc Hnd; simpl.
  - split; [done|]. split; [|lia]. intros n. rewrite elem_of_nil. tauto.
  - assert (NoDup (set_add acc x)) as Hnd'.
    { unfold set_add. case_bool_decide as Hin; [done|].
      apply NoDup_app. split; [done|]. split; [|apply NoDup_singleton].
      intros y Hy ->%list_elem_of_singleton. done. }
    destruct (IH _ Hnd') as (H1 & H2 & H3). split; [done|]. split.
    + intros n. rewrite H2, elem_of_cons. unfold set_add.
      case_bool_decide as Hin.
      * split; [tauto|]. intros [?|[->|?]]; tauto.
      * rewrite elem_of_app, list_elem_of_singleton. tauto.
    + etrans; [exact H3|]. unfold set_add. case_bool_decide; [lia|].
      rewrite length_app. simpl. lia.
Qed.

(** X10: [activeCacheNames] holds every name once: it has no duplicates,
    a name is in it exactly when an active cache bears it, and it is
    never longer than [activeCacheCount], which is the length of
    [activeCaches]. *)
Theorem activeCacheNames_are_the_names (s : Session) :
  NoDup (activeCacheNames s)
  /\ (forall name, name ∈ activeCacheNames s
                   <-> exists cache, cache ∈ activeCaches s /\ nc_name cache = name)
  /\ (length (activeCacheNames s) <= activeCacheCount s)%nat
  /\ length (activeCaches s) = activeCacheCount s.
Proof.
  destruct (set_add_fold_spec (map nc_name (activeCaches s)) [])
    as (H1 & H2 & H3); [constructor|].
  split; [done|]. split; [|split].
  - intros name. unfold activeCacheNames. rewrite H2, elem_of_nil.
    change (map nc_name (activeCaches s)) with (nc_name <$> activeCaches s).
    rewrite list_elem_of_fmap. split.
    + intros [[]|(c & -> & Hc)]. by exists c.
    + intros (c & Hc & <-). right. by exists c.
  - unfold activeCacheNames, activeCacheCount, JsMap.size, activeCaches in *.
    rewrite !length_map in H3. simpl in H3. lia.
  - unfold activeCaches, activeCacheCount, JsMap.size. by rewrite length_map.
Qed.

End MoreRegistryFacts.

Lemma destroyed_emits_once_per_entry_witness :
  Session.caches
    (Session.on_cache_DESTROYED "a"
       (Session.steps Session.every_format
          [Session.CallGetCache "a" None; Session.CallGetCache "b" None;
           Session.CallGetCache "a:x" None]
          (Session.mkSession false false [] 0 Session.Insecure "localhost:1408" false 0 [])))
  = List.filter
      (fun entry : string * Session.NamedCacheClient =>
         negb (Session.isKeyForCacheName entry.1 "a"))
      (Session.caches
         (Session.steps Session.every_format
            [Session.CallGetCache "a" None; Session.CallGetCache "b" None;
             Session.CallGetCache "a:x" None]
            (Session.mkSession false false [] 0 Session.Insecure "localhost:1408" false
               0 [])))
  /\ Session.trace
       (Session.on_cache_DESTROYED "a"
          (Session.steps Session.every_format
             [Session.CallGetCache "a" None; Session.CallGetCache "b" None;
              Session.CallGetCache "a:x" None]
             (Session.mkSession false false [] 0 Session.Insecure "localhost:1408" false
                0 [])))
     = [Session.Emit_DESTROYED "a"; Session.Emit_DESTROYED "a"].
Proof.
  apply (destroyed_emits_once_per_entry "a"
           (Session.steps Session.every_format
              [Session.CallGetCache "a" None; Session.CallGetCache "b" None;
               Session.CallGetCache "a:x" None]
              (Session.mkSession false false [] 0 Session.Insecure "localhost:1408" false
                 0 []))).
  refine (bool_decide_unpack _ _). vm_compute. exact I.
Defined.

Lemma destroyed_reaches_colon_names_witness :
  Forall (fun cache : Session.NamedCacheClient =>
            Session.nc_name cache <> "a"
            /\ String.prefix ("a" +:+ ":") (Session.nc_name cache) = false)
    (Session.activeCaches
       (Session.on_cache_DESTROYED "a"
          (Session.steps Session.every_format
             [Session.CallGetCache "a" None; Session.CallGetCache "b" None;
              Session.CallGetCache "a:x" None]
             (Session.mkSession false false [] 0 Session.Insecure "localhost:1408" false
                0 [])))).
Proof.
  apply (destroyed_reaches_colon_names Session.every_format Session.no_files None
           Session.initial_store).
  by vm_compute.
Defined.

(** ** Filters and the extractor processor *)
Section MoreFilterFacts.
Import Filters Processors.

(** X11: left to their defaults, the inclusion flags of the factory
    method [between] include both bounds, while those of the
    [BetweenFilter] constructor exclude both; so the two build different
    filters from the same extractor and bounds, and a flag given to
    [between] is passed on as it is. *)
Theorem between_defaults_include_bounds
    (x : ExtractorOrMethod) (from to : JsValue) :
  filters_of (between x from to None None)
  = [GreaterEqualsFilter x from; LessEqualsFilter x to]
  /\ filters_of (BetweenFilter x from to None None)
     = [GreaterFilter x from; LessFilter x to]
  /\ between x from to None None <> BetweenFilter x from to None None
  /\ (forall incLower incUpper,
        between x from to incLower incUpper
        = BetweenFilter x from to (Some (default true incLower))
            (Some (default true incUpper))).
Proof.
  split; [done|]. split; [done|]. split; [|done].
  unfold between, BetweenFilter. simpl. intros Heq.
  injection Heq as Heq _. discriminate Heq.
Qed.

(** X12: every comparison filter of the factory, on whatever extractor
    or method name and value, holds no [Set]: a [Set] argument is stored
    as the array of its elements in their order; the filter carries the
    extractor chosen for its first argument and a tag that starts with
    ["filter."]. *)
Theorem comparison_filters_hold_no_set :
  Forall (fun build : ExtractorOrMethod -> JsValue -> Filter =>
            forall x v,
              (forall ys, value_of (build x v) <> Some (JSet ys))
              /\ (forall xs, v = JSet xs -> value_of (build x v) = Some (JArr xs))
              /\ extractor_of (build x v) = Some (to_extractor x)
              /\ String.prefix "filter." (at_class (build x v)) = true)
    comparison_factories.
Proof.
  unfold comparison_factories.
  repeat (apply List.Forall_cons); [..|apply List.Forall_nil].
  all: intros x v; split; [intros ys; by destruct v|].
  all: split; [by intros xs ->|done].
Qed.

Lemma index_dot (name : string) :
  String.index 0 "." name = None <-> has_dot name = false.
Proof.
  unfold has_dot. induction name as [|c name IH]; [done|].
  cbn [list_ascii_of_string existsb]. rewrite orb_false_iff, <- IH.
  cbn [String.index String.prefix].
  destruct (ascii_dec "." c) as [<-|Hne].
  - rewrite Ascii.eqb_refl. destruct name; split; try done; intros [? _]; done.
  - rewrite (proj2 (Ascii.eqb_neq _ _) Hne).
    destruct (String.index 0 "." name); split; try done. intros [_ ?]; done.
Qed.

(** X13: a method name is turned into a chained extractor exactly when
    it has a ['.'] in it, and into a universal extractor otherwise, by
    the filters and by [ExtractorProcessor] alike; the two differ on the
    empty name only, and without a name the processor extracts the
    identity. *)
Theorem method_name_extractor (name : string) :
  to_extractor (AMethod name)
  = (if has_dot name then ChainedExtractor name else UniversalExtractor name)
  /\ extractor (new_ExtractorProcessor (Some name))
     = (if String.eqb name "" then IdentityExtractor else to_extractor (AMethod name))
  /\ to_extractor (AMethod "") = UniversalExtractor ""
  /\ extractor (new_ExtractorProcessor None) = IdentityExtractor.
Proof.
  split; [|split; [|done]].
  - unfold to_extractor. pose proof (index_dot name) as Hdot.
    destruct (String.index 0 "." name), (has_dot name); try done.
    + by specialize (proj2 Hdot eq_refl).
    + by specialize (proj1 Hdot eq_refl).
  - unfold new_ExtractorProcessor, to_extractor. simpl.
    by destruct (String.eqb name "").
Qed.

(** X14: the escape character of a [LikeFilter] is always one character:
    the one given when it is one character long, and ['0'] when none is
    given or the one given is empty or longer; the filter compares with
    the pattern on the extractor chosen for its first argument. *)
Theorem like_escape_is_one_character
    (x : ExtractorOrMethod) (pattern : string)
    (escape : option string) (ignore : option bool) :
  String.length (escapeChar (like x pattern escape ignore)) = 1%nat
  /\ escapeChar (like x pattern escape ignore)
     = match escape with
       | Some (String c "") => String c ""
       | _ => "0"
       end
  /\ ignoreCase (like x pattern escape ignore) = default false ignore
  /\ like_filter (like x pattern escape ignore)
     = ComparisonObject "filter.LikeFilter" (to_extractor x) (JStr pattern).
Proof.
  unfold like, LikeFilter. simpl.
  split; [|split; [|split; [by rewrite orb_false_r|done]]].
  - destruct (String.length (default "0" escape) =? 1)%nat eqn:Hlen; [|done].
    by apply Nat.eqb_eq.
  - destruct escape as [[|c [|d rest]]|]; done.
Qed.

End MoreFilterFacts.

(** ** The legacy client: every method *)
Section MoreClientFacts.
Import NamedCacheClient.
Variable JSON_parse : list Byte.byte -> option JsValue.

(** X15: whatever the service answers, every method of the legacy client
    rejects its promise with the error of the service when there is one,
    and makes no other call then; without an error the methods that
    answer a boolean, a number or nothing resolve exactly once, and the
    five that decode a value fulfil the promise with the decoded value,
    or with [null] on an empty or absent payload; only a payload that
    does not parse leaves a promise pending for ever, and no callback
    makes more than two calls. *)
Theorem every_method_settles
    (service : string -> Method -> Response) (cacheName : string) (m : Method) :
  (forall e, r_err (service cacheName m) = Some e ->
     invoke JSON_parse service cacheName m = [settle (reject e)])
  /\ (r_err (service cacheName m) = None -> decodes m = false ->
      invoke JSON_parse service cacheName m
      = [match m with
         | clear => resolve_undefined
         | _ => settle (resolve (r_scalar (service cacheName m)))
         end])
  /\ (r_err (service cacheName m) = None -> decodes m = true ->
      outcome (invoke JSON_parse service cacheName m)
      = match r_bytes (service cacheName m) with
        | Some (b :: bytes) =>
            match JSON_parse (b :: bytes) with
            | Some v => FulfilledWith (Some v)
            | None => StaysPending
            end
        | _ => FulfilledWith (Some JNull)
        end)
  /\ (outcome (invoke JSON_parse service cacheName m) = StaysPending
      <-> r_err (service cacheName m) = None /\ decodes m = true
          /\ exists b bytes, r_bytes (service cacheName m) = Some (b :: bytes)
                             /\ JSON_parse (b :: bytes) = None)
  /\ (length (invoke JSON_parse service cacheName m) <= 2)%nat.
Proof.
  unfold invoke. destruct (service cacheName m) as [e bytes scalar]. simpl.
  split; [|split; [|split; [|split]]].
  - intros e' ->. by destruct m.
  - intros -> Hm. by destruct m.
  - intros -> Hm. destruct m; try done; unfold callback, value_callback; simpl;
      destruct bytes as [[|b bytes]|]; simpl; try done;
      by destruct (JSON_parse (b :: bytes)).
  - split.
    + intros Hout. destruct e as [e|].
      { by destruct m. }
      split; [done|]. destruct m; try done; (split; [done|]);
        unfold callback, value_callback in Hout; simpl in Hout;
        destruct bytes as [[|b bytes]|]; simpl in Hout; try done;
        exists b, bytes; (split; [done|]);
        by destruct (JSON_parse (b :: bytes)).
    + intros (-> & Hm & b & rest & -> & Hparse).
      destruct m; try done; unfold callback, value_callback; simpl;
        by rewrite Hparse.
  - destruct m; unfold callback, value_callback; simpl;
      destruct e; simpl; try lia;
      destruct bytes as [[|b bytes]|]; simpl; try lia;
      destruct (JSON_parse (b :: bytes)); simpl; lia.
Qed.

End MoreClientFacts.

(** ** The event dispatcher: states, streams and indices *)
Section MoreDispatcherFacts.
Import Events.
Variable json : Json.

Lemma settles_refl st : settles st st.
Proof. by destruct st. Qed.

Lemma settles_trans st1 st2 st3 : settles st1 st2 -> settles st2 st3 -> settles st1 st3.
Proof.
  unfold settles. intros H1 H2. destruct st1, st2, st3. simpl in *.
  injection H1. injection H2. intros. subst. reflexivity.
Qed.

Lemma settles_fields st st' :
  settles st st' ->
  cacheName st' = cacheName st /\ streamPromise st' = streamPromise st
  /\ markedForClose st' = markedForClose st /\ indices st' = indices st
  /\ debugLevel st' = debugLevel st /\ requests st' = requests st
  /\ groups st' = groups st /\ next_group st' = next_group st
  /\ next_stream st' = next_stream st /\ jobs st' = jobs st.
Proof. intros ->. by destruct st. Qed.

Lemma stream_ops_app (a b : list Action) :
  stream_ops (a ++ b) = stream_ops a ++ stream_ops b.
Proof. apply List.filter_app. Qed.

Lemma cancels_stream_ops (a : list Action) : cancels (stream_ops a) = cancels a.
Proof.
  induction a as [|x a IH]; [done|].
  destruct x; simpl; fold (stream_ops a); fold (cancels a);
    try fold (cancels (stream_ops a)); by rewrite ?IH.
Qed.

Lemma settles_with_refl st : settles_with st st [].
Proof. split; [apply settles_refl|]. exists []. unfold added. by rewrite app_nil_r. Qed.

Lemma settles_with_trans st1 st2 st3 ops1 ops2 :
  settles_with st1 st2 ops1 -> settles_with st2 st3 ops2 ->
  settles_with st1 st3 (ops1 ++ ops2).
Proof.
  intros (H1 & a1 & Ha1 & Ho1) (H2 & a2 & Ha2 & Ho2).
  split; [by eapply settles_trans|]. exists (a1 ++ a2). unfold added in *.
  split; [by rewrite Ha2, Ha1, app_assoc|]. by rewrite stream_ops_app, Ho1, Ho2.
Qed.

Lemma settles_with_quiet st1 st2 st3 ops :
  settles_with st1 st2 ops -> settles_with st2 st3 [] -> settles_with st1 st3 ops.
Proof.
  intros H1 H2. rewrite <- (app_nil_r ops). by eapply settles_with_trans.
Qed.

Lemma settles_with_perform a st :
  settles_with st (perform a st) (stream_ops [a]).
Proof. split; [by destruct st|]. by exists [a]. Qed.

Lemma settles_with_pending_set uid callback st :
  settles_with st (pending_set uid callback st) [].
Proof. split; [by destruct st|]. by exists [PendingSet uid]. Qed.

Lemma settles_with_pending_delete uid st :
  settles_with st (pending_delete uid st) [].
Proof. split; [by destruct st|]. by exists [PendingDelete uid]. Qed.

Lemma settles_with_emit event args st : settles_with st (emit event args st) [].
Proof. split; [by destruct st|]. by exists [Emit event args]. Qed.

Lemma settles_with_run_callback callback uid st :
  settles_with st (run_callback callback uid st) [].
Proof.
  destruct callback as [stream|request]; simpl.
  - eapply settles_with_quiet; [apply settles_with_pending_delete|].
    split; [by destruct st|]. exists []. unfold added. simpl. by rewrite app_nil_r.
  - eapply settles_with_quiet; [apply settles_with_pending_delete|].
    destruct (1 <? _)%Z; [|apply settles_with_refl].
    apply (settles_with_perform (Console _)).
Qed.

Lemma stream_ops_deliveries mapEvent group : stream_ops (deliveries mapEvent group) = [].
Proof.
  unfold deliveries. by induction (JsMap.keys (listeners group)).
Qed.

Lemma stream_ops_fan_out mapEvent (gs : list ListenerGroup) :
  stream_ops (flat_map (deliveries mapEvent) gs) = [].
Proof.
  induction gs as [|g gs IH]; [done|]. simpl.
  by rewrite stream_ops_app, stream_ops_deliveries, IH.
Qed.

Lemma settles_with_handleResponse resp st :
  settles_with st (handleResponse json resp st) [].
Proof.
  destruct resp as [uid|uid| | |[event|]|].
  1,2: unfold handleResponse; destruct (String.eqb uid ""); [apply settles_with_refl|];
       destruct (pendingSubscriptions st !! uid) as [callback|];
       [eapply settles_with_quiet;
          [apply settles_with_pending_delete|apply settles_with_run_callback]
       |apply settles_with_pending_delete].
  - apply settles_with_emit.
  - apply settles_with_emit.
  - rewrite handleResponse_event_eq. split; [by destruct st|].
    eexists. split; [reflexivity|].
    rewrite stream_ops_app, stream_ops_fan_out. by destruct (0 <? _)%Z.
  - apply settles_with_refl.
  - apply settles_with_refl.
Qed.

Lemma pending_run_callback callback uid st :
  pendingSubscriptions (run_callback callback uid st)
  = delete uid (pendingSubscriptions st).
Proof.
  destruct callback as [stream|request]; simpl; [done|].
  by destruct (1 <? debugLevel st)%Z.
Qed.

Lemma pending_handleResponse resp st :
  pendingSubscriptions (handleResponse json resp st)
  = match resp with
    | SUBSCRIBED uid | UNSUBSCRIBED uid =>
        if String.eqb uid "" then pendingSubscriptions st
        else delete uid (pendingSubscriptions st)
    | _ => pendingSubscriptions st
    end.
Proof.
  destruct resp as [uid|uid| | |[event|]|]; try done.
  1,2: unfold handleResponse; destruct (String.eqb uid ""); [done|];
       destruct (pendingSubscriptions st !! uid) as [callback|]; [|done];
       rewrite pending_run_callback; simpl; apply delete_delete_eq.
  by rewrite handleResponse_event_eq.
Qed.

(** X16: whatever the server sends, [handleResponse] leaves the stream,
    the close mark, the three indices, the listener groups and the
    request factory as they are, and touches no stream; of the pending
    callbacks it removes the one under the uid of a SUBSCRIBED or
    UNSUBSCRIBED response, whether or not there is one, and no other,
    and a response with an empty uid removes none. *)
Theorem handleResponse_consumes_one_callback
    (resp : MapListenerResponse) (st : MapEventsManager) :
  settles_with st (handleResponse json resp st) []
  /\ pendingSubscriptions (handleResponse json resp st)
     = match resp with
       | SUBSCRIBED uid | UNSUBSCRIBED uid =>
           if String.eqb uid "" then pendingSubscriptions st
           else delete uid (pendingSubscriptions st)
       | _ => pendingSubscriptions st
       end
  /\ streamPromise (handleResponse json resp st) = streamPromise st
  /\ markedForClose (handleResponse json resp st) = markedForClose st
  /\ indices (handleResponse json resp st) = indices st
  /\ groups (handleResponse json resp st) = groups st.
Proof.
  pose proof (settles_with_handleResponse resp st) as Hs.
  split; [done|]. split; [apply pending_handleResponse|].
  destruct Hs as [Hs _]. apply settles_fields in Hs. tauto.
Qed.

(** *** One stream for all requests *)

Lemma drain_quiescent st : jobs st = [] -> drain json st = st.
Proof. unfold drain. intros H. rewrite H. simpl. destruct st; simpl in *; by subst. Qed.

Lemma settles_with_stream_settled promise st :
  settles_with st (stream_settled json promise st) [].
Proof.
  unfold stream_settled. case_bool_decide;
    [apply settles_with_refl|apply settles_with_handleResponse].
Qed.

Lemma settles_with_send stream request st :
  settles_with st (send stream request st) [StreamWrite stream request].
Proof.
  unfold send.
  eapply (settles_with_trans _ _ _ [] [StreamWrite stream request]);
    [|apply (settles_with_perform (StreamWrite stream request))].
  eapply settles_with_quiet; [apply settles_with_pending_set|].
  destruct (1 <? _)%Z; [apply (settles_with_perform (Console _))|apply settles_with_refl].
Qed.

Lemma ensureStream_fields st :
  streamPromise (ensureStream st).2 = Some (ensureStream st).1
  /\ jobs (ensureStream st).2 = jobs st
  /\ markedForClose (ensureStream st).2 = markedForClose st
  /\ indices (ensureStream st).2 = indices st
  /\ groups (ensureStream st).2 = groups st
  /\ exists actions,
       added st (ensureStream st).2 actions
       /\ stream_ops actions
          = match streamPromise st with
            | Some _ => []
            | None => [StreamOpen (next_stream st);
                       StreamWrite (next_stream st) (mapEventSubscribe (requests st)).1]
            end.
Proof.
  unfold ensureStream. destruct (streamPromise st) as [promise|] eqn:Hsp; simpl.
  - repeat split; try done. exists []. unfold added. by rewrite app_nil_r.
  - repeat split; try done. eexists. unfold added. simpl.
    rewrite <- !app_assoc. split; [reflexivity|done].
Qed.

Lemma writeRequest_quiescent request st :
  jobs st = [] ->
  settles_with (ensureStream st).2 (writeRequest json request st)
    [StreamWrite (sp_stream (ensureStream st).1) request].
Proof.
  intros Hjobs. unfold writeRequest.
  pose proof (ensureStream_fields st) as (_ & Hj & _). revert Hj.
  destruct (ensureStream st) as [promise st1]. simpl. intros Hj.
  rewrite (drain_quiescent st1) by congruence.
  pose proof (settles_with_stream_settled promise st1) as H1.
  pose proof (settles_with_send (sp_stream promise) request
                (stream_settled json promise st1)) as H2.
  pose proof (settles_with_trans _ _ _ _ _ H1 H2) as H3. simpl in H3.
  rewrite drain_quiescent.
  - eapply settles_with_quiet; [exact H3|apply settles_with_handleResponse].
  - destruct H3 as [H3 _]. apply settles_fields in H3.
    destruct H3 as (_ & _ & _ & _ & _ & _ & _ & _ & _ & ->). congruence.
Qed.

Lemma ensureStream_open promise st :
  streamPromise st = Some promise -> ensureStream st = (promise, st).
Proof. intros H. unfold ensureStream. by rewrite H. Qed.

Lemma writeRequests_on_stream promise (requests : list MapListenerRequest) st :
  streamPromise st = Some promise -> jobs st = [] ->
  settles_with st (writeRequests json requests st)
    (map (StreamWrite (sp_stream promise)) requests).
Proof.
  revert st. induction requests as [|r rs IH]; intros st Hsp Hjobs; simpl.
  - apply settles_with_refl.
  - pose proof (writeRequest_quiescent r st Hjobs) as H.
    rewrite (ensureStream_open promise st Hsp) in H. simpl in H.
    pose proof H as [Hs _]. apply settles_fields in Hs.
    destruct Hs as (_ & Hsp' & _ & _ & _ & _ & _ & _ & _ & Hj').
    apply (settles_with_trans _ _ _ [StreamWrite (sp_stream promise) r] _ H).
    apply IH; congruence.
Qed.

(** X17: when no close is under way, the requests of a dispatcher go to
    one stream, in their order: a dispatcher that holds a stream writes
    them to it and opens none; one that holds none opens a stream, writes
    the INIT request and then the requests; no stream is cancelled, and
    the dispatcher holds that stream afterwards. *)
Theorem requests_share_one_stream
    (st : MapEventsManager) (request : MapListenerRequest)
    (more : list MapListenerRequest) :
  jobs st = [] ->
  (exists actions,
     added st (writeRequests json (request :: more) st) actions
     /\ stream_ops actions
        = match streamPromise st with
          | Some _ => []
          | None => [StreamOpen (next_stream st);
                     StreamWrite (next_stream st) (mapEventSubscribe (requests st)).1]
          end
          ++ map (StreamWrite (sp_stream (ensureStream st).1)) (request :: more))
  /\ streamPromise (writeRequests json (request :: more) st)
     = Some (ensureStream st).1
  /\ jobs (writeRequests json (request :: more) st) = []
  /\ indices (writeRequests json (request :: more) st) = indices st
  /\ groups (writeRequests json (request :: more) st) = groups st.
Proof.
  intros Hjobs. simpl.
  pose proof (ensureStream_fields st) as (Hsp & Hj & _ & Hi & Hg & a0 & Ha0 & Ho0).
  pose proof (writeRequest_quiescent request st Hjobs) as H1.
  pose proof H1 as [Hs1 _]. apply settles_fields in Hs1.
  destruct Hs1 as (_ & Hsp1 & _ & Hi1 & _ & _ & Hg1 & _ & _ & Hj1).
  assert (streamPromise (writeRequest json request st) = Some (ensureStream st).1)
    as Hsp2 by congruence.
  assert (jobs (writeRequest json request st) = []) as Hj2 by congruence.
  pose proof (writeRequests_on_stream _ more _ Hsp2 Hj2) as H2.
  pose proof (settles_with_trans _ _ _ _ _ H1 H2) as (Hs & a & Ha & Ho).
  apply settles_fields in Hs.
  destruct Hs as (_ & Hsp3 & _ & Hi3 & _ & _ & Hg3 & _ & _ & Hj3).
  split; [|repeat split; congruence].
  exists (a0 ++ a). unfold added in *. split; [by rewrite Ha, Ha0, app_assoc|].
  by rewrite stream_ops_app, Ho0, Ho.
Qed.

(** *** The indices under requests *)

Lemma indices_run_job st job : indices (run_job json st job) = indices st.
Proof.
  destruct job as [promise]. unfold run_job.
  destruct (settles_with_stream_settled promise st) as [Hs _].
  apply settles_fields in Hs. destruct Hs as (_ & _ & _ & Hi & _).
  rewrite <- Hi. reflexivity.
Qed.

Lemma indices_fold_jobs (js : list Job) st :
  indices (fold_left (run_job json) js st) = indices st.
Proof.
  revert st. induction js as [|j js IH]; intros st; [done|]. simpl.
  by rewrite IH, indices_run_job.
Qed.

Lemma indices_drain st : indices (drain json st) = indices st.
Proof. unfold drain. by rewrite indices_fold_jobs. Qed.

Lemma indices_settles_with st st' ops : settles_with st st' ops -> indices st' = indices st.
Proof. intros [Hs _]. apply settles_fields in Hs. tauto. Qed.

Lemma indices_writeRequest request st :
  indices (writeRequest json request st) = indices st.
Proof.
  unfold writeRequest.
  pose proof (ensureStream_fields st) as (_ & _ & _ & Hi & _). revert Hi.
  destruct (ensureStream st) as [promise st1]. simpl. intros <-.
  rewrite (indices_settles_with _ _ _ (settles_with_handleResponse _ _)).
  rewrite indices_drain.
  rewrite (indices_settles_with _ _ _ (settles_with_send _ _ _)).
  rewrite (indices_settles_with _ _ _ (settles_with_stream_settled _ _)).
  apply indices_drain.
Qed.

Lemma indices_close st : indices (close st) = indices st.
Proof. unfold close. by destruct (streamPromise st). Qed.

Lemma indices_checkAndCloseEventStream st :
  indices (checkAndCloseEventStream st) = indices st.
Proof.
  unfold checkAndCloseEventStream. destruct (_ && _); [apply indices_close|done].
Qed.

Lemma doSubscribe_key isLite this group gkey st :
  groups st !! this = Some group -> keyOrFilter group = AKey gkey ->
  indices (doSubscribe json isLite this st) = indices st.
Proof.
  intros Hthis Hkey. unfold doSubscribe. rewrite Hthis, Hkey. simpl.
  unfold postSubscribe. rewrite Hkey. by rewrite indices_writeRequest.
Qed.

Lemma doUnsubscribe_key closeStreamIfPossible this group gkey st :
  groups st !! this = Some group -> keyOrFilter group = AKey gkey ->
  indices (doUnsubscribe json closeStreamIfPossible this st)
  = (delete (stringify json (serializeAndDeserialize json gkey)) (keyMap st),
     filterMap st, filterId2ListenerGroup st).
Proof.
  intros Hthis Hkey. unfold doUnsubscribe. rewrite Hthis, Hkey. simpl.
  unfold postUnsubscribe. rewrite Hkey. simpl. unfold keyGroupUnsubscribed.
  assert (forall st0, indices (if closeStreamIfPossible
                              then checkAndCloseEventStream st0 else st0)
                      = indices st0) as ->.
  { intros st0. destruct closeStreamIfPossible;
      [apply indices_checkAndCloseEventStream|done]. }
  rewrite indices_checkAndCloseEventStream.
  set (st1 := writeRequest json _ _).
  pose proof (indices_writeRequest
                (mkRequest (generateNextRequestId (requests st)) (KEY gkey) false false 0)
                (set_requests
                   (mkRequestFactory (rf_cacheName (requests st))
                      (S (nextRequestId (requests st))) (nextFilterId (requests st))) st))
    as Hi.
  fold st1 in Hi. unfold indices in *. simpl in *.
  injection Hi as -> -> ->. reflexivity.
Qed.

(** *** Registering and removing a listener on a key *)

Lemma registerKeyListener_fresh listener key isLite st :
  keyMap st !! stringify json key = None ->
  let b := default false isLite in
  let this := next_group st in
  let group :=
    mkGroup true (AKey key) b [(listener, b)] (if b then 0 else 1)%Z in
  let st0 :=
    set_groups (<[this := group]> (<[this := new_ListenerGroup (AKey key)]> (groups st)))
      (set_keyMap (<[stringify json key := this]> (keyMap st))
         (set_next_group (S this)
            (set_groups (<[this := new_ListenerGroup (AKey key)]> (groups st)) st))) in
  registerKeyListener json listener key isLite st
  = drain json (doSubscribe json b this st0).
Proof.
  intros Hnone b this group st0.
  unfold registerKeyListener. rewrite Hnone. simpl.
  unfold addListener. simpl. rewrite lookup_insert_eq. simpl.
  subst st0 group this. fold b. by destruct b.
Qed.

Lemma removeListener_last listener this group prevIsLite st :
  groups st !! this = Some group ->
  JsMap.get listener (listeners group) = Some prevIsLite ->
  JsMap.size (JsMap.delete listener (listeners group)) = 0%nat ->
  removeListener json listener this st
  = drain json
      (doUnsubscribe json true this
         (set_groups
            (<[this := mkGroup (isActive group) (keyOrFilter group)
                         (registeredIsLite group)
                         (JsMap.delete listener (listeners group))
                         (isLiteFalseCount group)]> (groups st)) st)).
Proof.
  intros Hthis Hget Hsize. unfold removeListener. rewrite Hthis, Hget.
  assert ((JsMap.size (listeners group) =? 0)%nat = false) as ->.
  { by destruct (listeners group). }
  cbn [isActive keyOrFilter registeredIsLite listeners isLiteFalseCount].
  by rewrite Hsize.
Qed.

(** X18: registering a listener on a key that has no group and removing
    it again leaves the three indices as they were, provided the key
    stringifies the same after a serialization round trip; in between
    the dispatcher sends one SUBSCRIBE for the key, with the lite flag
    of the registration, and then one UNSUBSCRIBE for it, and no other
    request of a group. *)
Theorem key_listener_round_trip
    (st : MapEventsManager) (listener : nat) (key : JsValue) (isLite : option bool) :
  keyMap st !! stringify json key = None ->
  stringify json (serializeAndDeserialize json key) = stringify json key ->
  indices (removeKeyListener json listener key
             (registerKeyListener json listener key isLite st))
  = indices st
  /\ exists actions subscribe unsubscribe,
       added st
         (removeKeyListener json listener key
            (registerKeyListener json listener key isLite st)) actions
       /\ group_requests actions = [subscribe; unsubscribe]
       /\ getSubscribe subscribe = true
       /\ getLite subscribe = default false isLite
       /\ target subscribe = Some (AKey key)
       /\ getSubscribe unsubscribe = false
       /\ target unsubscribe = Some (AKey key).
Proof.
  intros Hnone Hsd.
  rewrite (registerKeyListener_fresh listener key isLite st Hnone).
  set (b := default false isLite). set (this := next_group st).
  set (G1 := mkGroup true (AKey key) b [(listener, b)] (if b then 0 else 1)%Z).
  set (st0 := set_groups _ _).
  assert (groups st0 !! this = Some G1) as H0 by apply lookup_insert_eq.
  pose proof (doSubscribe_issues json b this G1 st0 H0) as Hsub.
  apply (issues_then_quiet _ _ (drain json (doSubscribe json b this st0)))
    in Hsub; [|apply run_drain].
  assert (indices (drain json (doSubscribe json b this st0))
          = (<[stringify json key := this]> (keyMap st), filterMap st,
             filterId2ListenerGroup st)) as Hi1.
  { by rewrite indices_drain, (doSubscribe_key b this G1 key st0 H0 eq_refl). }
  set (st1 := drain json (doSubscribe json b this st0)) in *.
  destruct Hsub as (Hg1 & a1 & sub & Ha1 & Hr1 & Hs1 & Hl1 & Ht1).
  assert (keyMap st1 !! stringify json key = Some this) as Hk1.
  { unfold indices in Hi1. injection Hi1 as -> _ _. apply lookup_insert_eq. }
  unfold removeKeyListener. rewrite Hk1.
  assert (groups st1 !! this = Some G1) as H0' by by rewrite Hg1.
  rewrite (removeListener_last listener this G1 b st1 H0');
    [|by simpl; rewrite decide_True|by simpl; rewrite decide_True].
  set (G2 := mkGroup _ _ _ _ _).
  set (st1' := set_groups (<[this := G2]> (groups st1)) st1).
  assert (groups st1' !! this = Some G2) as H1 by apply lookup_insert_eq.
  pose proof (doUnsubscribe_issues json true this G2 st1' H1) as Hun.
  apply (issues_then_quiet _ _ (drain json (doUnsubscribe json true this st1')))
    in Hun; [|apply run_drain].
  destruct Hun as (_ & a2 & unsub & Ha2 & Hr2 & Hs2 & _ & Ht2).
  split.
  - rewrite indices_drain, (doUnsubscribe_key true this G2 key st1' H1 eq_refl).
    unfold indices in *. simpl. injection Hi1 as -> -> ->.
    by rewrite Hsd, delete_insert_id.
  - exists (a1 ++ a2), sub, unsub. unfold added in *.
    split; [by rewrite Ha2, app_assoc; simpl; rewrite Ha1|].
    split; [by rewrite group_requests_app, Hr1, Hr2|]. done.
Qed.

End MoreDispatcherFacts.

(** ** The event dispatcher: registrations *)
Section MoreRegistrationFacts.
Import Events.
Variable json : Json.

Lemma run_job_eq st promise :
  exists st1,
    settles_with st st1 [StreamCancel (sp_stream promise)]
    /\ run_job json st (CloseResume promise) = set_streamPromise None st1.
Proof.
  exists (perform (StreamCancel (sp_stream promise)) (stream_settled json promise st)).
  split; [|done].
  eapply (settles_with_trans _ _ _ [] [StreamCancel (sp_stream promise)]);
    [apply settles_with_stream_settled|].
  apply (settles_with_perform (StreamCancel (sp_stream promise))).
Qed.

Lemma close_open promise st :
  streamPromise st = Some promise ->
  close st = set_jobs (jobs st ++ [CloseResume promise]) (set_markedForClose true st).
Proof. intros H. unfold close. by rewrite H. Qed.

(** X19: when the last listener of the last group is removed from a
    dispatcher that holds a stream and has no close under way, the
    UNSUBSCRIBE goes out on that stream, the key leaves the key index,
    and the stream is then cancelled twice, once for each of the two
    calls of [checkAndCloseEventStream]; the dispatcher is left without
    stream and marked for close, so that the cancellation the stream
    reports is emitted as ['closed'] and clears the mark. *)
Theorem last_listener_closes_stream
    (st : MapEventsManager) (listener this : nat) (group : ListenerGroup)
    (gkey : JsValue) (prevIsLite : bool) (promise : StreamPromise) :
  jobs st = [] ->
  streamPromise st = Some promise ->
  groups st !! this = Some group ->
  keyOrFilter group = AKey gkey ->
  JsMap.get listener (listeners group) = Some prevIsLite ->
  JsMap.size (JsMap.delete listener (listeners group)) = 0%nat ->
  filterMap st = ∅ ->
  delete (stringify json (serializeAndDeserialize json gkey)) (keyMap st) = ∅ ->
  streamPromise (removeListener json listener this st) = None
  /\ markedForClose (removeListener json listener this st) = true
  /\ jobs (removeListener json listener this st) = []
  /\ keyMap (removeListener json listener this st) = ∅
  /\ exists actions unsubscribe,
       added st (removeListener json listener this st) actions
       /\ stream_ops actions
          = [StreamWrite (sp_stream promise) unsubscribe;
             StreamCancel (sp_stream promise); StreamCancel (sp_stream promise)]
       /\ getSubscribe unsubscribe = false
       /\ target unsubscribe = Some (AKey gkey)
       /\ added st (onCancel (removeListener json listener this st))
            (actions ++ [Emit "closed" [JStr (cacheName st); JBool true]])
       /\ markedForClose (onCancel (removeListener json listener this st)) = false.
Proof.
  intros Hjobs Hsp Hthis Hkey Hget Hsize Hfm Hkm.
  rewrite (removeListener_last json listener this group prevIsLite st Hthis Hget Hsize).
  set (G2 := mkGroup _ _ _ _ _).
  set (st1 := set_groups (<[this := G2]> (groups st)) st).
  unfold doUnsubscribe.
  assert (groups st1 !! this = Some G2) as -> by apply lookup_insert_eq.
  cbn [keyOrFilter G2]. rewrite Hkey. cbn [mapListenerRequest default].
  set (request := mkRequest _ (KEY gkey) false false 0).
  set (st2 := set_requests _ st1).
  pose proof (writeRequest_quiescent json request st2 Hjobs) as Hw.
  rewrite (ensureStream_open promise st2 Hsp) in Hw. simpl in Hw.
  set (st3 := writeRequest json request st2) in *.
  destruct Hw as (Hs3 & a0 & Ha0 & Ho0).
  pose proof (settles_fields _ _ Hs3)
    as (Hcn & Hsp3 & Hm3 & Hi3 & _ & _ & Hg3 & _ & _ & Hj3).
  unfold indices in Hi3. injection Hi3 as Hk3 Hf3 _. simpl in Hsp3, Hj3, Hk3, Hf3.
  assert (postUnsubscribe json this G2 request st3
          = set_jobs [CloseResume promise]
              (set_markedForClose true (set_keyMap ∅ st3))) as ->.
  { unfold postUnsubscribe, G2. cbn [keyOrFilter]. rewrite Hkey. cbn [getType request].
    unfold keyGroupUnsubscribed, checkAndCloseEventStream.
    rewrite Hk3, Hkm. cbn [filterMap keyMap set_keyMap]. rewrite Hf3, Hfm.
    rewrite !map_size_empty. cbn [Nat.eqb andb].
    rewrite (close_open promise) by (simpl; congruence).
    cbn [jobs set_keyMap]. by rewrite Hj3, Hjobs. }
  assert (checkAndCloseEventStream
            (set_jobs [CloseResume promise]
               (set_markedForClose true (set_keyMap ∅ st3)))
          = set_jobs [CloseResume promise; CloseResume promise]
              (set_markedForClose true (set_keyMap ∅ st3))) as ->.
  { unfold checkAndCloseEventStream. cbn [filterMap keyMap set_keyMap set_jobs
      set_markedForClose]. rewrite Hf3, Hfm, !map_size_empty. cbn [Nat.eqb andb].
    rewrite (close_open promise) by (simpl; congruence). reflexivity. }
  unfold drain. cbn [jobs set_jobs fold_left].
  set (S0 := set_jobs [] _).
  destruct (run_job_eq S0 promise) as (S1 & (Hs1 & a1 & Ha1 & Ho1) & ->).
  destruct (run_job_eq (set_streamPromise None S1) promise)
    as (S2 & (Hs2 & a2 & Ha2 & Ho2) & ->).
  apply settles_fields in Hs1, Hs2.
  destruct Hs1 as (Hcn1 & _ & Hm1 & Hi1 & _ & _ & _ & _ & _ & Hj1).
  destruct Hs2 as (Hcn2 & _ & Hm2 & Hi2 & _ & _ & _ & _ & _ & Hj2).
  unfold indices in Hi1, Hi2. injection Hi1 as Hk1 _ _. injection Hi2 as Hk2 _ _.
  simpl in *.
  split; [done|]. split; [congruence|]. split; [congruence|]. split; [congruence|].
  exists (a0 ++ a1 ++ a2), request. unfold added in *. simpl in *.
  split; [by rewrite Ha2, Ha1, Ha0, <- !app_assoc|].
  split; [by rewrite !stream_ops_app, Ho0, Ho1, Ho2|].
  split; [done|]. split; [done|].
  unfold onCancel. simpl. rewrite Hm2, Hm1. simpl.
  split; [|done]. rewrite Hcn2, Hcn1, Hcn, Ha2, Ha1, Ha0. by rewrite <- !app_assoc.
Qed.

Lemma addListener_reregisters listener this group st :
  groups st !! this = Some group ->
  registeredIsLite group = true ->
  JsMap.get listener (listeners group) <> Some false ->
  (1 < JsMap.size (JsMap.set listener false (listeners group)))%nat ->
  addListener json listener false this st
  = drain json
      (doSubscribe json false this
         (drain json
            (doUnsubscribe json false this
               (set_groups
                  (<[this := mkGroup (isActive group) (keyOrFilter group) false
                               (JsMap.set listener false (listeners group))
                               (isLiteFalseCount group + 1)%Z]> (groups st)) st)))).
Proof.
  intros Hthis Hlite Hprev Hsize. unfold addListener. rewrite Hthis.
  assert (match JsMap.get listener (listeners group) with
          | Some prevIsLite => Bool.eqb prevIsLite false
          | None => false
          end = false) as ->.
  { destruct (JsMap.get listener (listeners group)) as [[|]|]; done. }
  cbn [listeners registeredIsLite keyOrFilter isActive isLiteFalseCount].
  rewrite Hlite, orb_true_r.
  apply Nat.ltb_lt in Hsize. by rewrite Hsize.
Qed.

Lemma removeListener_reregisters listener this group st :
  groups st !! this = Some group ->
  JsMap.get listener (listeners group) = Some false ->
  JsMap.size (JsMap.delete listener (listeners group)) <> 0%nat ->
  (isLiteFalseCount group - 1)%Z = 0%Z ->
  removeListener json listener this st
  = drain json
      (doSubscribe json true this
         (drain json
            (doUnsubscribe json false this
               (set_groups
                  (<[this := mkGroup (isActive group) (keyOrFilter group)
                               (registeredIsLite group)
                               (JsMap.delete listener (listeners group))
                               (isLiteFalseCount group - 1)%Z]> (groups st)) st)))).
Proof.
  intros Hthis Hget Hsize Hcount. unfold removeListener. rewrite Hthis, Hget.
  assert ((JsMap.size (listeners group) =? 0)%nat = false) as ->.
  { by destruct (listeners group). }
  cbn [isActive keyOrFilter registeredIsLite listeners isLiteFalseCount negb].
  apply Nat.eqb_neq in Hsize. rewrite Hsize, Hcount. cbn [Z.eqb].
  cbn [groups set_groups]. by rewrite insert_insert_eq.
Qed.

Lemma reregistration_issues this group isLite st :
  groups st !! this = Some group ->
  let st' := drain json (doSubscribe json isLite this
                           (drain json (doUnsubscribe json false this st))) in
  groups st' = groups st
  /\ exists actions unsubscribe subscribe,
       added st st' actions
       /\ group_requests actions = [unsubscribe; subscribe]
       /\ getSubscribe unsubscribe = false
       /\ target unsubscribe = Some (keyOrFilter group)
       /\ getSubscribe subscribe = true
       /\ getLite subscribe = isLite
       /\ target subscribe = Some (keyOrFilter group).
Proof.
  intros Hthis st'.
  pose proof (doUnsubscribe_issues json false this group st Hthis) as Hunsub.
  apply (issues_then_quiet _ _ (drain json (doUnsubscribe json false this st)))
    in Hunsub; [|apply run_drain].
  set (st2 := drain json (doUnsubscribe json false this st)) in *.
  destruct Hunsub as (Hg2 & a1 & unsub & Hadd1 & Hreq1 & Hs1 & _ & Ht1).
  assert (groups st2 !! this = Some group) as Hthis2 by by rewrite Hg2.
  pose proof (doSubscribe_issues json isLite this group st2 Hthis2) as Hsub.
  apply (issues_then_quiet _ _ (drain json (doSubscribe json isLite this st2)))
    in Hsub; [|apply run_drain].
  destruct Hsub as (Hg3 & a2 & sub & Hadd2 & Hreq2 & Hs2 & Hl2 & Ht2).
  split; [unfold st'; congruence|].
  exists (a1 ++ a2), unsub, sub. unfold added in *.
  split; [by unfold st'; rewrite Hadd2, Hadd1, app_assoc|].
  split; [by rewrite group_requests_app, Hreq1, Hreq2|]. done.
Qed.

Lemma reregistration_indices this group gkey isLite st :
  groups st !! this = Some group -> keyOrFilter group = AKey gkey ->
  indices (drain json (doSubscribe json isLite this
                         (drain json (doUnsubscribe json false this st))))
  = (delete (stringify json (serializeAndDeserialize json gkey)) (keyMap st),
     filterMap st, filterId2ListenerGroup st).
Proof.
  intros Hthis Hkey.
  pose proof (doUnsubscribe_issues json false this group st Hthis) as Hunsub.
  apply (issues_then_quiet _ _ (drain json (doUnsubscribe json false this st)))
    in Hunsub; [|apply run_drain].
  destruct Hunsub as (Hg2 & _).
  rewrite indices_drain, (doSubscribe_key json isLite this group gkey);
    [|by rewrite Hg2|done].
  by rewrite indices_drain, (doUnsubscribe_key json false this group gkey).
Qed.

Lemma JsMap_size_set_in (k : nat) (v v' : bool) (m : JsMap.t nat bool) :
  JsMap.get k m = Some v -> JsMap.size (JsMap.set k v' m) = JsMap.size m.
Proof.
  unfold JsMap.size. induction m as [|[k0 v0] m IH]; simpl; [done|].
  case_decide; simpl; [done|]. intros H'. by rewrite IH.
Qed.

Lemma JsMap_size_delete_in (k : nat) (v : bool) (m : JsMap.t nat bool) :
  JsMap.get k m = Some v -> (JsMap.size (JsMap.delete k m) < JsMap.size m)%nat.
Proof.
  unfold JsMap.size.
  assert (forall m' : JsMap.t nat bool, (length (JsMap.delete k m') <= length m')%nat) as Hle.
  { induction m' as [|[k0 v0] m' IH]; simpl; [done|]. case_decide; simpl; lia. }
  induction m as [|[k0 v0] m IH]; simpl; [done|].
  case_decide; simpl.
  - intros _. specialize (Hle m). lia.
  - intros H'. specialize (IH H'). lia.
Qed.

Lemma removeListener_keeps_registration listener this group st :
  groups st !! this = Some group ->
  JsMap.get listener (listeners group) = Some false ->
  JsMap.size (JsMap.delete listener (listeners group)) <> 0%nat ->
  isLiteFalseCount group <> 1%Z ->
  removeListener json listener this st
  = set_groups
      (<[this := mkGroup (isActive group) (keyOrFilter group) (registeredIsLite group)
                   (JsMap.delete listener (listeners group))
                   (isLiteFalseCount group - 1)%Z]> (groups st)) st.
Proof.
  intros Hthis Hget Hsize Hcount. unfold removeListener. rewrite Hthis, Hget.
  assert ((JsMap.size (listeners group) =? 0)%nat = false) as ->.
  { by destruct (listeners group). }
  cbn [isActive keyOrFilter registeredIsLite listeners isLiteFalseCount negb].
  apply Nat.eqb_neq in Hsize. rewrite Hsize.
  assert ((isLiteFalseCount group - 1 =? 0)%Z = false) as -> by (apply Z.eqb_neq; lia).
  cbn [groups set_groups]. by rewrite insert_insert_eq.
Qed.

Lemma addListener_turns_lite listener this group st :
  groups st !! this = Some group ->
  JsMap.get listener (listeners group) = Some false ->
  JsMap.size (JsMap.delete listener (listeners group)) <> 0%nat ->
  addListener json listener true this st
  = set_groups
      (<[this := mkGroup (isActive group) (keyOrFilter group) (registeredIsLite group)
                   (JsMap.set listener true (listeners group))
                   (isLiteFalseCount group)]> (groups st)) st.
Proof.
  intros Hthis Hget Hsize. unfold addListener. rewrite Hthis, Hget.
  cbn [Bool.eqb listeners registeredIsLite keyOrFilter isActive isLiteFalseCount negb].
  rewrite andb_false_r, orb_false_r.
  assert ((JsMap.size (JsMap.set listener true (listeners group)) =? 1)%nat = false) as ->;
    [|done].
  apply Nat.eqb_neq. rewrite (JsMap_size_set_in listener false true) by done.
  pose proof (JsMap_size_delete_in listener false (listeners group) Hget). lia.
Qed.
(** X20: when a listener that was registered with [isLite = false] is
    removed from a group and others remain, the group takes one off its
    counter [isLiteFalseCount], and what it sends depends on that
    counter alone.  With the counter at one, the group issues an
    UNSUBSCRIBE and then a SUBSCRIBE with [lite = true], both for its
    key or filter, and no other request of its own; its
    [registeredIsLite] flag stays as it was, so that a group that was
    registered non-lite sends nothing when a listener with
    [isLite = false] is added afterwards; and a key group is taken out
    of the key index by the UNSUBSCRIBE.  With the counter at any other
    value the removal sends nothing and changes the group only.  The
    counter is not the number of listeners with [isLite = false]:
    registering such a listener again with [isLite = true] leaves it
    as it is, so that the removal of the only listener with
    [isLite = false] can find the counter above one and leave the
    group registered non-lite. *)
Theorem removeListener_downgrades
    (st : MapEventsManager) (this : nat) (group : ListenerGroup)
    (listener other : nat) :
  groups st !! this = Some group ->
  JsMap.get listener (listeners group) = Some false ->
  JsMap.size (JsMap.delete listener (listeners group)) <> 0%nat ->
  (isLiteFalseCount group = 1%Z ->
   (exists actions unsubscribe subscribe,
      added st (removeListener json listener this st) actions
      /\ group_requests actions = [unsubscribe; subscribe]
      /\ getSubscribe unsubscribe = false
      /\ target unsubscribe = Some (keyOrFilter group)
      /\ getSubscribe subscribe = true
      /\ getLite subscribe = true
      /\ target subscribe = Some (keyOrFilter group))
   /\ (registeredIsLite <$> groups (removeListener json listener this st) !! this)
      = Some (registeredIsLite group)
   /\ (registeredIsLite group = false ->
       JsMap.get other (JsMap.delete listener (listeners group)) = None ->
       added (removeListener json listener this st)
         (addListener json other false this (removeListener json listener this st)) [])
   /\ (forall gkey, keyOrFilter group = AKey gkey ->
         keyMap (removeListener json listener this st)
         = delete (stringify json (serializeAndDeserialize json gkey)) (keyMap st)))
  /\ (isLiteFalseCount group <> 1%Z ->
      removeListener json listener this st
      = set_groups
          (<[this := mkGroup (isActive group) (keyOrFilter group)
                       (registeredIsLite group)
                       (JsMap.delete listener (listeners group))
                       (isLiteFalseCount group - 1)%Z]> (groups st)) st)
  /\ addListener json listener true this st
     = set_groups
         (<[this := mkGroup (isActive group) (keyOrFilter group)
                      (registeredIsLite group)
                      (JsMap.set listener true (listeners group))
                      (isLiteFalseCount group)]> (groups st)) st.
Proof.
  intros Hthis Hget Hsize.
  split; [|split; [by apply removeListener_keeps_registration
                  |by apply addListener_turns_lite]].
  intros Hcount.
  rewrite (removeListener_reregisters listener this group st Hthis Hget Hsize)
    by (rewrite Hcount; reflexivity).
  set (group' := mkGroup _ _ _ _ _).
  set (st1 := set_groups (<[this := group']> (groups st)) st).
  assert (groups st1 !! this = Some group') as Hthis1 by apply lookup_insert_eq.
  destruct (reregistration_issues this group' true st1 Hthis1) as (Hg & Hreq).
  pose proof (fun gkey => reregistration_indices this group' gkey true st1 Hthis1) as Hi.
  set (st' := drain json _) in *.
  assert (groups st' !! this = Some group') as Hthis' by by rewrite Hg.
  split; [exact Hreq|]. split; [by rewrite Hthis'|].
  split; [|intros gkey Hkey; specialize (Hi gkey Hkey); unfold indices in Hi;
           by injection Hi as -> _ _].
  intros Hlite Hother. unfold addListener. rewrite Hthis'.
  cbn [listeners group']. rewrite Hother.
  cbn [listeners registeredIsLite keyOrFilter isActive isLiteFalseCount group'].
  rewrite Hlite. cbn [andb orb negb].
  assert ((JsMap.size (JsMap.set other false (JsMap.delete listener (listeners group)))
           =? 1)%nat = false) as ->.
  { apply Nat.eqb_neq.
    assert (forall m : JsMap.t nat bool, JsMap.size m = length (JsMap.keys m)) as Hlen.
    { intros m. unfold JsMap.size, JsMap.keys. by rewrite length_map. }
    rewrite Hlen, JsMap_keys_set_notin by by apply JsMap_get_None_keys.
    rewrite length_app, <- Hlen. simpl. lia. }
  unfold added. simpl. by rewrite app_nil_r.
Qed.

(** X21: the re-registration that a listener with [isLite = false]
    causes in a key group that is registered lite takes the group out
    of the key index and does not put it back: the group keeps its
    listeners, but a later [removeKeyListener] for the key does nothing
    and an event for the key finds no key group. *)
Theorem upgrade_unindexes_key_group
    (st : MapEventsManager) (this : nat) (group : ListenerGroup)
    (listener : nat) (gkey : JsValue) :
  groups st !! this = Some group ->
  keyOrFilter group = AKey gkey ->
  registeredIsLite group = true ->
  JsMap.get listener (listeners group) <> Some false ->
  (1 < JsMap.size (JsMap.set listener false (listeners group)))%nat ->
  indices (addListener json listener false this st)
  = (delete (stringify json (serializeAndDeserialize json gkey)) (keyMap st),
     filterMap st, filterId2ListenerGroup st)
  /\ (listeners <$> groups (addListener json listener false this st) !! this)
     = Some (JsMap.set listener false (listeners group))
  /\ (forall key,
        stringify json key = stringify json (serializeAndDeserialize json gkey) ->
        (forall l, removeKeyListener json l key (addListener json listener false this st)
                   = addListener json listener false this st)
        /\ (forall event, ev_key event = key ->
              key_group json (addListener json listener false this st) event = None)).
Proof.
  intros Hthis Hkey Hlite Hprev Hsize.
  rewrite (addListener_reregisters listener this group st Hthis Hlite Hprev Hsize).
  set (group' := mkGroup _ _ _ _ _).
  set (st1 := set_groups (<[this := group']> (groups st)) st).
  assert (groups st1 !! this = Some group') as Hthis1 by apply lookup_insert_eq.
  destruct (reregistration_issues this group' false st1 Hthis1) as (Hg & _).
  pose proof (reregistration_indices this group' gkey false st1 Hthis1 Hkey) as Hi.
  set (st' := drain json _) in *.
  split; [exact Hi|]. split; [by rewrite Hg, Hthis1|].
  unfold indices in Hi. injection Hi as Hk _ _. simpl in Hk.
  intros key Hstr. split.
  - intros l. unfold removeKeyListener. by rewrite Hk, Hstr, lookup_delete_eq.
  - intros event <-. unfold key_group. by rewrite Hk, Hstr, lookup_delete_eq.
Qed.

(** X22: two listeners registered one after the other on keys that
    stringify alike, the first on a key without group, share one group
    and one subscription when the second does not ask for more than the
    first registered: the dispatcher sends a single SUBSCRIBE, with the
    lite flag of the first, the key index maps the key to the group, and
    an event for the key finds both listeners, in the order of their
    registration. *)
Theorem listeners_share_key_group
    (st : MapEventsManager) (l1 l2 : nat) (k1 k2 : JsValue) (b1 b2 : option bool) :
  keyMap st !! stringify json k1 = None ->
  stringify json k2 = stringify json k1 ->
  l1 <> l2 ->
  (default false b1 = true -> default false b2 = true) ->
  indices (registerKeyListener json l2 k2 b2 (registerKeyListener json l1 k1 b1 st))
  = (<[stringify json k1 := next_group st]> (keyMap st), filterMap st,
     filterId2ListenerGroup st)
  /\ (listeners
        <$> groups (registerKeyListener json l2 k2 b2
                      (registerKeyListener json l1 k1 b1 st)) !! next_group st)
     = Some [(l1, default false b1); (l2, default false b2)]
  /\ (exists actions subscribe,
        added st (registerKeyListener json l2 k2 b2
                    (registerKeyListener json l1 k1 b1 st)) actions
        /\ group_requests actions = [subscribe]
        /\ getSubscribe subscribe = true
        /\ getLite subscribe = default false b1
        /\ target subscribe = Some (AKey k1))
  /\ (forall event,
        stringify json (ev_key event) = stringify json k1 ->
        JsMap.keys
          <$> (listeners
                 <$> key_group json
                       (registerKeyListener json l2 k2 b2
                          (registerKeyListener json l1 k1 b1 st)) event)
        = Some [l1; l2]).
Proof.
  intros Hnone Hstr Hne Hflags.
  rewrite (registerKeyListener_fresh json l1 k1 b1 st Hnone).
  set (lite1 := default false b1) in *. set (lite2 := default false b2) in *.
  set (this := next_group st).
  set (G1 := mkGroup true (AKey k1) lite1 [(l1, lite1)] (if lite1 then 0 else 1)%Z).
  set (st0 := set_groups _ _).
  assert (groups st0 !! this = Some G1) as H0 by apply lookup_insert_eq.
  pose proof (doSubscribe_issues json lite1 this G1 st0 H0) as Hsub.
  apply (issues_then_quiet _ _ (drain json (doSubscribe json lite1 this st0)))
    in Hsub; [|apply run_drain].
  assert (indices (drain json (doSubscribe json lite1 this st0))
          = (<[stringify json k1 := this]> (keyMap st), filterMap st,
             filterId2ListenerGroup st)) as Hi1.
  { by rewrite indices_drain, (doSubscribe_key json lite1 this G1 k1 st0 H0 eq_refl). }
  set (st1 := drain json (doSubscribe json lite1 this st0)) in *.
  destruct Hsub as (Hg1 & a1 & sub & Ha1 & Hr1 & Hs1 & Hl1 & Ht1).
  assert (keyMap st1 !! stringify json k1 = Some this) as Hk1.
  { unfold indices in Hi1. injection Hi1 as -> _ _. apply lookup_insert_eq. }
  assert (groups st1 !! this = Some G1) as H1 by by rewrite Hg1.
  set (G2 := mkGroup true (AKey k1) lite1 [(l1, lite1); (l2, lite2)]
               (if lite2 then (if lite1 then 0 else 1) else (if lite1 then 0 else 1) + 1)%Z).
  assert (registerKeyListener json l2 k2 b2 st1
          = set_groups (<[this := G2]> (groups st1)) st1) as ->.
  { unfold registerKeyListener. rewrite Hstr, Hk1. fold lite2.
    unfold addListener. rewrite H1. cbn [listeners G1 JsMap.get].
    rewrite decide_False by done.
    cbn [JsMap.get JsMap.set listeners registeredIsLite keyOrFilter isActive
         isLiteFalseCount G1].
    rewrite decide_False by done.
    cbn [JsMap.set JsMap.size length Nat.eqb orb].
    assert (lite1 && negb lite2 = false) as ->.
    { destruct lite1, lite2; try done. by specialize (Hflags eq_refl). }
    reflexivity. }
  split; [exact Hi1|]. split; [simpl; by rewrite lookup_insert_eq|].
  split.
  - exists a1, sub. unfold added in *. simpl. done.
  - intros event Hev. unfold key_group. simpl. rewrite Hev, Hk1. simpl.
    by rewrite lookup_insert_eq.
Qed.

Lemma checkAndCloseEventStream_indexed st :
  filterMap st <> ∅ \/ keyMap st <> ∅ -> checkAndCloseEventStream st = st.
Proof.
  intros Hne. unfold checkAndCloseEventStream.
  assert ((size (filterMap st) =? 0)%nat && (size (keyMap st) =? 0)%nat = false) as ->;
    [|done].
  apply andb_false_iff. rewrite !Nat.eqb_neq, !map_size_empty_iff. exact Hne.
Qed.

(** X23: when the last listener of a key group is removed while a
    filter group or another key group is indexed, the dispatcher sends
    the UNSUBSCRIBE on the stream it holds and keeps that stream: no
    stream is opened or cancelled, the close mark is as before, and of
    the indices only the key index changes, by the key of the group. *)
Theorem other_groups_keep_the_stream
    (st : MapEventsManager) (listener this : nat) (group : ListenerGroup)
    (gkey : JsValue) (prevIsLite : bool) (promise : StreamPromise) :
  jobs st = [] ->
  streamPromise st = Some promise ->
  groups st !! this = Some group ->
  keyOrFilter group = AKey gkey ->
  JsMap.get listener (listeners group) = Some prevIsLite ->
  JsMap.size (JsMap.delete listener (listeners group)) = 0%nat ->
  filterMap st <> ∅
  \/ delete (stringify json (serializeAndDeserialize json gkey)) (keyMap st) <> ∅ ->
  streamPromise (removeListener json listener this st) = Some promise
  /\ markedForClose (removeListener json listener this st) = markedForClose st
  /\ jobs (removeListener json listener this st) = []
  /\ indices (removeListener json listener this st)
     = (delete (stringify json (serializeAndDeserialize json gkey)) (keyMap st),
        filterMap st, filterId2ListenerGroup st)
  /\ exists actions unsubscribe,
       added st (removeListener json listener this st) actions
       /\ stream_ops actions = [StreamWrite (sp_stream promise) unsubscribe]
       /\ getSubscribe unsubscribe = false
       /\ target unsubscribe = Some (AKey gkey).
Proof.
  intros Hjobs Hsp Hthis Hkey Hget Hsize Hothers.
  rewrite (removeListener_last json listener this group prevIsLite st Hthis Hget Hsize).
  set (G2 := mkGroup _ _ _ _ _).
  set (st1 := set_groups (<[this := G2]> (groups st)) st).
  unfold doUnsubscribe.
  assert (groups st1 !! this = Some G2) as -> by apply lookup_insert_eq.
  cbn [keyOrFilter G2]. rewrite Hkey. cbn [mapListenerRequest default].
  set (request := mkRequest _ (KEY gkey) false false 0).
  set (st2 := set_requests _ st1).
  pose proof (writeRequest_quiescent json request st2 Hjobs) as Hw.
  rewrite (ensureStream_open promise st2 Hsp) in Hw. simpl in Hw.
  set (st3 := writeRequest json request st2) in *.
  destruct Hw as (Hs3 & a0 & Ha0 & Ho0).
  pose proof (settles_fields _ _ Hs3)
    as (Hcn & Hsp3 & Hm3 & Hi3 & _ & _ & Hg3 & _ & _ & Hj3).
  unfold indices in Hi3. injection Hi3 as Hk3 Hf3 Hid3.
  simpl in Hsp3, Hj3, Hk3, Hf3, Hid3, Hm3.
  set (st4 := set_keyMap (delete (stringify json (serializeAndDeserialize json gkey))
                            (keyMap st3)) st3).
  assert (postUnsubscribe json this G2 request st3 = st4) as ->.
  { unfold postUnsubscribe, G2. cbn [keyOrFilter]. rewrite Hkey. cbn [getType request].
    unfold keyGroupUnsubscribed. apply checkAndCloseEventStream_indexed.
    simpl. rewrite Hf3, Hk3. exact Hothers. }
  rewrite checkAndCloseEventStream_indexed
    by (simpl; rewrite Hf3, Hk3; exact Hothers).
  rewrite drain_quiescent by (simpl; congruence).
  unfold indices. simpl. rewrite Hk3, Hf3, Hid3.
  split; [congruence|]. split; [congruence|]. split; [congruence|]. split; [done|].
  exists a0, request. unfold added in *. simpl in *. done.
Qed.

End MoreRegistrationFacts.

(** ** The event dispatcher: the debug level *)
Section MoreDebugFacts.
Import Events.
Variable json : Json.

Lemma unprinted_app (a b : list Action) : unprinted (a ++ b) = unprinted a ++ unprinted b.
Proof. apply List.filter_app. Qed.

Lemma silent_perform a st :
  silent (perform a st)
  = match a with Console _ => silent st | _ => perform a (silent st) end.
Proof.
  unfold silent, perform. simpl. rewrite unprinted_app.
  destruct a; simpl; by rewrite ?app_nil_r.
Qed.

Lemma silent_pending_set uid callback st :
  silent (pending_set uid callback st) = pending_set uid callback (silent st).
Proof. unfold pending_set. by rewrite silent_perform. Qed.

Lemma silent_pending_delete uid st :
  silent (pending_delete uid st) = pending_delete uid (silent st).
Proof. unfold pending_delete. by rewrite silent_perform. Qed.

Lemma silent_emit event args st : silent (emit event args st) = emit event args (silent st).
Proof. unfold emit. by rewrite silent_perform. Qed.

Lemma silent_run_callback callback uid st :
  silent (run_callback callback uid st) = run_callback callback uid (silent st).
Proof.
  destruct callback as [stream|request]; simpl.
  - change (silent (set_fulfilled ?f ?s)) with (set_fulfilled f (silent s)).
    by rewrite silent_pending_delete.
  - destruct (1 <? debugLevel st)%Z;
      by rewrite ?silent_perform, silent_pending_delete.
Qed.

Lemma unprinted_deliveries mapEvent group :
  unprinted (deliveries mapEvent group) = deliveries mapEvent group.
Proof.
  unfold deliveries. induction (JsMap.keys (listeners group)) as [|l ls IH]; [done|].
  simpl. by rewrite IH.
Qed.

Lemma unprinted_fan_out mapEvent (gs : list ListenerGroup) :
  unprinted (flat_map (deliveries mapEvent) gs) = flat_map (deliveries mapEvent) gs.
Proof.
  induction gs as [|g gs IH]; [done|]. simpl.
  by rewrite unprinted_app, unprinted_deliveries, IH.
Qed.

Lemma silent_handleResponse resp st :
  silent (handleResponse json resp st) = handleResponse json resp (silent st).
Proof.
  destruct resp as [uid|uid| | |[event|]|]; try done.
  1,2: unfold handleResponse; destruct (String.eqb uid ""); [done|];
       change (pendingSubscriptions (silent st)) with (pendingSubscriptions st);
       destruct (pendingSubscriptions st !! uid) as [callback|];
       by rewrite ?silent_run_callback, silent_pending_delete.
  - apply silent_emit.
  - apply silent_emit.
  - rewrite !handleResponse_event_eq. unfold silent at 1. simpl.
    rewrite !unprinted_app, unprinted_fan_out.
    by destruct (0 <? debugLevel st)%Z.
Qed.

Lemma silent_stream_settled promise st :
  silent (stream_settled json promise st) = stream_settled json promise (silent st).
Proof.
  unfold stream_settled. change (fulfilled (silent st)) with (fulfilled st).
  case_bool_decide; [done|apply silent_handleResponse].
Qed.

Lemma silent_run_job st job : silent (run_job json st job) = run_job json (silent st) job.
Proof.
  destruct job as [promise]. unfold run_job.
  change (silent (set_streamPromise ?p ?s)) with (set_streamPromise p (silent s)).
  by rewrite silent_perform, silent_stream_settled.
Qed.

Lemma silent_fold_jobs (js : list Job) st :
  silent (fold_left (run_job json) js st) = fold_left (run_job json) js (silent st).
Proof.
  revert st. induction js as [|j js IH]; intros st; [done|]. simpl.
  by rewrite IH, silent_run_job.
Qed.

Lemma silent_drain st : silent (drain json st) = drain json (silent st).
Proof. unfold drain. by rewrite silent_fold_jobs. Qed.

Lemma silent_ensureStream st :
  ensureStream (silent st) = ((ensureStream st).1, silent (ensureStream st).2).
Proof.
  unfold ensureStream. change (streamPromise (silent st)) with (streamPromise st).
  destruct (streamPromise st); [done|]. simpl.
  unfold silent. simpl. by rewrite !unprinted_app.
Qed.

Lemma silent_send stream request st :
  silent (send stream request st) = send stream request (silent st).
Proof.
  unfold send. rewrite silent_perform.
  change (debugLevel (pending_set ?u ?c ?s)) with (debugLevel s).
  change (debugLevel (silent st)) with 0%Z. cbn [Z.ltb Z.compare].
  destruct (1 <? debugLevel st)%Z; by rewrite ?silent_perform, silent_pending_set.
Qed.

Lemma silent_writeRequest request st :
  silent (writeRequest json request st) = writeRequest json request (silent st).
Proof.
  unfold writeRequest. rewrite silent_ensureStream.
  destruct (ensureStream st) as [promise st1]. simpl.
  by rewrite silent_handleResponse, silent_drain, silent_send, silent_stream_settled,
    silent_drain.
Qed.

Lemma silent_close st : silent (close st) = close (silent st).
Proof.
  unfold close. change (streamPromise (silent st)) with (streamPromise st).
  by destruct (streamPromise st).
Qed.

Lemma silent_checkAndCloseEventStream st :
  silent (checkAndCloseEventStream st) = checkAndCloseEventStream (silent st).
Proof.
  unfold checkAndCloseEventStream.
  change (filterMap (silent st)) with (filterMap st).
  change (keyMap (silent st)) with (keyMap st).
  destruct (_ && _); [apply silent_close|done].
Qed.

Lemma silent_keyGroupUnsubscribed key st :
  silent (keyGroupUnsubscribed json key st) = keyGroupUnsubscribed json key (silent st).
Proof. unfold keyGroupUnsubscribed. by rewrite silent_checkAndCloseEventStream. Qed.

Lemma silent_filterGroupUnsubscribed filterId filter st :
  silent (filterGroupUnsubscribed json filterId filter st)
  = filterGroupUnsubscribed json filterId filter (silent st).
Proof. unfold filterGroupUnsubscribed. by rewrite silent_checkAndCloseEventStream. Qed.

Lemma silent_postSubscribe this group request st :
  silent (postSubscribe this group request st)
  = postSubscribe this group request (silent st).
Proof. unfold postSubscribe. by destruct (keyOrFilter group). Qed.

Lemma silent_postUnsubscribe this group request st :
  silent (postUnsubscribe json this group request st)
  = postUnsubscribe json this group request (silent st).
Proof.
  unfold postUnsubscribe. destruct (keyOrFilter group).
  - destruct (getType request); [done|apply silent_keyGroupUnsubscribed|done].
  - apply silent_filterGroupUnsubscribed.
Qed.

Lemma silent_doSubscribe isLite this st :
  silent (doSubscribe json isLite this st) = doSubscribe json isLite this (silent st).
Proof.
  unfold doSubscribe. change (groups (silent st)) with (groups st).
  destruct (groups st !! this) as [group|]; [|done].
  change (requests (silent st)) with (requests st).
  destruct (mapListenerRequest _ _ _ _) as [request factory].
  rewrite silent_postSubscribe, silent_writeRequest. done.
Qed.

Lemma silent_doUnsubscribe closeStreamIfPossible this st :
  silent (doUnsubscribe json closeStreamIfPossible this st)
  = doUnsubscribe json closeStreamIfPossible this (silent st).
Proof.
  unfold doUnsubscribe. change (groups (silent st)) with (groups st).
  destruct (groups st !! this) as [group|]; [|done].
  change (requests (silent st)) with (requests st).
  destruct (mapListenerRequest _ _ _ _) as [request factory].
  destruct closeStreamIfPossible;
    by rewrite ?silent_checkAndCloseEventStream, silent_postUnsubscribe,
      silent_writeRequest.
Qed.

Lemma silent_addListener listener isLite this st :
  silent (addListener json listener isLite this st)
  = addListener json listener isLite this (silent st).
Proof.
  unfold addListener. change (groups (silent st)) with (groups st).
  destruct (groups st !! this) as [group|]; [|done].
  destruct (match JsMap.get listener (listeners group) with
            | Some prevIsLite => Bool.eqb prevIsLite isLite
            | None => false
            end); [done|].
  cbn [listeners registeredIsLite keyOrFilter isActive isLiteFalseCount].
  destruct (_ || _); [|done].
  destruct (1 <? _)%nat;
    by rewrite ?silent_drain, ?silent_doSubscribe, ?silent_drain, ?silent_doUnsubscribe.
Qed.

Lemma silent_removeListener listener this st :
  silent (removeListener json listener this st)
  = removeListener json listener this (silent st).
Proof.
  unfold removeListener. change (groups (silent st)) with (groups st).
  destruct (groups st !! this) as [group|]; [|done].
  destruct (JsMap.get listener (listeners group)) as [prevIsLite|]; [|done].
  destruct (JsMap.size (listeners group) =? 0)%nat; [done|].
  cbn [listeners registeredIsLite keyOrFilter isActive isLiteFalseCount].
  destruct (JsMap.size (JsMap.delete listener (listeners group)) =? 0)%nat.
  { by rewrite silent_drain, silent_doUnsubscribe. }
  destruct (negb prevIsLite); [|done].
  destruct (_ =? 0)%Z; [|done].
  by rewrite silent_drain, silent_doSubscribe, silent_drain, silent_doUnsubscribe.
Qed.

Lemma silent_registerKeyListener listener key isLite st :
  silent (registerKeyListener json listener key isLite st)
  = registerKeyListener json listener key isLite (silent st).
Proof.
  unfold registerKeyListener. change (keyMap (silent st)) with (keyMap st).
  destruct (keyMap st !! stringify json key) as [group|];
    unfold new_group; cbv beta iota zeta; by rewrite silent_addListener.
Qed.

Lemma silent_removeKeyListener listener key st :
  silent (removeKeyListener json listener key st)
  = removeKeyListener json listener key (silent st).
Proof.
  unfold removeKeyListener. change (keyMap (silent st)) with (keyMap st).
  destruct (keyMap st !! stringify json key) as [group|]; [|done].
  apply silent_removeListener.
Qed.

Lemma silent_registerFilterListener listener mapFilter isLite st :
  silent (registerFilterListener json listener mapFilter isLite st)
  = registerFilterListener json listener mapFilter isLite (silent st).
Proof.
  unfold registerFilterListener. change (filterMap (silent st)) with (filterMap st).
  destruct (filterMap st !! _) as [group|];
    unfold new_group; cbv beta iota zeta; by rewrite silent_addListener.
Qed.

Lemma silent_removeFilterListener listener mapFilter st :
  silent (removeFilterListener json listener mapFilter st)
  = removeFilterListener json listener mapFilter (silent st).
Proof.
  unfold removeFilterListener. change (filterMap (silent st)) with (filterMap st).
  destruct (filterMap st !! _) as [group|]; [|done].
  apply silent_removeListener.
Qed.

Lemma silent_operate st op :
  silent (operate json st op)
  = match op with
    | SetMapEventsDebugLevel _ => silent st
    | _ => operate json (silent st) op
    end.
Proof.
  destruct op; simpl.
  - apply silent_registerKeyListener.
  - apply silent_removeKeyListener.
  - apply silent_registerFilterListener.
  - apply silent_removeFilterListener.
  - apply silent_handleResponse.
  - unfold onError. change (markedForClose (silent st)) with (markedForClose st).
    destruct (markedForClose st); by rewrite silent_emit.
  - unfold onEnd. by rewrite silent_emit.
  - unfold onCancel. change (markedForClose (silent st)) with (markedForClose st).
    destruct (markedForClose st); by rewrite silent_emit.
  - done.
Qed.

(** X24: the debug level changes nothing but what is printed: after any
    sequence of registrations, removals, stream reports and changes of
    the debug level, the dispatcher is, apart from its debug level and
    the printed lines of its trace, in the state that the same sequence
    without the changes of the debug level reaches from the same state
    with the debug level at zero; the requests sent, the listeners
    called, the indices and the groups are the same. *)
Theorem debug_level_only_prints (ops : list Operation) (st : MapEventsManager) :
  silent (operations json ops st) = operations json (without_levels ops) (silent st).
Proof.
  revert st. induction ops as [|op ops IH]; intros st; [done|].
  unfold operations in *. simpl. rewrite IH, silent_operate.
  by destruct op.
Qed.

End MoreDebugFacts.

(** ** The event dispatcher: the protocol on streams *)
Section MoreProtocolFacts.
Import Events.
Variable json : Json.

Lemma reports_app (a b : list Action) : reports (a ++ b) = reports a ++ reports b.
Proof. apply List.filter_app. Qed.

Lemma reports_perform a st :
  reports [a] = [] -> reports (trace (perform a st)) = reports (trace st).
Proof. intros Ha. unfold perform. simpl. by rewrite reports_app, Ha, app_nil_r. Qed.

Lemma reports_pending_set uid callback st :
  reports (trace (pending_set uid callback st)) = reports (trace st).
Proof. unfold pending_set. by rewrite reports_perform. Qed.

Lemma reports_pending_delete uid st :
  reports (trace (pending_delete uid st)) = reports (trace st).
Proof. unfold pending_delete. by rewrite reports_perform. Qed.

Lemma reports_run_callback callback uid st :
  reports (trace (run_callback callback uid st)) = reports (trace st).
Proof.
  destruct callback as [stream|request]; simpl.
  - apply reports_pending_delete.
  - destruct (1 <? _)%Z; by rewrite ?reports_perform, reports_pending_delete.
Qed.

Lemma reports_deliveries mapEvent group : reports (deliveries mapEvent group) = [].
Proof. unfold deliveries. by induction (JsMap.keys (listeners group)). Qed.

Lemma reports_fan_out mapEvent (gs : list ListenerGroup) :
  reports (flat_map (deliveries mapEvent) gs) = [].
Proof.
  induction gs as [|g gs IH]; [done|]. simpl.
  by rewrite reports_app, reports_deliveries, IH.
Qed.

Lemma reports_handleResponse resp st :
  reports (trace (handleResponse json resp st)) = reports (trace st).
Proof.
  destruct resp as [uid|uid| | |[event|]|].
  1,2: unfold handleResponse; destruct (String.eqb uid ""); [done|];
       destruct (pendingSubscriptions st !! uid) as [callback|];
       by rewrite ?reports_run_callback, reports_pending_delete.
  - unfold handleResponse, emit. by rewrite reports_perform.
  - unfold handleResponse, emit. by rewrite reports_perform.
  - rewrite handleResponse_event_eq. simpl.
    rewrite !reports_app, reports_fan_out. destruct (0 <? _)%Z; simpl; by rewrite app_nil_r.
  - done.
  - done.
Qed.

Lemma reports_stream_settled promise st :
  reports (trace (stream_settled json promise st)) = reports (trace st).
Proof.
  unfold stream_settled. case_bool_decide; [done|apply reports_handleResponse].
Qed.

Lemma reports_run_job st job :
  reports (trace (run_job json st job)) = reports (trace st).
Proof.
  destruct job as [promise]. unfold run_job.
  change (trace (set_streamPromise ?p ?s)) with (trace s).
  by rewrite reports_perform, reports_stream_settled.
Qed.

Lemma reports_send stream request st :
  reports (trace (send stream request st)) = reports (trace st).
Proof.
  unfold send. rewrite reports_perform by done.
  destruct (1 <? _)%Z; by rewrite ?reports_perform, reports_pending_set.
Qed.

Lemma reports_writeRequest request st :
  jobs st = [] ->
  reports (trace (writeRequest json request st))
  = reports (trace (ensureStream st).2).
Proof.
  intros Hjobs. unfold writeRequest.
  pose proof (ensureStream_fields st) as (_ & Hj & _). revert Hj.
  destruct (ensureStream st) as [promise st1]. simpl. intros Hj.
  rewrite (drain_quiescent json st1) by congruence.
  rewrite reports_handleResponse.
  rewrite drain_quiescent.
  - by rewrite reports_send, reports_stream_settled.
  - pose proof (settles_with_stream_settled json promise st1) as H1.
    pose proof (settles_with_send (sp_stream promise) request
                  (stream_settled json promise st1)) as H2.
    pose proof (settles_with_trans _ _ _ _ _ H1 H2) as [H3 _].
    apply settles_fields in H3.
    destruct H3 as (_ & _ & _ & _ & _ & _ & _ & _ & _ & ->). congruence.
Qed.

Lemma replay_app live cancelled (a b : list Action) :
  replay live cancelled (a ++ b)
  = match replay live cancelled a with
    | Some (live', cancelled') => replay live' cancelled' b
    | None => None
    end.
Proof.
  revert live cancelled. induction a as [|x a IH]; intros live cancelled; [done|].
  destruct x; simpl; try apply IH.
  - destruct live; [done|]. case_bool_decide; [done|apply IH].
  - case_bool_decide; [apply IH|done].
  - case_bool_decide; [apply IH|]. case_bool_decide; [apply IH|done].
  - destruct (passes_report event); apply IH.
Qed.

Lemma replay_stream_ops live cancelled (a : list Action) :
  reports a = [] ->
  replay live cancelled (stream_ops a) = replay live cancelled a.
Proof.
  revert live cancelled. induction a as [|x a IH]; intros live cancelled Hr; [done|].
  destruct x; simpl in *; try by apply IH.
  - destruct live; [done|]. case_bool_decide; [done|by apply IH].
  - case_bool_decide; [by apply IH|done].
  - case_bool_decide; [by apply IH|]. case_bool_decide; [by apply IH|done].
  - destruct (passes_report event); [done|by apply IH].
Qed.

Lemma replay_settles_with st st' ops :
  settles_with st st' ops ->
  reports (trace st') = reports (trace st) ->
  replay None [] (trace st')
  = match replay None [] (trace st) with
    | Some (live, cancelled) => replay live cancelled ops
    | None => None
    end.
Proof.
  intros (_ & a & Ha & Ho) Hr. unfold added in Ha.
  rewrite Ha, replay_app. destruct (replay None [] (trace st)) as [[live cancelled]|]; [|done].
  rewrite <- Ho. symmetry. apply replay_stream_ops.
  rewrite Ha, reports_app in Hr.
  rewrite <- (app_nil_r (reports (trace st))) in Hr at 2.
  by apply app_inv_head in Hr.
Qed.

Lemma follows_protocol_same st st' :
  streamPromise st' = streamPromise st -> jobs st' = jobs st ->
  next_stream st' = next_stream st -> trace st' = trace st ->
  follows_protocol st -> follows_protocol st'.
Proof.
  unfold follows_protocol, held. intros -> -> -> ->. done.
Qed.

Lemma follows_protocol_quiet st st' :
  settles_with st st' [] -> reports (trace st') = reports (trace st) ->
  follows_protocol st -> follows_protocol st'.
Proof.
  intros Hs Hr (Hjobs & cancelled & Hrep & Hbound).
  pose proof (settles_fields _ _ (proj1 Hs))
    as (_ & Hsp & _ & _ & _ & _ & _ & _ & Hns & Hj).
  split; [congruence|]. exists cancelled. unfold held in *. rewrite Hsp, Hns.
  split; [|done]. by rewrite (replay_settles_with st st' [] Hs Hr), Hrep.
Qed.

(** A report that arrives while no stream is held changes nothing. *)
Lemma follows_protocol_emit event args st :
  held st = None -> follows_protocol st -> follows_protocol (emit event args st).
Proof.
  intros Hheld (Hjobs & cancelled & Hrep & Hbound).
  split; [done|]. exists cancelled. unfold held in *. simpl.
  split; [|done]. rewrite replay_app, Hrep, Hheld. simpl.
  by destruct (passes_report event).
Qed.

Lemma ensureStream_follows st :
  follows_protocol st ->
  follows_protocol (ensureStream st).2
  /\ streamPromise (ensureStream st).2 = Some (ensureStream st).1.
Proof.
  intros (Hjobs & cancelled & Hrep & Hbound). unfold ensureStream.
  unfold follows_protocol, held in *.
  destruct (streamPromise st) as [promise|] eqn:Hsp; simpl.
  - split; [|done]. split; [done|]. exists cancelled. by rewrite Hsp.
  - split; [|done]. split; [done|]. exists cancelled. simpl in *.
    rewrite <- !app_assoc, replay_app, Hrep. simpl.
    rewrite bool_decide_eq_false_2.
    + rewrite bool_decide_eq_true_2 by done. split; [done|].
      constructor; [lia|]. eapply Forall_impl; [exact Hbound|]. simpl. lia.
    + intros Hin. apply (proj1 (Forall_forall _ _) Hbound) in Hin. lia.
Qed.

Lemma writeRequest_follows request st :
  follows_protocol st ->
  follows_protocol (writeRequest json request st)
  /\ streamPromise (writeRequest json request st) = Some (ensureStream st).1.
Proof.
  intros Hst. pose proof Hst as (Hjobs & _).
  destruct (ensureStream_follows st Hst) as ((_ & cancelled & Hrep & Hbound) & Hsp).
  pose proof (writeRequest_quiescent json request st Hjobs) as Hw.
  pose proof (settles_fields _ _ (proj1 Hw))
    as (_ & Hsp' & _ & _ & _ & _ & _ & _ & Hns & Hj).
  pose proof (ensureStream_fields st) as (_ & Hj0 & _).
  split; [|congruence]. split; [congruence|]. exists cancelled.
  unfold held in *. rewrite Hsp', Hns. split; [|done].
  rewrite (replay_settles_with _ _ _ Hw (reports_writeRequest request st Hjobs)), Hrep.
  rewrite Hsp. simpl. by rewrite bool_decide_eq_true_2.
Qed.
Lemma close_queues promise n st :
  streamPromise st = Some promise -> jobs st = repeat (CloseResume promise) n ->
  streamPromise (close st) = Some promise
  /\ jobs (close st) = repeat (CloseResume promise) (S n)
  /\ next_stream (close st) = next_stream st /\ trace (close st) = trace st.
Proof.
  intros Hsp Hjobs. rewrite (close_open promise st Hsp). simpl.
  by rewrite Hjobs, <- repeat_cons.
Qed.

Lemma checkAndCloseEventStream_queues promise n st :
  streamPromise st = Some promise -> jobs st = repeat (CloseResume promise) n ->
  streamPromise (checkAndCloseEventStream st) = Some promise
  /\ (exists m, jobs (checkAndCloseEventStream st) = repeat (CloseResume promise) m)
  /\ next_stream (checkAndCloseEventStream st) = next_stream st
  /\ trace (checkAndCloseEventStream st) = trace st.
Proof.
  intros Hsp Hjobs. unfold checkAndCloseEventStream. destruct (_ && _).
  - destruct (close_queues promise n st Hsp Hjobs) as (H1 & H2 & H3 & H4).
    split; [done|]. split; [by exists (S n)|done].
  - split; [done|]. split; [by exists n|done].
Qed.

Lemma postUnsubscribe_queues promise this group request st :
  streamPromise st = Some promise -> jobs st = [] ->
  streamPromise (postUnsubscribe json this group request st) = Some promise
  /\ (exists m, jobs (postUnsubscribe json this group request st)
                = repeat (CloseResume promise) m)
  /\ next_stream (postUnsubscribe json this group request st) = next_stream st
  /\ trace (postUnsubscribe json this group request st) = trace st.
Proof.
  intros Hsp Hjobs. unfold postUnsubscribe.
  destruct (keyOrFilter group) as [key|filter].
  - destruct (getType request) as [|rkey|rfilter].
    + split; [done|]. split; [by exists 0%nat|done].
    + unfold keyGroupUnsubscribed.
      exact (checkAndCloseEventStream_queues promise 0 (set_keyMap _ st) Hsp Hjobs).
    + split; [done|]. split; [by exists 0%nat|done].
  - unfold filterGroupUnsubscribed.
    exact (checkAndCloseEventStream_queues promise 0
             (set_filterMap _ (set_filterId2ListenerGroup _ st)) Hsp Hjobs).
Qed.

Lemma fold_jobs_follows promise (n : nat) st cancelled :
  jobs st = [] ->
  Forall (fun s => (s < next_stream st)%nat) (sp_stream promise :: cancelled) ->
  (streamPromise st = Some promise
   /\ replay None [] (trace st) = Some (Some (sp_stream promise), cancelled))
  \/ (streamPromise st = None /\ sp_stream promise ∈ cancelled
      /\ replay None [] (trace st) = Some (None, cancelled)) ->
  follows_protocol (fold_left (run_job json) (repeat (CloseResume promise) n) st)
  /\ (n <> 0%nat ->
      streamPromise (fold_left (run_job json) (repeat (CloseResume promise) n) st)
      = None).
Proof.
  revert st cancelled. induction n as [|n IH]; intros st cancelled Hjobs Hbound Hcase.
  - simpl. split; [|done]. split; [done|].
    destruct Hcase as [(Hsp & Hrep)|(Hsp & Hin & Hrep)].
    + exists cancelled. unfold held. by rewrite Hsp.
    + exists cancelled. unfold held. rewrite Hsp. simpl. split; [done|].
      by apply Forall_cons in Hbound as [_ ?].
  - cbn [repeat fold_left].
    pose proof (reports_run_job st (CloseResume promise)) as Hr.
    destruct (run_job_eq json st promise) as (st1 & Hs & Heq).
    rewrite Heq in Hr |- *.
    change (trace (set_streamPromise None st1)) with (trace st1) in Hr.
    pose proof (settles_fields _ _ (proj1 Hs))
      as (_ & Hsp1 & _ & _ & _ & _ & _ & _ & Hns1 & Hj1).
    assert (exists cancelled',
              Forall (fun s => (s < next_stream st1)%nat)
                (sp_stream promise :: cancelled')
              /\ sp_stream promise ∈ cancelled'
              /\ replay None [] (trace st1) = Some (None, cancelled'))
      as (cancelled' & Hbound' & Hin' & Hrep').
    { destruct Hcase as [(Hsp & Hrep)|(Hsp & Hin & Hrep)].
      - exists (sp_stream promise :: cancelled). rewrite Hns1.
        split; [constructor; [by apply Forall_cons in Hbound as [? _]|done]|].
        split; [apply list_elem_of_here|].
        rewrite (replay_settles_with _ _ _ Hs Hr), Hrep. simpl.
        by rewrite bool_decide_eq_true_2.
      - exists cancelled. rewrite Hns1. split; [done|]. split; [done|].
        rewrite (replay_settles_with _ _ _ Hs Hr), Hrep. simpl.
        by rewrite (bool_decide_eq_true_2 (sp_stream promise ∈ cancelled)). }
    destruct (IH (set_streamPromise None st1) cancelled') as [Hf Hnone];
      [simpl; congruence|done|by right|].
    split; [done|]. intros _. destruct n as [|n]; [done|]. by apply Hnone.
Qed.

Lemma drain_follows promise n st :
  streamPromise st = Some promise -> jobs st = repeat (CloseResume promise) n ->
  (exists cancelled,
     replay None [] (trace st) = Some (Some (sp_stream promise), cancelled)
     /\ Forall (fun s => (s < next_stream st)%nat) (sp_stream promise :: cancelled)) ->
  follows_protocol (drain json st).
Proof.
  intros Hsp Hjobs (cancelled & Hrep & Hbound). unfold drain. rewrite Hjobs.
  apply (fold_jobs_follows promise n (set_jobs [] st) cancelled); [done|done|].
  left. by split.
Qed.

Lemma doSubscribe_follows isLite this st :
  follows_protocol st -> follows_protocol (drain json (doSubscribe json isLite this st)).
Proof.
  intros Hst. unfold doSubscribe.
  destruct (groups st !! this) as [group|]; [|by rewrite drain_quiescent by apply Hst].
  destruct (mapListenerRequest _ _ _ _) as [request factory].
  assert (follows_protocol (set_requests factory st)) as Hst0.
  { by apply (follows_protocol_same st). }
  destruct (writeRequest_follows request _ Hst0) as [Hw _].
  set (st1 := writeRequest json request _) in *.
  assert (follows_protocol (postSubscribe this group request st1)) as Hpost.
  { apply (follows_protocol_same st1); try done;
      unfold postSubscribe; by destruct (keyOrFilter group). }
  by rewrite drain_quiescent by apply Hpost.
Qed.

Lemma doUnsubscribe_follows closeStreamIfPossible this st :
  follows_protocol st ->
  follows_protocol (drain json (doUnsubscribe json closeStreamIfPossible this st)).
Proof.
  intros Hst. unfold doUnsubscribe.
  destruct (groups st !! this) as [group|]; [|by rewrite drain_quiescent by apply Hst].
  destruct (mapListenerRequest _ _ _ _) as [request factory].
  assert (follows_protocol (set_requests factory st)) as Hst0.
  { by apply (follows_protocol_same st). }
  destruct (writeRequest_follows request _ Hst0)
    as [(Hjobs & cancelled & Hrep & Hbound) Hsp].
  set (st1 := writeRequest json request _) in *.
  set (promise := (ensureStream (set_requests factory st)).1) in *.
  destruct (postUnsubscribe_queues promise this group request st1 Hsp Hjobs)
    as (Hsp2 & (m & Hj2) & Hns2 & Ht2).
  set (st2 := postUnsubscribe json this group request st1) in *.
  assert (exists k,
            streamPromise (if closeStreamIfPossible
                           then checkAndCloseEventStream st2 else st2) = Some promise
            /\ jobs (if closeStreamIfPossible
                     then checkAndCloseEventStream st2 else st2)
               = repeat (CloseResume promise) k
            /\ next_stream (if closeStreamIfPossible
                            then checkAndCloseEventStream st2 else st2)
               = next_stream st1
            /\ trace (if closeStreamIfPossible
                      then checkAndCloseEventStream st2 else st2) = trace st1)
    as (k & Hsp3 & Hj3 & Hns3 & Ht3).
  { destruct closeStreamIfPossible.
    - destruct (checkAndCloseEventStream_queues promise m st2 Hsp2 Hj2)
        as (H1 & (k & H2) & H3 & H4).
      exists k. repeat split; congruence.
    - exists m. repeat split; congruence. }
  apply (drain_follows promise k); [done|done|].
  exists cancelled. unfold held in *. rewrite Hsp in *. simpl in *.
  by rewrite Ht3, Hns3.
Qed.

Lemma addListener_follows listener isLite this st :
  follows_protocol st -> follows_protocol (addListener json listener isLite this st).
Proof.
  intros Hst. unfold addListener.
  destruct (groups st !! this) as [group|]; [|done].
  destruct (match JsMap.get listener (listeners group) with
            | Some prevIsLite => Bool.eqb prevIsLite isLite
            | None => false
            end); [done|].
  cbn [listeners registeredIsLite keyOrFilter isActive isLiteFalseCount].
  destruct (_ || _); [|by apply (follows_protocol_same st)].
  apply doSubscribe_follows.
  destruct (1 <? _)%nat; [|by apply (follows_protocol_same st)].
  apply doUnsubscribe_follows. by apply (follows_protocol_same st).
Qed.

Lemma removeListener_follows listener this st :
  follows_protocol st -> follows_protocol (removeListener json listener this st).
Proof.
  intros Hst. unfold removeListener.
  destruct (groups st !! this) as [group|]; [|done].
  destruct (JsMap.get listener (listeners group)) as [prevIsLite|]; [|done].
  destruct (JsMap.size (listeners group) =? 0)%nat; [done|].
  cbn [listeners registeredIsLite keyOrFilter isActive isLiteFalseCount].
  destruct (JsMap.size (JsMap.delete listener (listeners group)) =? 0)%nat.
  { apply doUnsubscribe_follows. by apply (follows_protocol_same st). }
  destruct (negb prevIsLite); [|by apply (follows_protocol_same st)].
  destruct (_ =? 0)%Z; [|by apply (follows_protocol_same st)].
  apply doSubscribe_follows, doUnsubscribe_follows.
  by apply (follows_protocol_same st).
Qed.

Lemma operate_follows st op :
  (is_report op = true -> held st = None) ->
  follows_protocol st -> follows_protocol (operate json st op).
Proof.
  intros Hcalm Hst. destruct op; simpl.
  - unfold registerKeyListener.
    destruct (keyMap st !! stringify json key) as [group|];
      unfold new_group; cbv beta iota zeta; apply addListener_follows;
      [done|by apply (follows_protocol_same st)].
  - unfold removeKeyListener.
    destruct (keyMap st !! stringify json key) as [group|]; [|done].
    by apply removeListener_follows.
  - unfold registerFilterListener.
    destruct (filterMap st !! _) as [group|];
      unfold new_group; cbv beta iota zeta; apply addListener_follows;
      [done|by apply (follows_protocol_same st)].
  - unfold removeFilterListener.
    destruct (filterMap st !! _) as [group|]; [|done].
    by apply removeListener_follows.
  - eapply follows_protocol_quiet;
      [apply settles_with_handleResponse|apply reports_handleResponse|done].
  - unfold onError. destruct (markedForClose st).
    + apply follows_protocol_emit; [by apply Hcalm|].
      by apply (follows_protocol_same st).
    + apply follows_protocol_emit; [by apply Hcalm|done].
  - apply follows_protocol_emit; [by apply Hcalm|done].
  - unfold onCancel. destruct (markedForClose st).
    + apply follows_protocol_emit; [by apply Hcalm|].
      by apply (follows_protocol_same st).
    + apply follows_protocol_emit; [by apply Hcalm|done].
  - by apply (follows_protocol_same st).
Qed.

Lemma operations_follow (ops : list Operation) st :
  calm json st ops = true ->
  follows_protocol st -> follows_protocol (operations json ops st).
Proof.
  revert st. induction ops as [|op ops IH]; intros st Hcalm Hst; [done|].
  simpl in Hcalm. apply andb_true_iff in Hcalm as [Hop Hrest].
  unfold operations in *. simpl. apply IH; [done|].
  apply operate_follows; [|done]. intros Hrep. rewrite Hrep in Hop.
  by apply bool_decide_eq_true in Hop.
Qed.

(** What a report of the stream leaves of the dispatcher. *)
Lemma report_emits st op :
  is_report op = true ->
  exists event args,
    passes_report event = true
    /\ trace (operate json st op) = trace st ++ [Emit event args]
    /\ streamPromise (operate json st op) = streamPromise st
    /\ jobs (operate json st op) = jobs st.
Proof.
  destruct op; try done; intros _; simpl.
  - unfold onError. destruct (markedForClose st).
    + by exists "closed", [JStr (cacheName st); JBool true].
    + by exists "error", [JStr (cacheName st); JStr err].
  - by exists "closed", [JStr (cacheName st)].
  - unfold onCancel. destruct (markedForClose st).
    + by exists "closed", [JStr (cacheName st); JBool true].
    + by exists "cancel", [JStr "** Received onCancel"].
Qed.

Lemma report_is_overlooked st op request :
  follows_protocol st -> is_report op = true -> held st <> None ->
  held (operate json st op) = held st
  /\ replay None [] (trace (writeRequest json request (operate json st op))) = None.
Proof.
  intros (Hjobs & cancelled & Hrep & _) Hop Hheld.
  destruct (report_emits st op Hop) as (event & args & Hev & Ht & Hsp & Hj).
  set (st1 := operate json st op) in *.
  split; [unfold held; by rewrite Hsp|].
  assert (jobs st1 = []) as Hjobs1 by congruence.
  pose proof (writeRequest_quiescent json request st1 Hjobs1) as Hw.
  pose proof (reports_writeRequest request st1 Hjobs1) as Hr.
  unfold held in *. rewrite <- Hsp in Hheld.
  unfold ensureStream in Hw, Hr.
  destruct (streamPromise st1) as [promise|] eqn:Hsp1; [|done]. simpl in Hw, Hr.
  rewrite (replay_settles_with _ _ _ Hw Hr), Ht, replay_app, Hrep.
  rewrite <- Hsp. simpl. rewrite Hev. simpl. done.
Qed.

(** X25: a dispatcher keeps to the protocol of its streams as long as
    its stream reports nothing but data while it is held.  After any
    sequence of registrations, removals, stream data and changes of the
    debug level on a new dispatcher, with an end, an error or a
    cancellation reported only while the dispatcher holds no stream, no
    continuation of [close] is left behind, and in its trace a stream
    is opened only when none is open, every request is written to the
    stream that is open, only the open stream or one that is gone is
    cancelled, and the stream left open is the one the dispatcher
    holds.  The dispatcher does not heed a report about the stream it
    holds: after ['end'], ['error'] or ['cancelled'] it holds the same
    stream as before, and the next request is written to that stream,
    which is gone. *)
Theorem dispatcher_follows_protocol (cacheName : string) (ops : list Operation) :
  calm json (new_MapEventsManager cacheName) ops = true ->
  follows_protocol (operations json ops (new_MapEventsManager cacheName))
  /\ forall op request,
       is_report op = true ->
       held (operations json ops (new_MapEventsManager cacheName)) <> None ->
       held (operate json (operations json ops (new_MapEventsManager cacheName)) op)
       = held (operations json ops (new_MapEventsManager cacheName))
       /\ replay None []
            (trace (writeRequest json request
                      (operate json
                         (operations json ops (new_MapEventsManager cacheName)) op)))
          = None.
Proof.
  intros Hcalm.
  assert (follows_protocol (operations json ops (new_MapEventsManager cacheName)))
    as Hst.
  { apply operations_follow; [done|]. split; [done|]. exists []. split; [done|].
    constructor. }
  split; [done|]. intros op request Hop Hheld. by apply report_is_overlooked.
Qed.

End MoreProtocolFacts.

Lemma dispatcher_follows_protocol_witness :
  Events.follows_protocol
    (Events.operations Events.example_json
       [Events.RegisterKeyListener 1 (JStr "k") (Some true);
        Events.RemoveKeyListener 1 (JStr "k");
        Events.StreamCancelled;
        Events.RegisterKeyListener 2 (JStr "j") None]
       (Events.new_MapEventsManager "orders")).
Proof.
  refine (proj1 (dispatcher_follows_protocol Events.example_json "orders"
                   [Events.RegisterKeyListener 1 (JStr "k") (Some true);
                    Events.RemoveKeyListener 1 (JStr "k");
                    Events.StreamCancelled;
                    Events.RegisterKeyListener 2 (JStr "j") None] _)).
  by vm_compute.
Defined.

(** ** The event dispatcher: who is called *)
Section MoreAudienceFacts.
Import Events.
Variable json : Json.

Lemma called_app (a b : list Action) : called (a ++ b) = called a ++ called b.
Proof. apply omap_app. Qed.

Lemma audience_perform a st :
  called [a] = [] -> audience (perform a st) = audience st.
Proof.
  intros Ha. unfold audience, perform. simpl. by rewrite called_app, Ha, app_nil_r.
Qed.

Lemma audience_pending_set uid callback st :
  audience (pending_set uid callback st) = audience st.
Proof. unfold pending_set. by rewrite audience_perform. Qed.

Lemma audience_pending_delete uid st : audience (pending_delete uid st) = audience st.
Proof. unfold pending_delete. by rewrite audience_perform. Qed.

Lemma audience_emit event args st : audience (emit event args st) = audience st.
Proof. unfold emit. by rewrite audience_perform. Qed.

Lemma audience_run_callback callback uid st :
  audience (run_callback callback uid st) = audience st.
Proof.
  destruct callback as [stream|request]; simpl.
  - change (audience (set_fulfilled ?f ?s)) with (audience s).
    apply audience_pending_delete.
  - destruct (1 <? _)%Z; by rewrite ?audience_perform, audience_pending_delete.
Qed.

Lemma audience_acknowledged uid st :
  audience (handleResponse json (SUBSCRIBED uid) st) = audience st
  /\ audience (handleResponse json (UNSUBSCRIBED uid) st) = audience st.
Proof.
  unfold handleResponse. destruct (String.eqb uid ""); [done|].
  destruct (pendingSubscriptions st !! uid) as [callback|];
    by rewrite ?audience_run_callback, audience_pending_delete.
Qed.

Lemma audience_stream_settled promise st :
  audience (stream_settled json promise st) = audience st.
Proof.
  unfold stream_settled. case_bool_decide; [done|apply audience_acknowledged].
Qed.

Lemma audience_run_job st job : audience (run_job json st job) = audience st.
Proof.
  destruct job as [promise]. unfold run_job.
  change (audience (set_streamPromise ?p ?s)) with (audience s).
  by rewrite audience_perform, audience_stream_settled.
Qed.

Lemma audience_fold_jobs (js : list Job) st :
  audience (fold_left (run_job json) js st) = audience st.
Proof.
  revert st. induction js as [|j js IH]; intros st; [done|]. simpl.
  by rewrite IH, audience_run_job.
Qed.

Lemma audience_drain st : audience (drain json st) = audience st.
Proof. unfold drain. by rewrite audience_fold_jobs. Qed.

Lemma audience_ensureStream st : audience (ensureStream st).2 = audience st.
Proof.
  unfold ensureStream. destruct (streamPromise st); [done|]. simpl.
  unfold audience. simpl. by rewrite !called_app, !app_nil_r.
Qed.

Lemma audience_send stream request st :
  audience (send stream request st) = audience st.
Proof.
  unfold send. rewrite audience_perform by done.
  destruct (1 <? _)%Z; by rewrite ?audience_perform, audience_pending_set.
Qed.

Lemma audience_writeRequest request st :
  audience (writeRequest json request st) = audience st.
Proof.
  unfold writeRequest. pose proof (audience_ensureStream st) as He. revert He.
  destruct (ensureStream st) as [promise st1]. simpl. intros <-.
  assert (audience (handleResponse json (acknowledgement request)
                      (drain json (send (sp_stream promise) request
                                     (stream_settled json promise (drain json st1)))))
          = audience (drain json (send (sp_stream promise) request
                                    (stream_settled json promise (drain json st1)))))
    as ->.
  { unfold acknowledgement. destruct (getSubscribe request); apply audience_acknowledged. }
  by rewrite audience_drain, audience_send, audience_stream_settled, audience_drain.
Qed.

Lemma audience_close st : audience (close st) = audience st.
Proof. unfold close. by destruct (streamPromise st). Qed.

Lemma audience_checkAndCloseEventStream st :
  audience (checkAndCloseEventStream st) = audience st.
Proof.
  unfold checkAndCloseEventStream. destruct (_ && _); [apply audience_close|done].
Qed.

Lemma audience_postSubscribe this group request st :
  audience (postSubscribe this group request st) = audience st.
Proof. unfold postSubscribe. by destruct (keyOrFilter group). Qed.

Lemma audience_postUnsubscribe this group request st :
  audience (postUnsubscribe json this group request st) = audience st.
Proof.
  unfold postUnsubscribe. destruct (keyOrFilter group).
  - destruct (getType request); [done| |done].
    unfold keyGroupUnsubscribed. by rewrite audience_checkAndCloseEventStream.
  - unfold filterGroupUnsubscribed. by rewrite audience_checkAndCloseEventStream.
Qed.

Lemma audience_doSubscribe isLite this st :
  audience (doSubscribe json isLite this st) = audience st.
Proof.
  unfold doSubscribe. destruct (groups st !! this) as [group|]; [|done].
  destruct (mapListenerRequest _ _ _ _) as [request factory].
  by rewrite audience_postSubscribe, audience_writeRequest.
Qed.

Lemma audience_doUnsubscribe closeStreamIfPossible this st :
  audience (doUnsubscribe json closeStreamIfPossible this st) = audience st.
Proof.
  unfold doUnsubscribe. destruct (groups st !! this) as [group|]; [|done].
  destruct (mapListenerRequest _ _ _ _) as [request factory].
  destruct closeStreamIfPossible;
    by rewrite ?audience_checkAndCloseEventStream, audience_postUnsubscribe,
      audience_writeRequest.
Qed.

Lemma only_known_audience known st st' :
  audience st' = audience st -> only_known known st -> only_known known st'.
Proof. unfold only_known, audience. by intros [= -> ->]. Qed.

Lemma only_known_mono known known' st :
  (forall l, l ∈ known -> l ∈ known') -> only_known known st -> only_known known' st.
Proof.
  intros Hsub [Hg Hc]. split.
  - intros ref g Href. eapply Forall_impl; [by apply (Hg ref)|]. exact Hsub.
  - eapply Forall_impl; [exact Hc|]. exact Hsub.
Qed.

Lemma only_known_set_group known this group st :
  only_known known st ->
  Forall (fun l => l ∈ known) (JsMap.keys (listeners group)) ->
  only_known known (set_groups (<[this := group]> (groups st)) st).
Proof.
  intros [Hg Hc] Hgroup. split; [|done]. simpl. by apply map_Forall_insert_2.
Qed.

Lemma addListener_known known listener isLite this st :
  listener ∈ known -> only_known known st ->
  only_known known (addListener json listener isLite this st).
Proof.
  intros Hl Hst. unfold addListener.
  destruct (groups st !! this) as [group|] eqn:Hthis; [|done].
  destruct (match JsMap.get listener (listeners group) with
            | Some prevIsLite => Bool.eqb prevIsLite isLite
            | None => false
            end); [done|].
  cbn [listeners registeredIsLite keyOrFilter isActive isLiteFalseCount].
  assert (Forall (fun l => l ∈ known)
            (JsMap.keys (JsMap.set listener isLite (listeners group)))) as Hkeys.
  { pose proof (proj1 Hst this group Hthis) as Hg. simpl in Hg.
    destruct (decide (listener ∈ JsMap.keys (listeners group))) as [Hin|Hnin].
    - by rewrite JsMap_keys_set_in.
    - rewrite JsMap_keys_set_notin by done. apply Forall_app. split; [done|].
      by repeat constructor. }
  destruct (_ || _); [|by apply only_known_set_group].
  eapply only_known_audience.
  { rewrite audience_drain, audience_doSubscribe. reflexivity. }
  destruct (1 <? _)%nat; [|by apply only_known_set_group].
  eapply only_known_audience.
  { rewrite audience_drain, audience_doUnsubscribe. reflexivity. }
  by apply only_known_set_group.
Qed.

Lemma removeListener_known known listener this st :
  only_known known st -> only_known known (removeListener json listener this st).
Proof.
  intros Hst. unfold removeListener.
  destruct (groups st !! this) as [group|] eqn:Hthis; [|done].
  destruct (JsMap.get listener (listeners group)) as [prevIsLite|]; [|done].
  destruct (JsMap.size (listeners group) =? 0)%nat; [done|].
  cbn [listeners registeredIsLite keyOrFilter isActive isLiteFalseCount].
  assert (Forall (fun l => l ∈ known)
            (JsMap.keys (JsMap.delete listener (listeners group)))) as Hkeys.
  { pose proof (proj1 Hst this group Hthis) as Hg. simpl in Hg.
    apply Forall_forall. intros l Hin. apply (proj1 (Forall_forall _ _) Hg).
    by apply (JsMap_keys_delete_subseteq listener (listeners group)). }
  destruct (JsMap.size (JsMap.delete listener (listeners group)) =? 0)%nat.
  { eapply only_known_audience.
    { rewrite audience_drain, audience_doUnsubscribe. reflexivity. }
    by apply only_known_set_group. }
  destruct (negb prevIsLite); [|by apply only_known_set_group].
  destruct (_ =? 0)%Z.
  - eapply only_known_audience.
    { rewrite audience_drain, audience_doSubscribe, audience_drain,
        audience_doUnsubscribe. reflexivity. }
    apply only_known_set_group; [|done]. by apply only_known_set_group.
  - apply only_known_set_group; [|done]. by apply only_known_set_group.
Qed.

Lemma called_audience st st' :
  audience st' = audience st -> called (trace st') = called (trace st).
Proof. unfold audience. by intros [= _ ->]. Qed.

Lemma called_addListener listener isLite this st :
  called (trace (addListener json listener isLite this st)) = called (trace st).
Proof.
  unfold addListener. destruct (groups st !! this) as [group|]; [|done].
  destruct (match JsMap.get listener (listeners group) with
            | Some prevIsLite => Bool.eqb prevIsLite isLite
            | None => false
            end); [done|].
  cbn [listeners registeredIsLite keyOrFilter isActive isLiteFalseCount].
  destruct (_ || _); [|done].
  rewrite (called_audience _ _ (eq_trans (audience_drain _) (audience_doSubscribe _ _ _))).
  destruct (1 <? _)%nat; [|done].
  by rewrite (called_audience _ _
                (eq_trans (audience_drain _) (audience_doUnsubscribe _ _ _))).
Qed.

Lemma called_removeListener listener this st :
  called (trace (removeListener json listener this st)) = called (trace st).
Proof.
  unfold removeListener. destruct (groups st !! this) as [group|]; [|done].
  destruct (JsMap.get listener (listeners group)) as [prevIsLite|]; [|done].
  destruct (JsMap.size (listeners group) =? 0)%nat; [done|].
  cbn [listeners registeredIsLite keyOrFilter isActive isLiteFalseCount].
  destruct (JsMap.size (JsMap.delete listener (listeners group)) =? 0)%nat.
  { by rewrite (called_audience _ _
                  (eq_trans (audience_drain _) (audience_doUnsubscribe _ _ _))). }
  destruct (negb prevIsLite); [|done].
  destruct (_ =? 0)%Z; [|done].
  rewrite (called_audience _ _ (eq_trans (audience_drain _) (audience_doSubscribe _ _ _))).
  by rewrite (called_audience _ _
                (eq_trans (audience_drain _) (audience_doUnsubscribe _ _ _))).
Qed.

Lemma reached_groups_exist st event group :
  group ∈ reached_groups json st event -> exists ref, groups st !! ref = Some group.
Proof.
  unfold reached_groups, filter_groups, key_group. intros [Hin|Hin]%elem_of_app.
  - apply list_elem_of_omap in Hin as (id & _ & Hid).
    destruct (filterId2ListenerGroup st !! id) as [ref|]; [|done]. by exists ref.
  - destruct (keyMap st !! _) as [ref|]; simpl in Hin; [|by apply elem_of_nil in Hin].
    destruct (groups st !! ref) as [g|] eqn:Href; simpl in Hin;
      [|by apply elem_of_nil in Hin].
    apply list_elem_of_singleton in Hin as ->. by exists ref.
Qed.

Lemma called_fan_out mapEvent (gs : list ListenerGroup) :
  called (flat_map (deliveries mapEvent) gs)
  = flat_map (fun g => JsMap.keys (listeners g)) gs.
Proof.
  induction gs as [|g gs IH]; [done|]. simpl.
  by rewrite called_app, called_deliveries, IH.
Qed.

Lemma handleResponse_known known resp st :
  only_known known st -> only_known known (handleResponse json resp st).
Proof.
  intros Hst. destruct resp as [uid|uid| | |[event|]|]; try done.
  - eapply only_known_audience; [apply audience_acknowledged|done].
  - eapply only_known_audience; [apply audience_acknowledged|done].
  - eapply only_known_audience; [apply audience_emit|done].
  - eapply only_known_audience; [apply audience_emit|done].
  - rewrite handleResponse_event_eq. destruct Hst as [Hg Hc]. split; [done|].
    simpl. rewrite !called_app, called_fan_out.
    apply Forall_app. split; [done|]. apply Forall_app. split.
    + by destruct (0 <? _)%Z.
    + apply Forall_forall. intros l Hl.
      apply list_elem_of_In, in_flat_map in Hl as (g & Hgin & Hl).
      apply (proj2 (list_elem_of_In _ _)) in Hgin, Hl.
      apply reached_groups_exist in Hgin as (ref & Href).
      by apply (proj1 (Forall_forall _ _) (Hg ref g Href)).
Qed.

Lemma operate_known known st op :
  only_known known st ->
  only_known (known ++ registered_by [op]) (operate json st op)
  /\ ((forall event, op <> StreamData (EVENT (Some event))) ->
      called (trace (operate json st op)) = called (trace st)).
Proof.
  intros Hst.
  assert (only_known (known ++ registered_by [op]) st) as Hst'.
  { eapply only_known_mono; [|exact Hst]. intros l Hl. apply elem_of_app. by left. }
  destruct op; cbn [operate]; simpl (registered_by _) in *.
  - split.
    + unfold registerKeyListener.
      destruct (keyMap st !! stringify json key) as [group|];
        unfold new_group; cbv beta iota zeta; apply addListener_known;
        try (apply elem_of_app; right; apply list_elem_of_here); [done|].
      apply (only_known_audience _
               (set_groups (<[next_group st := new_ListenerGroup (AKey key)]> (groups st))
                  st)); [done|].
      apply only_known_set_group; [done|constructor].
    + intros _. unfold registerKeyListener.
      destruct (keyMap st !! stringify json key) as [group|];
        unfold new_group; cbv beta iota zeta; by rewrite called_addListener.
  - rewrite app_nil_r in *. split.
    + unfold removeKeyListener.
      destruct (keyMap st !! stringify json key) as [group|]; [|done].
      by apply removeListener_known.
    + intros _. unfold removeKeyListener.
      destruct (keyMap st !! stringify json key) as [group|]; [|done].
      apply called_removeListener.
  - split.
    + unfold registerFilterListener.
      destruct (filterMap st !! _) as [group|];
        unfold new_group; cbv beta iota zeta; apply addListener_known;
        try (apply elem_of_app; right; apply list_elem_of_here); [done|].
      match goal with
      | |- only_known _ (set_filterMap _ (set_next_group _ (set_groups ?g st))) =>
          apply (only_known_audience _ (set_groups g st)); [done|]
      end.
      apply only_known_set_group; [done|constructor].
    + intros _. unfold registerFilterListener.
      destruct (filterMap st !! _) as [group|];
        unfold new_group; cbv beta iota zeta; by rewrite called_addListener.
  - rewrite app_nil_r in *. split.
    + unfold removeFilterListener.
      destruct (filterMap st !! _) as [group|]; [|done].
      by apply removeListener_known.
    + intros _. unfold removeFilterListener.
      destruct (filterMap st !! _) as [group|]; [|done].
      apply called_removeListener.
  - rewrite app_nil_r in *. split; [by apply handleResponse_known|].
    intros Hne. destruct resp as [uid|uid| | |[event|]|]; try done.
    + apply called_audience, audience_acknowledged.
    + apply called_audience, audience_acknowledged.
    + apply called_audience, audience_emit.
    + apply called_audience, audience_emit.
    + by destruct (Hne event).
  - rewrite app_nil_r in *. unfold onError. destruct (markedForClose st).
    + split; [|intros _; apply called_audience; by rewrite audience_emit].
      eapply only_known_audience; [by rewrite audience_emit|done].
    + split; [|intros _; apply called_audience; by rewrite audience_emit].
      eapply only_known_audience; [by rewrite audience_emit|done].
  - rewrite app_nil_r in *. unfold onEnd.
    split; [|intros _; apply called_audience; by rewrite audience_emit].
    eapply only_known_audience; [by rewrite audience_emit|done].
  - rewrite app_nil_r in *. unfold onCancel. destruct (markedForClose st).
    + split; [|intros _; apply called_audience; by rewrite audience_emit].
      eapply only_known_audience; [by rewrite audience_emit|done].
    + split; [|intros _; apply called_audience; by rewrite audience_emit].
      eapply only_known_audience; [by rewrite audience_emit|done].
  - rewrite app_nil_r in *. done.
Qed.

(** X26: a dispatcher calls none but registered listeners, and only
    when an event arrives: after any sequence of operations on a new
    dispatcher, every listener in a group and every listener that was
    called is one that a registration of the sequence named; and no
    operation other than the arrival of an EVENT response calls a
    listener, in whatever state. *)
Theorem only_registered_listeners_are_called (cacheName : string) (ops : list Operation) :
  only_known (registered_by ops) (operations json ops (new_MapEventsManager cacheName))
  /\ (forall listener,
        listener ∈ called (trace (operations json ops (new_MapEventsManager cacheName))) ->
        listener ∈ registered_by ops)
  /\ (forall st op,
        (forall event, op <> StreamData (EVENT (Some event))) ->
        called (trace (operate json st op)) = called (trace st)).
Proof.
  assert (forall st known,
            only_known known st ->
            only_known (known ++ registered_by ops) (operations json ops st)) as Hgen.
  { induction ops as [|op ops IH]; intros st known Hst.
    - by rewrite app_nil_r.
    - unfold operations in *. simpl.
      destruct (operate_known known st op Hst) as [Hop _].
      apply IH in Hop. rewrite <- app_assoc in Hop.
      assert (registered_by [op] ++ registered_by ops = registered_by (op :: ops)) as Heq.
      { unfold registered_by. by rewrite <- omap_app. }
      by rewrite Heq in Hop. }
  assert (only_known (registered_by ops)
            (operations json ops (new_MapEventsManager cacheName))) as Hall.
  { apply (Hgen _ []). split; [apply map_Forall_empty|constructor]. }
  split; [done|]. split.
  - intros l Hl. by apply (proj1 (Forall_forall _ _) (proj2 Hall)).
  - intros st op Hne. clear Hgen Hall.
    assert (forall known st', only_known known st' ->
              called (trace (operate json st' op)) = called (trace st')) as Hop.
    { intros known st' Hst'. by apply (operate_known known st' op Hst'). }
    apply (Hop (called (trace st) ++ flat_map (fun g => JsMap.keys (listeners g.2))
                                       (map_to_list (groups st)))).
    split.
    + intros ref g Href. apply Forall_forall. intros l Hl. apply elem_of_app. right.
      apply list_elem_of_In, in_flat_map. exists (ref, g). split.
      * apply list_elem_of_In. by apply elem_of_map_to_list.
      * by apply list_elem_of_In.
    + apply Forall_forall. intros l Hl. apply elem_of_app. by left.
Qed.

End MoreAudienceFacts.

(** ** The event dispatcher: filter groups *)
Section MoreFilterGroupFacts.
Import Events.
Variable json : Json.

Lemma doSubscribe_filter isLite this group filter st :
  groups st !! this = Some group -> keyOrFilter group = AFilter filter ->
  keyMap (doSubscribe json isLite this st) = keyMap st
  /\ filterMap (doSubscribe json isLite this st) = filterMap st.
Proof.
  intros Hthis Hfilter. unfold doSubscribe. rewrite Hthis, Hfilter. simpl.
  unfold postSubscribe. rewrite Hfilter. unfold filterGroupSubscribed. simpl.
  set (st1 := writeRequest json _ _).
  pose proof (indices_writeRequest json
                (mkRequest (generateNextRequestId (requests st)) (FILTER filter) true
                   isLite (nextFilterId (requests st)))
                (set_requests
                   (mkRequestFactory (rf_cacheName (requests st))
                      (S (nextRequestId (requests st)))
                      (nextFilterId (requests st) + 1)%Z) st)) as Hi.
  fold st1 in Hi. unfold indices in Hi. simpl in Hi. by injection Hi as -> -> _.
Qed.

Lemma doUnsubscribe_filter closeStreamIfPossible this group filter st :
  groups st !! this = Some group -> keyOrFilter group = AFilter filter ->
  keyMap (doUnsubscribe json closeStreamIfPossible this st) = keyMap st
  /\ filterMap (doUnsubscribe json closeStreamIfPossible this st)
     = delete (stringify_filter json filter) (filterMap st).
Proof.
  intros Hthis Hfilter. unfold doUnsubscribe. rewrite Hthis, Hfilter. simpl.
  unfold postUnsubscribe. rewrite Hfilter. unfold filterGroupUnsubscribed.
  set (st1 := writeRequest json _ _).
  pose proof (indices_writeRequest json
                (mkRequest (generateNextRequestId (requests st)) (FILTER filter) false
                   false (nextFilterId (requests st)))
                (set_requests
                   (mkRequestFactory (rf_cacheName (requests st))
                      (S (nextRequestId (requests st)))
                      (nextFilterId (requests st) + 1)%Z) st)) as Hi.
  fold st1 in Hi. unfold indices in Hi. simpl in Hi. injection Hi as Hk Hf _.
  assert (forall st0, indices (if closeStreamIfPossible
                              then checkAndCloseEventStream st0 else st0)
                      = indices st0) as Hc.
  { intros st0. destruct closeStreamIfPossible;
      [apply indices_checkAndCloseEventStream|done]. }
  match goal with
  | |- keyMap ?X = _ /\ filterMap ?X = _ =>
      assert (indices X
              = (keyMap st1, delete (stringify_filter json filter) (filterMap st1),
                 delete (nextFilterId (requests st)) (filterId2ListenerGroup st1))) as Hx
  end.
  { by rewrite Hc, indices_checkAndCloseEventStream. }
  unfold indices in Hx. injection Hx as Hxk Hxf _.
  split; [exact (eq_trans Hxk Hk)|].
  exact (eq_trans Hxf (f_equal (delete (stringify_filter json filter)) Hf)).
Qed.

(** X27: the re-registration that a listener with [isLite = false]
    causes in a filter group that is registered lite takes the group
    out of the filter index and does not put it back: the group keeps
    its listeners and the key index is untouched, but a later
    [removeFilterListener] for a filter that stringifies alike does
    nothing, and a later [registerFilterListener] for it does not find
    the group: it makes a new group and adds the listener to that. *)
Theorem upgrade_unindexes_filter_group
    (st : MapEventsManager) (this : nat) (group : ListenerGroup)
    (listener : nat) (filter : Filters.Filter) :
  groups st !! this = Some group ->
  keyOrFilter group = AFilter filter ->
  registeredIsLite group = true ->
  JsMap.get listener (listeners group) <> Some false ->
  (1 < JsMap.size (JsMap.set listener false (listeners group)))%nat ->
  keyMap (addListener json listener false this st) = keyMap st
  /\ filterMap (addListener json listener false this st)
     = delete (stringify_filter json filter) (filterMap st)
  /\ (listeners <$> groups (addListener json listener false this st) !! this)
     = Some (JsMap.set listener false (listeners group))
  /\ (forall other,
        stringify_filter json other = stringify_filter json filter ->
        (forall l, removeFilterListener json l (Some other)
                     (addListener json listener false this st)
                   = addListener json listener false this st)
        /\ (forall l isLite,
              registerFilterListener json l (Some other) isLite
                (addListener json listener false this st)
              = addListener json l (default false isLite)
                  (next_group (addListener json listener false this st))
                  (set_filterMap
                     (<[stringify_filter json other
                        := next_group (addListener json listener false this st)]>
                        (filterMap (addListener json listener false this st)))
                     (new_group (AFilter other)
                        (addListener json listener false this st)).2))).
Proof.
  intros Hthis Hfilter Hlite Hprev Hsize.
  rewrite (addListener_reregisters json listener this group st Hthis Hlite Hprev Hsize).
  set (group' := mkGroup _ _ _ _ _).
  set (st1 := set_groups (<[this := group']> (groups st)) st).
  assert (groups st1 !! this = Some group') as Hthis1 by apply lookup_insert_eq.
  destruct (reregistration_issues json this group' false st1 Hthis1) as (Hg & _).
  pose proof (doUnsubscribe_issues json false this group' st1 Hthis1) as Hunsub.
  apply (issues_then_quiet _ _ (drain json (doUnsubscribe json false this st1)))
    in Hunsub; [|apply run_drain].
  destruct Hunsub as (Hg2 & _).
  assert (keyMap (drain json (doSubscribe json false this
                                (drain json (doUnsubscribe json false this st1))))
          = keyMap st
          /\ filterMap (drain json (doSubscribe json false this
                                      (drain json (doUnsubscribe json false this st1))))
             = delete (stringify_filter json filter) (filterMap st)) as [Hk Hf].
  { pose proof (indices_drain json
                  (doSubscribe json false this
                     (drain json (doUnsubscribe json false this st1)))) as Hd1.
    pose proof (indices_drain json (doUnsubscribe json false this st1)) as Hd2.
    unfold indices in Hd1, Hd2. injection Hd1 as -> -> _.
    destruct (doSubscribe_filter false this group' filter
                (drain json (doUnsubscribe json false this st1))) as [-> ->];
      [by rewrite Hg2|done|].
    injection Hd2 as -> -> _.
    by destruct (doUnsubscribe_filter false this group' filter st1 Hthis1 Hfilter)
      as [-> ->]. }
  set (st' := drain json _) in *.
  split; [done|]. split; [done|]. split; [by rewrite Hg, Hthis1|].
  intros other Hstr. split.
  - intros l. unfold removeFilterListener. by rewrite Hf, Hstr, lookup_delete_eq.
  - intros l isLite. unfold registerFilterListener.
    assert (filterMap st' !! stringify_filter json other = None) as ->.
    { rewrite Hf, Hstr. apply lookup_delete_eq. }
    reflexivity.
Qed.

End MoreFilterGroupFacts.

Lemma requests_share_one_stream_witness :
  Events.streamPromise
    (Events.writeRequests Events.example_json
       [Events.mkRequest "a" (Events.KEY (JStr "k")) true false 0;
        Events.mkRequest "b" (Events.KEY (JStr "k")) false false 0]
       (Events.new_MapEventsManager "orders"))
  = Some (Events.ensureStream (Events.new_MapEventsManager "orders")).1.
Proof.
  refine (proj1 (proj2 (requests_share_one_stream Events.example_json
                          (Events.new_MapEventsManager "orders")
                          (Events.mkRequest "a" (Events.KEY (JStr "k")) true false 0)
                          [Events.mkRequest "b" (Events.KEY (JStr "k")) false false 0]
                          _))).
  reflexivity.
Defined.

Lemma key_listener_round_trip_witness :
  Events.indices
    (Events.removeKeyListener Events.example_json 1 (JStr "k")
       (Events.registerKeyListener Events.example_json 1 (JStr "k") None
          (Events.new_MapEventsManager "orders")))
  = Events.indices (Events.new_MapEventsManager "orders").
Proof.
  refine (proj1 (key_listener_round_trip Events.example_json
                   (Events.new_MapEventsManager "orders") 1 (JStr "k") None _ _));
    reflexivity.
Defined.

Lemma last_listener_closes_stream_witness :
  Events.streamPromise
    (Events.removeListener Events.example_json 1 0 Events.lite_key_group) = None.
Proof.
  refine (proj1 (last_listener_closes_stream Events.example_json
                   Events.lite_key_group 1 0
                   (Events.mkGroup true (Events.AKey (JStr "k")) true [(1%nat, true)] 0)
                   (JStr "k") true (Events.mkStreamPromise 0 "uid-1")
                   _ _ _ _ _ _ _ _)); by vm_compute.
Defined.

Lemma removeListener_downgrades_witness :
  ((Events.registeredIsLite
      <$> Events.groups
            (Events.removeListener Events.example_json 1 0 Events.mixed_key_group)
          !! 0%nat)
   = Some false)
  /\ Events.removeListener Events.example_json 2 0 Events.drifted_key_group
     = Events.set_groups
         (<[0%nat := Events.mkGroup true (Events.AKey (JStr "k")) false
                       [(1%nat, true)] 1]> (Events.groups Events.drifted_key_group))
         Events.drifted_key_group.
Proof.
  split.
  - refine (proj1 (proj2 (proj1 (removeListener_downgrades Events.example_json
                                   Events.mixed_key_group 0
                                   (Events.mkGroup true (Events.AKey (JStr "k")) false
                                      [(1%nat, false); (2%nat, true)] 1)
                                   1 3 _ _ _) _)));
      by vm_compute.
  - refine (proj1 (proj2 (removeListener_downgrades Events.example_json
                            Events.drifted_key_group 0
                            (Events.mkGroup true (Events.AKey (JStr "k")) false
                               [(1%nat, true); (2%nat, false)] 2)
                            2 3 _ _ _)) _);
      by vm_compute.
Defined.

Lemma upgrade_unindexes_key_group_witness :
  Events.indices (Events.addListener Events.example_json 2 false 0 Events.lite_key_group)
  = (delete "k" (Events.keyMap Events.lite_key_group),
     Events.filterMap Events.lite_key_group,
     Events.filterId2ListenerGroup Events.lite_key_group).
Proof.
  refine (proj1 (upgrade_unindexes_key_group Events.example_json
                   Events.lite_key_group 0
                   (Events.mkGroup true (Events.AKey (JStr "k")) true [(1%nat, true)] 0)
                   2 (JStr "k") _ _ _ _ _)).
  - by vm_compute.
  - reflexivity.
  - reflexivity.
  - discriminate.
  - vm_compute. lia.
Defined.

Lemma listeners_share_key_group_witness :
  (Events.listeners
     <$> Events.groups
           (Events.registerKeyListener Events.example_json 2 (JStr "k") (Some true)
              (Events.registerKeyListener Events.example_json 1 (JStr "k") None
                 (Events.new_MapEventsManager "orders")))
         !! 0%nat)
  = Some [(1%nat, false); (2%nat, true)].
Proof.
  refine (proj1 (proj2 (listeners_share_key_group Events.example_json
                          (Events.new_MapEventsManager "orders") 1 2
                          (JStr "k") (JStr "k") None (Some true) _ _ _ _))).
  - reflexivity.
  - reflexivity.
  - discriminate.
  - discriminate.
Defined.

Lemma other_groups_keep_the_stream_witness :
  Events.streamPromise
    (Events.removeListener Events.example_json 1 0 Events.two_key_groups)
  = Some (Events.mkStreamPromise 0 "uid-1").
Proof.
  refine (proj1 (other_groups_keep_the_stream Events.example_json
                   Events.two_key_groups 1 0
                   (Events.mkGroup true (Events.AKey (JStr "k")) true [(1%nat, true)] 0)
                   (JStr "k") true (Events.mkStreamPromise 0 "uid-1")
                   _ _ _ _ _ _ _)); try by vm_compute.
  right. intros Hempty.
  apply (f_equal (fun m : gmap string nat => m !! "j")) in Hempty.
  vm_compute in Hempty. discriminate.
Defined.

Lemma upgrade_unindexes_filter_group_witness :
  Events.keyMap (Events.addListener Events.example_json 2 false 0 Events.lite_filter_group)
  = Events.keyMap Events.lite_filter_group.
Proof.
  refine (proj1 (upgrade_unindexes_filter_group Events.example_json
                   Events.lite_filter_group 0
                   (Events.mkGroup true (Events.AFilter Events.DEFAULT_FILTER) true
                      [(1%nat, true)] 0)
                   2 Events.DEFAULT_FILTER _ _ _ _ _)).
  - by vm_compute.
  - reflexivity.
  - reflexivity.
  - discriminate.
  - vm_compute. lia.
Defined.
